(** * Auto-Slides: the lightweight extractor

    A shallow embedding of [modules/lightweight_extractor.py]: the caption
    heuristic of [_extract_image_caption] with the regular expressions it
    runs, the extraction session of [LightweightExtractor], the persisted
    JSON document, and the convenience function
    [extract_lightweight_content].

    Python strings are lists of characters; a character is a code point in
    the range 0..255, so the character classes below are Python's classes
    restricted to that range. *)

From Stdlib Require Import Ascii String List Arith Lia Bool.
From Stdlib Require Import DecimalString.
From Stdlib Require DecimalFacts DecimalNat.
Import ListNotations.

Set Implicit Arguments.

(** ** Python strings *)

Module PyStr.

Definition str := list ascii.

(** A string literal of the source. *)
Definition lit (s : string) : str := list_ascii_of_string s.

Definition code (c : ascii) : nat := nat_of_ascii c.

Definition newline : ascii := ascii_of_nat 10.

(** [str.isspace] on one character, which is also the class [\s] of [re]:
    tab, line feed, vertical tab, form feed, carriage return, the four
    separators 0x1c..0x1f, space, next-line 0x85 and no-break space 0xa0. *)
Definition is_space (c : ascii) : bool :=
  let n := code c in
  ((9 <=? n) && (n <=? 13)) || ((28 <=? n) && (n <=? 32))
  || (n =? 133) || (n =? 160).

(** The class [\d]: the decimal digits. *)
Definition is_digit (c : ascii) : bool :=
  let n := code c in (48 <=? n) && (n <=? 57).

(** Simple lower-casing of one character, as [re.IGNORECASE] compares. *)
Definition lower (c : ascii) : ascii :=
  let n := code c in
  if ((65 <=? n) && (n <=? 90))
     || ((192 <=? n) && (n <=? 222) && negb (n =? 215))
  then ascii_of_nat (n + 32) else c.

Definition eqc (a b : ascii) : bool := Ascii.eqb a b.

(** [s.lstrip()], [s.rstrip()] and [s.strip()]. *)
Fixpoint lstrip (s : str) : str :=
  match s with
  | c :: s' => if is_space c then lstrip s' else s
  | [] => []
  end.

Definition rstrip (s : str) : str := rev (lstrip (rev s)).

Definition strip (s : str) : str := rstrip (lstrip s).

(** Truth value of a string: non-empty. *)
Definition truthy (s : str) : bool :=
  match s with [] => false | _ :: _ => true end.

(** [s.startswith(p)]. *)
Fixpoint startswith (p s : str) : bool :=
  match p, s with
  | [], _ => true
  | a :: p', b :: s' => eqc a b && startswith p' s'
  | _ :: _, [] => false
  end.

(** [sub in s]: [sub] occurs in [s] as a substring. *)
Fixpoint contains (sub s : str) : bool :=
  startswith sub s ||
  match s with
  | [] => false
  | _ :: s' => contains sub s'
  end.

(** [s.split(sep)] for a one-character separator: always at least one
    piece. *)
Fixpoint split (sep : ascii) (s : str) : list str :=
  match s with
  | [] => [[]]
  | c :: s' =>
      if eqc c sep then [] :: split sep s'
      else match split sep s' with
           | l :: ls => (c :: l) :: ls
           | [] => [[c]]
           end
  end.

(** [str(n)] for a natural number. *)
Definition str_of_nat (n : nat) : str :=
  lit (NilZero.string_of_uint (Nat.to_uint n)).

(** [enumerate(l)]. *)
Fixpoint enumerate_from {A} (i : nat) (l : list A) : list (nat * A) :=
  match l with
  | [] => []
  | x :: l' => (i, x) :: enumerate_from (S i) l'
  end.

Definition enumerate {A} (l : list A) : list (nat * A) := enumerate_from 0 l.

(** [range(a, b)]. *)
Definition range (a b : nat) : list nat := seq a (b - a).

End PyStr.

Import PyStr.

(** ** The part of [re] the source uses

    A backtracking matcher in continuation-passing style: alternatives are
    tried left to right, a greedy star takes the longest run first, a lazy
    star the shortest, and the first complete match wins. *)

Module Re.

Inductive regex : Type :=
| Eps
| Chr (c : ascii)                 (* a literal character *)
| Cls (p : ascii -> bool)         (* a character class *)
| Seq (r1 r2 : regex)
| Alt (r1 r2 : regex)             (* r1|r2 *)
| Star (p : ascii -> bool)        (* C*  over a class, greedy *)
| StarLazy (p : ascii -> bool)    (* C*? over a class, lazy *)
| Grp (n : nat) (r : regex)       (* capturing group number n *)
| Bol                             (* ^ *)
| Eol.                            (* $ *)

(** [r?] and [C+]. *)
Definition Opt (r : regex) : regex := Alt r Eps.
Definition Plus (p : ascii -> bool) : regex := Seq (Cls p) (Star p).

(** [re.escape(s)] spliced into a pattern: [s] taken literally. *)
Fixpoint escape (s : str) : regex :=
  match s with
  | [] => Eps
  | c :: s' => Seq (Chr c) (escape s')
  end.

(** The class [.] without [re.DOTALL]. *)
Definition dot (c : ascii) : bool := negb (eqc c newline).

Definition captures := list (nat * str).

Fixpoint group (n : nat) (g : captures) : option str :=
  match g with
  | [] => None
  | (m, s) :: g' => if m =? n then Some s else group n g'
  end.

Definition chr_eq (icase : bool) (c d : ascii) : bool :=
  if icase then eqc (lower c) (lower d) else eqc c d.

Section Matcher.

Variable R : Type.

Fixpoint star_greedy (p : ascii -> bool) (s : str) (k : str -> option R)
  : option R :=
  match s with
  | c :: s' =>
      if p c then
        match star_greedy p s' k with
        | Some x => Some x
        | None => k s
        end
      else k s
  | [] => k []
  end.

Fixpoint star_lazy (p : ascii -> bool) (s : str) (k : str -> option R)
  : option R :=
  match k s with
  | Some x => Some x
  | None =>
      match s with
      | c :: s' => if p c then star_lazy p s' k else None
      | [] => None
      end
  end.

(** [rmatch icase n r s g k]: match [r] at the front of the remaining input
    [s] ([n] is the length of the whole subject, for [^]), then continue with
    [k] on what is left. *)
Fixpoint rmatch (icase : bool) (n : nat) (r : regex) (s : str) (g : captures)
    (k : str -> captures -> option R) : option R :=
  match r with
  | Eps => k s g
  | Chr c =>
      match s with
      | d :: s' => if chr_eq icase c d then k s' g else None
      | [] => None
      end
  | Cls p =>
      match s with
      | d :: s' => if p d then k s' g else None
      | [] => None
      end
  | Seq r1 r2 =>
      rmatch icase n r1 s g (fun s' g' => rmatch icase n r2 s' g' k)
  | Alt r1 r2 =>
      match rmatch icase n r1 s g k with
      | Some x => Some x
      | None => rmatch icase n r2 s g k
      end
  | Star p => star_greedy p s (fun s' => k s' g)
  | StarLazy p => star_lazy p s (fun s' => k s' g)
  | Grp i r1 =>
      rmatch icase n r1 s g
        (fun s' g' => k s' ((i, firstn (length s - length s') s) :: g'))
  | Bol => if length s =? n then k s g else None
  | Eol =>
      match s with
      | [] => k s g
      | [c] => if eqc c newline then k s g else None
      | _ => None
      end
  end.

End Matcher.

(** A match object: the groups and the input left after the match. *)
Definition match_obj : Type := captures * str.

Definition accept : str -> captures -> option match_obj :=
  fun s g => Some (g, s).

(** [re.match(r, s)]: a match at the start of [s]. *)
Definition re_match (icase : bool) (r : regex) (s : str) : option match_obj :=
  rmatch icase (length s) r s [] accept.

(** The leftmost match in [s], with the input at which it starts: every
    start position is tried in turn, the end of the input included. *)
Fixpoint search_from (icase : bool) (n : nat) (r : regex) (s : str)
  : option (str * match_obj) :=
  match rmatch icase n r s [] accept with
  | Some m => Some (s, m)
  | None =>
      match s with
      | [] => None
      | _ :: s' => search_from icase n r s'
      end
  end.

(** [re.search(r, s)]. *)
Definition re_search (icase : bool) (r : regex) (s : str) : option match_obj :=
  option_map snd (search_from icase (length s) r s).

(** [m.group(i)]; a group that did not take part is the empty string here,
    the patterns of the source have none. *)
Definition group_text (i : nat) (m : match_obj) : str :=
  match group i (fst m) with Some s => s | None => [] end.

(** After an empty match the scanner must advance: at the position where
    that match ended only a non-empty match is accepted. *)
Definition accept_advancing (must_advance : bool) (s0 : str)
  : str -> captures -> option match_obj :=
  fun s g =>
    if must_advance && (length s =? length s0) then None else Some (g, s).

Definition search_advancing (icase : bool) (n : nat) (r : regex)
    (must_advance : bool) (s : str) : option (str * match_obj) :=
  match rmatch icase n r s [] (accept_advancing must_advance s) with
  | Some m => Some (s, m)
  | None =>
      match s with
      | [] => None
      | _ :: s' => search_from icase n r s'
      end
  end.

(** [re.findall(r, s)] for a pattern with one group: group 1 of every
    match, left to right, each search starting where the last match ended. *)
Fixpoint findall_from (fuel : nat) (icase : bool) (n : nat) (r : regex)
    (must_advance : bool) (s : str) : list str :=
  match fuel with
  | 0 => []
  | S fuel' =>
      match search_advancing icase n r must_advance s with
      | None => []
      | Some (s0, m) =>
          group_text 1 m ::
          findall_from fuel' icase n r (length (snd m) =? length s0) (snd m)
      end
  end.

Definition re_findall (icase : bool) (r : regex) (s : str) : list str :=
  findall_from (2 * length s + 2) icase (length s) r false s.

End Re.

Import Re.

(** ** Exceptions and logging *)

(** A raised exception of the class [Exception], with the text [str(e)]
    gives. These are the errors the module's [except Exception] clauses
    catch; [KeyboardInterrupt], [SystemExit] and the other exceptions
    outside that class are no part of the model, and every statement
    below that speaks of raising speaks of the class [Exception]. *)
Inductive exn : Type := Exception (msg : str).

Inductive result (A : Type) : Type :=
| Ok (a : A)
| Raise (e : exn).

Arguments Ok {A} a.
Arguments Raise {A} e.

Definition rbind {A B} (r : result A) (f : A -> result B) : result B :=
  match r with
  | Ok a => f a
  | Raise e => Raise e
  end.

Notation "x <- r ;; k" := (rbind r (fun x => k))
  (at level 61, r at next level, right associativity).

(** [l[j]] for a non-negative index: [IndexError] out of range. *)
Definition index {A} (l : list A) (j : nat) : result A :=
  match nth_error l j with
  | Some a => Ok a
  | None => Raise (Exception (lit "list index out of range"))
  end.

(** A [for] loop whose body may [return] a value: the first iteration
    that returns ends the loop, an exception ends it too. *)
Fixpoint for_first {A B} (body : A -> result (option B)) (l : list A)
  : result (option B) :=
  match l with
  | [] => Ok None
  | a :: l' =>
      match body a with
      | Raise e => Raise e
      | Ok (Some b) => Ok (Some b)
      | Ok None => for_first body l'
      end
  end.

Inductive level : Type := Info | Warning | Error.

(** The messages the module logs, one constructor per call of the logger,
    with the values its f-string formats. *)
Inductive message (float : Type) : Type :=
| MsgStart (pdf_path : str)
| MsgConverted (conversion_time : float)
| MsgCompleted
| MsgTextLength (n : nat)
| MsgImageCount (n : nat)
| MsgExtractionFailed (e : exn)
| MsgCaptionError (e : exn)
| MsgSaved (output_file : str)
| MsgFileSize (size : nat)
| MsgCleaning (img_dir : str)
| MsgCleanupError (e : exn).

Arguments MsgStart {float}.
Arguments MsgCompleted {float}.
Arguments MsgTextLength {float}.
Arguments MsgImageCount {float}.
Arguments MsgExtractionFailed {float}.
Arguments MsgCaptionError {float}.
Arguments MsgSaved {float}.
Arguments MsgFileSize {float}.
Arguments MsgCleaning {float}.
Arguments MsgCleanupError {float}.

(** ** The caption heuristic: [_extract_image_caption] *)

Module Caption.

Notation "r1 ;;; r2" := (Seq r1 r2) (at level 60, right associativity).

Definition not_rparen (c : ascii) : bool := negb (eqc c ")").
Definition colon_or_dot (c : ascii) : bool := eqc c ":" || eqc c ".".
Definition heading_punct (c : ascii) : bool :=
  eqc c "#" || eqc c "*" || eqc c "-".

(** rf'!\[(.*?)\]\([^)]*{re.escape(image_filename)}[^)]*\)' *)
Definition reference_pattern (image_filename : str) : regex :=
  Chr "!" ;;; Chr "[" ;;; Grp 1 (StarLazy dot) ;;; Chr "]" ;;; Chr "(" ;;;
  Star not_rparen ;;; escape image_filename ;;; Star not_rparen ;;; Chr ")".

(** The label pattern [(?:Figure?|Fig\.?)\s*(\d+)[:\.]?\s*] followed by
    group 2, a greedy run of [.]; compiled with [re.IGNORECASE]. *)
Definition figure_pattern : regex :=
  Alt (escape (lit "Figur") ;;; Opt (Chr "e"))
      (escape (lit "Fig") ;;; Opt (Chr ".")) ;;;
  Star is_space ;;; Grp 1 (Plus is_digit) ;;; Opt (Cls colon_or_dot) ;;;
  Star is_space ;;; Grp 2 (Star dot).

(** r'^\d+$' *)
Definition number_pattern : regex := Bol ;;; Plus is_digit ;;; Eol.

(** r'^[#*-]+$' *)
Definition punct_pattern : regex := Bol ;;; Plus heading_punct ;;; Eol.

Definition matched (m : option match_obj) : bool :=
  match m with Some _ => true | None => false end.

(** Rule 1, the direct image reference: the first match's bracket text,
    stripped, when that is not empty. *)
Definition direct_caption (markdown_text image_filename : str) : option str :=
  let matches :=
    re_findall false (reference_pattern image_filename) markdown_text in
  match matches with
  | m0 :: _ =>
      let caption := strip m0 in
      if truthy caption then Some caption else None
  | [] => None
  end.

(** The body of the two figure-label loops on one line: the label's
    trailing text, stripped, when the line has a label and the text is not
    empty. *)
Definition figure_caption (line : str) : option str :=
  match re_search true figure_pattern line with
  | Some figure_match =>
      let caption_text := strip (group_text 2 figure_match) in
      if truthy caption_text then Some caption_text else None
  | None => None
  end.

(** The body of the fallback loop on one line. *)
Definition prose_caption (line : str) : option str :=
  let line_text := strip line in
  if truthy line_text
     && negb (startswith (lit "!") line_text)
     && negb (matched (re_match false number_pattern line_text))
     && negb (matched (re_match false punct_pattern line_text))
     && (10 <? length line_text)
  then Some line_text else None.

Definition scan (f : str -> option str) (lines : list str) (js : list nat)
  : result (option str) :=
  for_first (fun j => line <- index lines j ;; Ok (f line)) js.

(** What the loop over the lines does at a line [i] that contains the file
    name: the label below (lines i+1..i+5), else the label above (lines
    i-3..i-1), else the prose line below (lines i+1..i+3). *)
Definition line_rules (lines : list str) (i : nat) : result (option str) :=
  below <- scan figure_caption lines
             (range (i + 1) (min (length lines) (i + 6))) ;;
  match below with
  | Some c => Ok (Some c)
  | None =>
      above <- scan figure_caption lines (range (max 0 (i - 3)) i) ;;
      match above with
      | Some c => Ok (Some c)
      | None =>
          scan prose_caption lines
            (range (i + 1) (min (length lines) (i + 4)))
      end
  end.

(** The [try] block. *)
Definition caption_body (markdown_text image_filename : str) : result str :=
  match direct_caption markdown_text image_filename with
  | Some caption => Ok caption
  | None =>
      let lines := split newline markdown_text in
      found <- for_first
                 (fun il : nat * str =>
                    if contains image_filename (snd il)
                    then line_rules lines (fst il)
                    else Ok None)
                 (enumerate lines) ;;
      Ok (match found with Some c => c | None => [] end)
  end.

(** [except Exception as e]: the exception is logged as a warning and the
    empty string returned. *)
Definition recover {float : Type} (body : result str)
  : str * list (level * message float) :=
  match body with
  | Ok caption => (caption, [])
  | Raise e => ([], [(Warning, MsgCaptionError e)])
  end.

(** The method: the value it returns and what it logs. *)
Definition _extract_image_caption {float : Type}
    (markdown_text image_filename : str) : str * list (level * message float) :=
  recover (caption_body markdown_text image_filename).

End Caption.

Import Caption.

(** ** Paths: [os.path.join] *)

Module Path.

Definition sep : str := lit "/".

Definition endswith_sep (p : str) : bool :=
  match rev p with
  | c :: _ => eqc c "/"
  | [] => false
  end.

(** One step of the loop of [posixpath.join]: an absolute component
    replaces what came before, an empty or separator-ended path takes the
    component as it is, otherwise a separator goes between. *)
Definition join_step (path b : str) : str :=
  if startswith sep b then b
  else if negb (truthy path) || endswith_sep path then path ++ b
  else path ++ sep ++ b.

(** [os.path.join(a, *p)]. *)
Definition join (a : str) (p : list str) : str := fold_left join_step p a.

End Path.

(** [s.replace(old, new)] for a non-empty [old]: the occurrences are
    replaced left to right and do not overlap; [skip] counts the characters
    of an occurrence still to drop. *)
Fixpoint replace_from (old new : str) (skip : nat) (s : str) : str :=
  match s with
  | [] => []
  | c :: s' =>
      match skip with
      | S k => replace_from old new k s'
      | 0 =>
          if startswith old s
          then new ++ replace_from old new (length old - 1) s'
          else c :: replace_from old new 0 s'
      end
  end.

Definition replace (old new s : str) : str := replace_from old new 0 s.

(** ** Python values and [json.dump]

    The values a content record is made of. A [dict] keeps its items in
    insertion order. *)

Unset Elimination Schemes.

Inductive pyval (float : Type) : Type :=
| PNone
| PBool (b : bool)
| PStr (s : str)
| PFloat (f : float)
| PList (l : list (pyval float))
| PDict (d : list (str * pyval float)).

Set Elimination Schemes.

Arguments PNone {float}.
Arguments PBool {float} b.
Arguments PStr {float} s.
Arguments PFloat {float} f.
Arguments PList {float} l.
Arguments PDict {float} d.

Definition dict (float : Type) : Type := list (str * pyval float).

(** [d[key]] on the items of a [dict]. *)
Fixpoint lookup {A} (key : str) (d : list (str * A)) : option A :=
  match d with
  | [] => None
  | (k, v) :: d' =>
      if list_eq_dec ascii_dec k key then Some v else lookup key d'
  end.

(** Truth value of what [extract_content] returns: [None] is false, a
    [dict] is true when it has an item. *)
Definition content_truthy {float} (content : option (dict float)) : bool :=
  match content with
  | None => false
  | Some [] => false
  | Some (_ :: _) => true
  end.

Module Json.

Definition dquote : ascii := ascii_of_nat 34.
Definition backslash : ascii := ascii_of_nat 92.

Definition hex_digit (n : nat) : ascii :=
  if n <? 10 then ascii_of_nat (48 + n) else ascii_of_nat (87 + n).

(** One character of a string as [json.encoder.py_encode_basestring]
    writes it ([ensure_ascii=False]): the quote, the backslash and the
    control characters below 0x20 are escaped, every other character is
    kept. *)
Definition encode_char (c : ascii) : str :=
  let n := code c in
  if n =? 34 then [backslash; dquote]
  else if n =? 92 then [backslash; backslash]
  else if n =? 8 then [backslash; "b"%char]
  else if n =? 12 then [backslash; "f"%char]
  else if n =? 10 then [backslash; "n"%char]
  else if n =? 13 then [backslash; "r"%char]
  else if n =? 9 then [backslash; "t"%char]
  else if n <? 32 then
    [backslash; "u"%char; "0"%char; "0"%char;
     hex_digit (n / 16); hex_digit (n mod 16)]
  else [c].

Definition encode_string (s : str) : str :=
  dquote :: flat_map encode_char s ++ [dquote].

(** A new line and the indentation of nesting level [level]
    ([indent=2]). *)
Definition newline_indent (level : nat) : str :=
  newline :: repeat " "%char (2 * level).

Section Dump.

Variable float : Type.
(** [float.__repr__], with the names [NaN], [Infinity] and [-Infinity]. *)
Variable floatstr : float -> str.

(** [json.dumps(v, ensure_ascii=False, indent=2)]: the items of a
    non-empty list or dict each on a line of their own, one level deeper,
    separated by a comma; a key and its value separated by a colon and a
    space. *)
Fixpoint dumps_at (level : nat) (v : pyval float) : str :=
  match v with
  | PNone => lit "null"
  | PBool true => lit "true"
  | PBool false => lit "false"
  | PStr s => encode_string s
  | PFloat f => floatstr f
  | PList [] => lit "[]"
  | PList (x :: l) =>
      lit "[" ++ newline_indent (S level) ++ dumps_at (S level) x
      ++ (fix items (l : list (pyval float)) : str :=
            match l with
            | [] => []
            | y :: l' =>
                lit "," ++ newline_indent (S level) ++ dumps_at (S level) y
                ++ items l'
            end) l
      ++ newline_indent level ++ lit "]"
  | PDict [] => lit "{}"
  | PDict ((k, x) :: d) =>
      lit "{" ++ newline_indent (S level) ++ encode_string k ++ lit ": "
      ++ dumps_at (S level) x
      ++ (fix items (d : list (str * pyval float)) : str :=
            match d with
            | [] => []
            | (k', y) :: d' =>
                lit "," ++ newline_indent (S level) ++ encode_string k'
                ++ lit ": " ++ dumps_at (S level) y ++ items d'
            end) d
      ++ newline_indent level ++ lit "}"
  end.

Definition dumps (v : pyval float) : str := dumps_at 0 v.

End Dump.

(** *** [json.load]

    The decoder, on the text of the file: [json.decoder.JSONDecoder] with
    its defaults. [None] stands for [JSONDecodeError], and for a document
    with an integer or a character above 0xff, which this model of the
    values does not hold. *)

Definition is_ws (c : ascii) : bool :=
  eqc c " " || (code c =? 9) || (code c =? 10) || (code c =? 13).

Fixpoint skip_ws (s : str) : str :=
  match s with
  | c :: s' => if is_ws c then skip_ws s' else s
  | [] => []
  end.

Definition hex_value (c : ascii) : option nat :=
  let n := code c in
  if (48 <=? n) && (n <=? 57) then Some (n - 48)
  else if (97 <=? n) && (n <=? 102) then Some (n - 87)
  else if (65 <=? n) && (n <=? 70) then Some (n - 55)
  else None.

(** The character an escape letter stands for. *)
Definition unescape (e : ascii) : option ascii :=
  let n := code e in
  if n =? 34 then Some dquote
  else if n =? 92 then Some backslash
  else if eqc e "/" then Some "/"%char
  else if eqc e "b" then Some (ascii_of_nat 8)
  else if eqc e "f" then Some (ascii_of_nat 12)
  else if eqc e "n" then Some (ascii_of_nat 10)
  else if eqc e "r" then Some (ascii_of_nat 13)
  else if eqc e "t" then Some (ascii_of_nat 9)
  else None.

Definition hex4 (h1 h2 h3 h4 : ascii) : option nat :=
  match hex_value h1, hex_value h2, hex_value h3, hex_value h4 with
  | Some a, Some b, Some c, Some d => Some (((a * 16 + b) * 16 + c) * 16 + d)
  | _, _, _, _ => None
  end.

(** [py_scanstring], after the opening quote: the string and the text
    after its closing quote. A raw control character is an error. *)
Fixpoint scan_string (s : str) : option (str * str) :=
  match s with
  | [] => None
  | c :: s' =>
      if code c =? 34 then Some ([], s')
      else if code c =? 92 then
        match s' with
        | [] => None
        | e :: s'' =>
            if eqc e "u" then
              match s'' with
              | h1 :: h2 :: h3 :: h4 :: s5 =>
                  match hex4 h1 h2 h3 h4 with
                  | Some n =>
                      if n <? 256 then
                        match scan_string s5 with
                        | Some (t, rest) => Some (ascii_of_nat n :: t, rest)
                        | None => None
                        end
                      else None
                  | None => None
                  end
              | _ => None
              end
            else
              match unescape e with
              | Some ch =>
                  match scan_string s'' with
                  | Some (t, rest) => Some (ch :: t, rest)
                  | None => None
                  end
              | None => None
              end
        end
      else if code c <? 32 then None
      else
        match scan_string s' with
        | Some (t, rest) => Some (c :: t, rest)
        | None => None
        end
  end.

(** [dict(pairs)]: a repeated key keeps its first place and takes the
    last value. *)
Fixpoint dict_set {A} (key : str) (v : A) (d : list (str * A))
  : list (str * A) :=
  match d with
  | [] => [(key, v)]
  | (k, x) :: d' =>
      if list_eq_dec ascii_dec k key then (k, v) :: d'
      else (k, x) :: dict_set key v d'
  end.

Definition dict_of_pairs {A} (pairs : list (str * A)) : list (str * A) :=
  fold_left (fun d kv => dict_set (fst kv) (snd kv) d) pairs [].

Section Load.

Variable float : Type.
Variable scan_float : str -> option (float * str).

(** The next character is [c]: what is after it. *)
Definition expect (c : ascii) (s : str) : option str :=
  match s with
  | d :: s' => if eqc d c then Some s' else None
  | [] => None
  end.

(** [scan_once] and the loops of [JSONArray] and [JSONObject]; [fuel]
    bounds the nesting and the number of items. *)
Fixpoint scan_once (fuel : nat) (s : str) : option (pyval float * str) :=
  match fuel with
  | 0 => None
  | S fuel' =>
      match s with
      | [] => None
      | c :: s' =>
          if code c =? 34 then
            match scan_string s' with
            | Some (t, rest) => Some (PStr t, rest)
            | None => None
            end
          else if eqc c "{" then
            match expect "}" (skip_ws s') with
            | Some rest => Some (PDict [], rest)
            | None =>
                match object_items fuel' (skip_ws s') [] with
                | Some (pairs, rest) => Some (PDict (dict_of_pairs pairs), rest)
                | None => None
                end
            end
          else if eqc c "[" then
            match expect "]" (skip_ws s') with
            | Some rest => Some (PList [], rest)
            | None =>
                match array_items fuel' (skip_ws s') [] with
                | Some (values, rest) => Some (PList values, rest)
                | None => None
                end
            end
          else if startswith (lit "null") s then Some (PNone, skipn 4 s)
          else if startswith (lit "true") s then Some (PBool true, skipn 4 s)
          else if startswith (lit "false") s then Some (PBool false, skipn 5 s)
          else
            match scan_float s with
            | Some (f, rest) => Some (PFloat f, rest)
            | None => None
            end
      end
  end

with array_items (fuel : nat) (s : str) (values : list (pyval float))
  : option (list (pyval float) * str) :=
  match fuel with
  | 0 => None
  | S fuel' =>
      match scan_once fuel' s with
      | Some (value, rest) =>
          match expect "]" (skip_ws rest) with
          | Some rest' => Some (values ++ [value], rest')
          | None =>
              match expect "," (skip_ws rest) with
              | Some rest' =>
                  array_items fuel' (skip_ws rest') (values ++ [value])
              | None => None
              end
          end
      | None => None
      end
  end

with object_items (fuel : nat) (s : str) (pairs : list (str * pyval float))
  : option (list (str * pyval float) * str) :=
  match fuel with
  | 0 => None
  | S fuel' =>
      match expect dquote s with
      | Some s' =>
          match scan_string s' with
          | Some (key, rest) =>
              match expect ":" (skip_ws rest) with
              | Some rest1 =>
                  match scan_once fuel' (skip_ws rest1) with
                  | Some (value, rest2) =>
                      match expect "}" (skip_ws rest2) with
                      | Some rest3 => Some (pairs ++ [(key, value)], rest3)
                      | None =>
                          match expect "," (skip_ws rest2) with
                          | Some rest3 =>
                              object_items fuel' (skip_ws rest3)
                                (pairs ++ [(key, value)])
                          | None => None
                          end
                      end
                  | None => None
                  end
              | None => None
              end
          | None => None
          end
      | None => None
      end
  end.

(** [json.loads(s)]: one value, with white space around it and nothing
    else. *)
Definition loads (s : str) : option (pyval float) :=
  match scan_once (2 * length s + 2) (skip_ws s) with
  | Some (v, rest) =>
      match skip_ws rest with
      | [] => Some v
      | _ :: _ => None
      end
  | None => None
  end.

End Load.

End Json.

(** ** The world outside the module

    What the module calls and does not define: the clock, the file system,
    the settings object of [surya], the converter of [marker] and the image
    objects it returns. [OS] is the state these calls read and change; a
    call that can fail returns a [result]. *)

Class Externals : Type := {
  float : Type;
  datetime : Type;
  image : Type;
  converter : Type;
  rendered : Type;
  OS : Type;
  (** [datetime.now()], [.strftime("%Y%m%d_%H%M%S")], [.isoformat()] *)
  datetime_now : OS -> datetime * OS;
  strftime : datetime -> str;
  isoformat : datetime -> str;
  (** [time.time()] and the subtraction of two of its values *)
  time_time : OS -> float * OS;
  float_sub : float -> float -> float;
  (** the text [json] writes for a float, and the float [json] reads at
      the front of a text: a number with a fraction or an exponent, or one
      of the names [NaN], [Infinity], [-Infinity], with the text after it;
      an integer literal is not a float *)
  floatstr : float -> str;
  scan_float : str -> option (float * str);
  (** [os.makedirs(p, exist_ok=True)], [os.path.exists], [os.path.getsize],
      [shutil.rmtree] *)
  os_makedirs : str -> OS -> result unit * OS;
  os_path_exists : str -> OS -> bool;
  os_path_getsize : str -> OS -> result nat;
  shutil_rmtree : str -> OS -> result unit * OS;
  (** [open(p, 'w', encoding='utf-8')] and the writes into it; reading a
      file back *)
  write_file : str -> str -> OS -> result unit * OS;
  read_file : str -> OS -> result str;
  (** [getattr(settings, name)] and [setattr(settings, name, value)] *)
  settings_getattr : str -> OS -> result str * OS;
  settings_setattr : str -> str -> OS -> result unit * OS;
  (** [PdfConverter(artifact_dict=create_model_dict())], the call of the
      converter on a path, and [text_from_rendered], whose second
      component the module drops *)
  create_converter : OS -> result converter * OS;
  run_converter : converter -> str -> OS -> result rendered * OS;
  text_from_rendered : rendered -> result (str * list (str * image));
  (** [image.save(path, "JPEG")] *)
  image_save : image -> str -> OS -> result unit * OS;
  (** [traceback.print_exc()]: the traceback of the exception being
      handled goes to the standard error stream, not to the logger *)
  print_exc : exn -> OS -> OS
}.

(** The calls that can fail or change the file system, as the trace of a
    run records them. *)
Inductive call : Type :=
| CallMakedirs (path : str)
| CallGetattr (name : str)
| CallSetattr (name value : str)
| CallCreateConverter
| CallConverter (pdf_path : str)
| CallTextFromRendered
| CallImageSave (path : str)
| CallWrite (path : str)
| CallGetsize (path : str)
| CallRmtree (path : str).

Section Session.

Context {E : Externals}.

(** The state of a run: the outside world, the trace of the calls made
    with their outcome ([true]: returned, [false]: raised), and the log. *)
Record World : Type := mkWorld {
  os : OS;
  calls : list (call * bool);
  log : list (level * message float)
}.

Definition M (A : Type) : Type := World -> result A * World.

Definition ret {A} (a : A) : M A := fun w => (Ok a, w).

Definition bind {A B} (m : M A) (f : A -> M B) : M B :=
  fun w =>
    match m w with
    | (Ok a, w') => f a w'
    | (Raise e, w') => (Raise e, w')
    end.

Definition is_ok {A} (r : result A) : bool :=
  match r with Ok _ => true | Raise _ => false end.

(** A call of the outside world that can raise, recorded in the trace. *)
Definition external {A} (c : call) (f : OS -> result A * OS) : M A :=
  fun w =>
    let (r, o) := f (os w) in
    (r, mkWorld o (calls w ++ [(c, is_ok r)]) (log w)).

(** A call that always returns. *)
Definition total {A} (f : OS -> A * OS) : M A :=
  fun w => let (a, o) := f (os w) in (Ok a, mkWorld o (calls w) (log w)).

Definition logger (l : level) (m : message float) : M unit :=
  fun w => (Ok tt, mkWorld (os w) (calls w) (log w ++ [(l, m)])).

(** [try: body except Exception as e: handler(e)]. Every [exn] is of the
    class [Exception], so the handler takes every exception of the
    model. *)
Definition try_except {A} (body : M A) (handler : exn -> M A) : M A :=
  fun w =>
    match body w with
    | (Ok a, w') => (Ok a, w')
    | (Raise e, w') => handler e w'
    end.

(** A [for] loop that updates a local variable. *)
Fixpoint for_each {A S} (l : list A) (body : S -> A -> M S) (s : S) : M S :=
  match l with
  | [] => ret s
  | a :: l' => bind (body s a) (for_each l' body)
  end.

End Session.

Notation "x <~ m ;; k" := (bind m (fun x => k))
  (at level 61, m at next level, right associativity).
Notation "m ;;- k" := (bind m (fun _ => k))
  (at level 61, right associativity).

(** ** [LightweightExtractor] *)

Section Extractor.

Context {E : Externals}.

Record LightweightExtractor : Type := mkExtractor {
  pdf_path : str;
  output_dir : str;
  session_id : str;
  img_dir : str
}.

Definition checkpoints : list str :=
  [ lit "LAYOUT_MODEL_CHECKPOINT";
    lit "DETECTOR_MODEL_CHECKPOINT";
    lit "OCR_ERROR_MODEL_CHECKPOINT";
    lit "TABLE_REC_MODEL_CHECKPOINT";
    lit "RECOGNITION_MODEL_CHECKPOINT" ].

(** [_setup_marker_models]: the cache directory is set, and every
    checkpoint that is an [s3://] address is moved under [models]. *)
Definition _setup_marker_models : M unit :=
  let model_root := lit "models" in
  external (CallSetattr (lit "MODEL_CACHE_DIR") model_root)
    (settings_setattr (lit "MODEL_CACHE_DIR") model_root) ;;-
  for_each checkpoints
    (fun _ checkpoint =>
       value <~ external (CallGetattr checkpoint)
                  (settings_getattr checkpoint) ;;
       if contains (lit "s3://") value then
         let value := replace (lit "s3://") (lit "/") value in
         external (CallSetattr checkpoint (model_root ++ value))
           (settings_setattr checkpoint (model_root ++ value))
       else ret tt)
    tt.

(** [__init__]: the session id is the time of creation, the image
    directory is [output/images/<session id>], and both directories are
    made. *)
Definition __init__ (pdf_path output_dir : str) : M LightweightExtractor :=
  now <~ total datetime_now ;;
  let session_id := strftime now in
  let img_dir := Path.join (lit "output") [lit "images"; session_id] in
  external (CallMakedirs output_dir) (os_makedirs output_dir) ;;-
  external (CallMakedirs img_dir) (os_makedirs img_dir) ;;-
  _setup_marker_models ;;-
  ret (mkExtractor pdf_path output_dir session_id img_dir).

(** The caption method inside a run: its log records go to the log. *)
Definition extract_image_caption_logged (markdown_text image_filename : str)
  : M str :=
  let (caption, records) :=
    _extract_image_caption (float := float) markdown_text image_filename in
  fun w => (Ok caption, mkWorld (os w) (calls w) (log w ++ records)).

(** The body of the loop over [enumerate(images.items())]. *)
Definition materialize (self : LightweightExtractor) (markdown_text : str)
    (image_list : list (pyval float)) (item : nat * (str * image))
  : M (list (pyval float)) :=
  let '(i, (filename, image)) := item in
  let image_filepath := Path.join (img_dir self) [filename] in
  external (CallImageSave image_filepath) (image_save image image_filepath) ;;-
  caption <~ extract_image_caption_logged markdown_text filename ;;
  let image_info :=
    PDict [ (lit "id", PStr (lit "fig" ++ str_of_nat (i + 1)));
            (lit "filename", PStr filename);
            (lit "path", PStr image_filepath);
            (lit "caption", PStr caption) ] in
  ret (image_list ++ [image_info]).

(** [extract_content]: the record, or [None] when the [try] block
    raised; the handler logs one error and prints the traceback. *)
Definition extract_content (self : LightweightExtractor)
  : M (option (dict float)) :=
  try_except
    (logger Info (MsgStart (pdf_path self)) ;;-
     converter <~ external CallCreateConverter create_converter ;;
     start_time <~ total time_time ;;
     rendered <~ external (CallConverter (pdf_path self))
                   (run_converter converter (pdf_path self)) ;;
     end_time <~ total time_time ;;
     let conversion_time := float_sub end_time start_time in
     logger Info (MsgConverted conversion_time) ;;-
     text_images <~ external CallTextFromRendered
                      (fun o => (text_from_rendered rendered, o)) ;;
     let markdown_text := fst text_images in
     let images := snd text_images in
     image_list <~ for_each (enumerate images)
                     (materialize self markdown_text) [] ;;
     now <~ total datetime_now ;;
     let content :=
       [ (lit "full_text", PStr markdown_text);
         (lit "images", PList image_list);
         (lit "pdf_path", PStr (pdf_path self));
         (lit "extraction_time", PStr (isoformat now));
         (lit "conversion_time_seconds", PFloat conversion_time);
         (lit "session_id", PStr (session_id self)) ] in
     logger Info MsgCompleted ;;-
     logger Info (MsgTextLength (length markdown_text)) ;;-
     logger Info (MsgImageCount (length image_list)) ;;-
     ret (Some content))
    (fun e =>
       logger Error (MsgExtractionFailed e) ;;-
       total (fun o => (tt, print_exc e o)) ;;-
       ret None).

(** [save_content(content, output_file=None)]: the path of the file
    written. *)
Definition save_content (self : LightweightExtractor) (content : dict float)
    (output_file : option str) : M str :=
  let output_file :=
    match output_file with
    | None => Path.join (output_dir self) [lit "lightweight_content.json"]
    | Some f => f
    end in
  external (CallWrite output_file)
    (write_file output_file (Json.dumps floatstr (PDict content))) ;;-
  file_size <~ external (CallGetsize output_file)
                 (fun o => (os_path_getsize output_file o, o)) ;;
  logger Info (MsgSaved output_file) ;;-
  logger Info (MsgFileSize file_size) ;;-
  ret output_file.

(** [cleanup_temp_files]; a session always has the attribute [img_dir],
    so the test is that of [os.path.exists]. *)
Definition cleanup_temp_files (self : LightweightExtractor) : M unit :=
  fun w =>
    if os_path_exists (img_dir self) (os w) then
      try_except
        (logger Info (MsgCleaning (img_dir self)) ;;-
         external (CallRmtree (img_dir self)) (shutil_rmtree (img_dir self)))
        (fun e => logger Warning (MsgCleanupError e))
        w
    else ret tt w.

(** The convenience function: the pair it returns. *)
Definition extract_lightweight_content (pdf_path output_dir : str)
    (cleanup_temp : bool) : M (option (dict float) * option str) :=
  extractor <~ __init__ pdf_path output_dir ;;
  content <~ extract_content extractor ;;
  if content_truthy content then
    match content with
    | Some c =>
        output_file <~ save_content extractor c None ;;
        (if cleanup_temp then cleanup_temp_files extractor else ret tt) ;;-
        ret (content, Some output_file)
    | None => ret (None, None)
    end
  else ret (None, None).

End Extractor.

(** ** A small world to run the module in

    A file system that is a list of paths and a list of file contents, a
    clock that ticks, and a converter that knows two documents: [ok.pdf]
    with two figures, and [rgba.pdf] whose second figure cannot be saved as
    JPEG; every other path fails to convert. *)

Module Demo.

Record demo_os : Type := mkOs {
  paths : list str;
  files : list (str * str);
  tick : nat
}.

Definition str_eqb (a b : str) : bool :=
  if list_eq_dec ascii_dec a b then true else false.

Definition nl : string := String newline EmptyString.

Definition markdown : str :=
  lit ("Intro" ++ nl ++ "![Overview](img1.png)" ++ nl ++ nl
       ++ "img2.png" ++ nl ++ "Figure 2: Result overview" ++ nl).

Definition demo_rmtree (p : str) (o : demo_os) : result unit * demo_os :=
  (Ok tt,
   mkOs (filter (fun q => negb (startswith p q)) (paths o))
        (filter (fun kv => negb (startswith p (fst kv))) (files o))
        (tick o)).

Definition demo_write (p content : str) (o : demo_os)
  : result unit * demo_os :=
  (Ok tt, mkOs (p :: paths o) ((p, content) :: files o) (tick o)).

Definition demo_read (p : str) (o : demo_os) : result str :=
  match lookup p (files o) with
  | Some content => Ok content
  | None => Raise (Exception (lit "No such file or directory"))
  end.

Definition demo_converter (pdf_path : str) (o : demo_os)
  : result nat * demo_os :=
  if str_eqb pdf_path (lit "ok.pdf") then (Ok 0, o)
  else if str_eqb pdf_path (lit "rgba.pdf") then (Ok 1, o)
  else (Raise (Exception (lit "Failed to load document")), o).

Definition demo_text_from_rendered (r : nat)
  : result (str * list (str * bool)) :=
  match r with
  | 0 => Ok (markdown, [(lit "img1.png", true); (lit "img2.png", true)])
  | _ => Ok (markdown, [(lit "img1.png", true); (lit "img2.png", false)])
  end.

Definition demo_image_save (image : bool) (p : str) (o : demo_os)
  : result unit * demo_os :=
  if image then (Ok tt, mkOs (p :: paths o) (files o) (tick o))
  else (Raise (Exception (lit "cannot write mode RGBA as JPEG")), o).

Definition demo_floatstr (f : bool) : str :=
  if f then lit "1.0" else lit "0.5".

Definition demo_scan_float (s : str) : option (bool * str) :=
  if startswith (lit "1.0") s then Some (true, skipn 3 s)
  else if startswith (lit "0.5") s then Some (false, skipn 3 s)
  else None.

#[export] Instance world : Externals := {|
  float := bool;
  datetime := nat;
  image := bool;
  converter := unit;
  rendered := nat;
  OS := demo_os;
  datetime_now := fun o => (tick o, o);
  strftime := fun _ => lit "20240101_120000";
  isoformat := fun _ => lit "2024-01-01T12:00:00";
  time_time :=
    fun o => (Nat.even (tick o), mkOs (paths o) (files o) (S (tick o)));
  float_sub := fun a b => xorb a b;
  floatstr := demo_floatstr;
  scan_float := demo_scan_float;
  os_makedirs :=
    fun p o => (Ok tt, mkOs (p :: paths o) (files o) (tick o));
  os_path_exists := fun p o => existsb (str_eqb p) (paths o);
  os_path_getsize :=
    fun p o =>
      match lookup p (files o) with
      | Some content => Ok (length content)
      | None => Raise (Exception (lit "No such file or directory"))
      end;
  shutil_rmtree := demo_rmtree;
  write_file := demo_write;
  read_file := demo_read;
  settings_getattr := fun _ o => (Ok (lit "s3://bucket/model"), o);
  settings_setattr := fun _ _ o => (Ok tt, o);
  create_converter := fun o => (Ok tt, o);
  run_converter := fun _ => demo_converter;
  text_from_rendered := demo_text_from_rendered;
  image_save := demo_image_save;
  print_exc := fun _ o => o
|}.

Definition w0 : World := mkWorld (mkOs [] [] 0) [] [].

(** The session of a document, as [__init__] makes it in this world. *)
Definition session (pdf : string) : LightweightExtractor :=
  mkExtractor (lit pdf) (lit "out") (lit "20240101_120000")
    (lit "output/images/20240101_120000").

(** The world the convenience function leaves after [ok.pdf], without
    cleanup. *)
Definition extracted : World :=
  snd (extract_lightweight_content (lit "ok.pdf") (lit "out") false w0).

(** The record of [ok.pdf], the world [extract_content] leaves, and the
    world after that record is saved with no destination. *)
Definition after_extract : World :=
  snd (extract_content (session "ok.pdf") w0).

Definition extracted_content : dict bool :=
  match fst (extract_content (session "ok.pdf") w0) with
  | Ok (Some content) => content
  | _ => []
  end.

Definition after_save : World :=
  snd (save_content (session "ok.pdf") extracted_content None after_extract).

End Demo.

(** ** A world that is a settings object

    The settings are a list of names and values that keeps what is set;
    a directory with an empty name cannot be made, and there is no
    converter. *)

Module DemoSettings.

Definition get (name : str) (o : list (str * str)) : str :=
  match lookup name o with
  | Some value => value
  | None => []
  end.

Definition unavailable {A} : result A :=
  Raise (Exception (lit "not available")).

Definition world : Externals := {|
  float := unit;
  datetime := unit;
  image := unit;
  converter := unit;
  rendered := unit;
  OS := list (str * str);
  datetime_now := fun o => (tt, o);
  strftime := fun _ => lit "20240101_120000";
  isoformat := fun _ => lit "2024-01-01T12:00:00";
  time_time := fun o => (tt, o);
  float_sub := fun _ _ => tt;
  floatstr := fun _ => lit "0.0";
  scan_float := fun _ => None;
  os_makedirs :=
    fun p o =>
      if truthy p then (Ok tt, o)
      else (Raise (Exception (lit "No such file or directory")), o);
  os_path_exists := fun _ _ => false;
  os_path_getsize := fun _ _ => unavailable;
  shutil_rmtree := fun _ o => (unavailable, o);
  write_file := fun _ _ o => (unavailable, o);
  read_file := fun _ _ => unavailable;
  settings_getattr := fun name o => (Ok (get name o), o);
  settings_setattr := fun name value o => (Ok tt, (name, value) :: o);
  create_converter := fun o => (unavailable, o);
  run_converter := fun _ _ o => (unavailable, o);
  text_from_rendered := fun _ => unavailable;
  image_save := fun _ _ o => (unavailable, o);
  print_exc := fun _ o => o
|}.

(** Settings with four checkpoints at [s3://] addresses and one on the
    local disk. *)
Definition shipped : list (str * str) :=
  [ (lit "LAYOUT_MODEL_CHECKPOINT", lit "s3://layout/2025_09_23");
    (lit "DETECTOR_MODEL_CHECKPOINT", lit "s3://text_detection/2025_05_07");
    (lit "OCR_ERROR_MODEL_CHECKPOINT",
     lit "s3://ocr_error_detection/2025_02_18");
    (lit "TABLE_REC_MODEL_CHECKPOINT", lit "/opt/models/table_recognition");
    (lit "RECOGNITION_MODEL_CHECKPOINT",
     lit "s3://text_recognition/2025_09_23");
    (lit "MODEL_CACHE_DIR", lit "/home/user/.cache/models");
    (lit "TORCH_DEVICE", lit "cpu") ].

Definition w0 : @World world := @mkWorld world shipped [] [].

End DemoSettings.

(** * The vocabulary of the properties *)

(** ** Captions *)

Fixpoint groupless (r : regex) : bool :=
  match r with
  | Seq r1 r2 | Alt r1 r2 => groupless r1 && groupless r2
  | Grp _ _ => false
  | _ => true
  end.

(** The characters a bracket text is made of: no closing bracket, no line
    break. *)
Definition caption_char (c : ascii) : bool := dot c && negb (eqc c "]").

Definition image_reference (cap p1 fn p2 : str) : str :=
  lit "![" ++ cap ++ lit "](" ++ p1 ++ fn ++ p2 ++ lit ")".

(** No line of the window [a <= j < b] gives a caption under [f]. *)
Definition window_none (f : str -> option str) (lines : list str)
    (a b : nat) : Prop :=
  forall j l, a <= j < b -> nth_error lines j = Some l -> f l = None.

(** Line [j] is the first line of the window [a <= j < b] that gives a
    caption under [f], and the caption is [c]. *)
Definition window_first (f : str -> option str) (lines : list str)
    (a b j : nat) (c : str) : Prop :=
  a <= j < b /\
  (exists l, nth_error lines j = Some l /\ f l = Some c) /\
  window_none f lines a j.

(** No rule gives a caption at line [i]. *)
Definition no_caption_at (lines : list str) (i : nat) : Prop :=
  window_none figure_caption lines (i + 1) (i + 6) /\
  window_none figure_caption lines (i - 3) i /\
  window_none prose_caption lines (i + 1) (i + 4).

(** The prose line as the specification words it: not empty, not an image
    reference, not a number, not a run of heading, list or emphasis
    marks, and longer than ten characters. *)
Definition descriptive (c : str) : bool :=
  truthy c
  && negb (startswith (lit "!") c)
  && negb (forallb is_digit c)
  && negb (forallb heading_punct c)
  && (10 <? length c).

(** The text after the number of a label: an optional colon or period,
    then the trailing text. *)
Definition label_rest (sep txt : str) : Prop :=
  forallb dot txt = true /\
  ((sep = [] /\
    match txt with
    | [] => True
    | c :: _ => is_digit c = false /\ colon_or_dot c = false
    end) \/
   (exists c, sep = [c] /\ colon_or_dot c = true)).

(** The label of a figure, in any case: [Figure], [Figur], [Fig.] or
    [Fig]. *)
Definition is_label (lbl : str) : Prop :=
  In (map lower lbl) [lit "figure"; lit "figur"; lit "fig."; lit "fig"].

(** What follows the label starts with white space or a digit. *)
Definition number_ahead (x : str) : Prop :=
  match x with
  | [] => False
  | h :: _ => is_space h || is_digit h = true
  end.

Definition nl : string := String newline EmptyString.

(** Two mentions of the file name: nothing near the first, a figure label
    under the second. *)
Definition two_mentions : str :=
  lit ("img2.png" ++ nl ++ nl ++ nl ++ nl ++ nl ++ nl
       ++ "img2.png" ++ nl ++ "fig.7. Late").

(** A mention of the file name followed by a number, a rule and a line
    of prose. *)
Definition mention_then_prose : str :=
  lit ("img2.png" ++ nl ++ "12345678901234" ++ nl ++ "-----------" ++ nl
       ++ " A plain descriptive line ").

(** A figure label above the mention of the file name, and none below. *)
Definition label_above : str :=
  lit ("Figure 4: Seen from above" ++ nl ++ "A line of prose in between"
       ++ nl ++ "img2.png" ++ nl ++ "A line of prose under it").

(** Two mentions of the file name: nothing near the first, a line of
    prose under the second. *)
Definition two_mentions_prose : str :=
  lit ("img2.png" ++ nl ++ nl ++ nl ++ nl ++ nl ++ nl ++ nl
       ++ "img2.png" ++ nl ++ "A plain descriptive line").

(** Rule 3 on one line, in the words of the specification: the line
    stripped, when it is descriptive. *)
Definition descriptive_line (l : str) : option str :=
  if descriptive (strip l) then Some (strip l) else None.

(** The rules at line [i] give the caption [c]: the first figure label of
    the five lines below; or, with none below, the first figure label of
    the three lines above, the farthest first; or, with none above
    either, the first descriptive line of the three lines below. *)
Definition caption_at (lines : list str) (i : nat) (c : str) : Prop :=
  (exists j, window_first figure_caption lines (i + 1) (i + 6) j c) \/
  (window_none figure_caption lines (i + 1) (i + 6) /\
   exists j, window_first figure_caption lines (i - 3) i j c) \/
  (window_none figure_caption lines (i + 1) (i + 6) /\
   window_none figure_caption lines (i - 3) i /\
   exists j, window_first descriptive_line lines (i + 1) (i + 4) j c).

(** The rules at line [i] give nothing. *)
Definition nothing_at (lines : list str) (i : nat) : Prop :=
  window_none figure_caption lines (i + 1) (i + 6) /\
  window_none figure_caption lines (i - 3) i /\
  window_none descriptive_line lines (i + 1) (i + 4).

(** [t] occurs in [s]. *)
Definition substring (t s : str) : Prop := exists a b, s = a ++ t ++ b.

(** ** Runs, traces and records *)

(** The number a string of digits reads as, and the decimal numeral of
    [n]: not empty, digits only, no zero in front of another digit, and
    reading as [n]. The numeral of 12 is [12] and no other string
    ([decimal_numeral_unique] below). *)
Definition digit_value (c : ascii) : nat := code c - 48.

Definition numeral_value (s : str) : nat :=
  fold_left (fun acc c => 10 * acc + digit_value c) s 0.

Definition decimal_numeral (n : nat) (s : str) : Prop :=
  s <> [] /\
  forallb is_digit s = true /\
  (forall r, s = "0"%char :: r -> r = []) /\
  numeral_value s = n.

Section SessionVocabulary.

Context {E : Externals}.

Definition succeeded (cb : call * bool) : Prop := snd cb = true.

(** [performs P m]: a run of [m] makes calls of kind [P] only, adds them
    to the trace, returns when all of them returned and raises when one of
    them raised. *)
Definition performs {A} (P : call -> Prop) (m : M A) : Prop :=
  forall w r w', m w = (r, w') ->
    exists cs,
      calls w' = calls w ++ cs /\
      Forall (fun cb => P (fst cb)) cs /\
      match r with
      | Ok _ => Forall succeeded cs
      | Raise _ => exists c, In (c, false) cs
      end.

(** What the converter supplies in a run that starts in [o]: the text and
    the images of [text_from_rendered], or the exception of the step that
    failed. *)
Definition conversion (self : LightweightExtractor) (o : OS)
  : result (str * list (str * image)) :=
  match create_converter o with
  | (Ok conv, o1) =>
      match run_converter conv (pdf_path self) (snd (time_time o1)) with
      | (Ok rend, _) => text_from_rendered rend
      | (Raise e, _) => Raise e
      end
  | (Raise e, _) => Raise e
  end.

(** The record of the image with index [i] and file name [filename]. *)
Definition image_record (self : LightweightExtractor) (markdown_text : str)
    (item : nat * (str * image)) : pyval float :=
  let filename := fst (snd item) in
  PDict [ (lit "id", PStr (lit "fig" ++ str_of_nat (fst item + 1)));
          (lit "filename", PStr filename);
          (lit "path", PStr (Path.join (img_dir self) [filename]));
          (lit "caption",
           PStr (fst (_extract_image_caption (float := float)
                        markdown_text filename))) ].

Definition save_call (self : LightweightExtractor) (item : str * image)
  : call * bool :=
  (CallImageSave (Path.join (img_dir self) [fst item]), true).

Definition extraction_call (c : call) : Prop :=
  match c with
  | CallCreateConverter | CallConverter _ | CallTextFromRendered
  | CallImageSave _ => True
  | _ => False
  end.

Definition writes_or_removes (c : call) : Prop :=
  match c with
  | CallWrite _ | CallRmtree _ => True
  | _ => False
  end.

Definition record_keys : list str :=
  [ lit "full_text"; lit "images"; lit "pdf_path"; lit "extraction_time";
    lit "conversion_time_seconds"; lit "session_id" ].

(** The shape of an image record: a dict of four strings under the keys
    [id], [filename], [path], [caption]. *)
Definition is_image_record (r : pyval float) : Prop :=
  exists id filename path caption,
    r = PDict [ (lit "id", PStr id); (lit "filename", PStr filename);
                (lit "path", PStr path); (lit "caption", PStr caption) ].

End SessionVocabulary.

Section RunVocabulary.

Context {E : Externals}.

(** [halts_at_failure P m]: a run of [m] makes calls of kind [P] only; it
    returns when all of them returned, and when it raises, the call that
    raised is the last it made. *)
Definition halts_at_failure {A} (P : call -> Prop) (m : M A) : Prop :=
  forall w r w', m w = (r, w') ->
    exists cs,
      calls w' = calls w ++ cs /\
      Forall (fun cb => P (fst cb)) cs /\
      match r with
      | Ok _ => Forall succeeded cs
      | Raise _ =>
          exists cs' c, cs = cs' ++ [(c, false)] /\ Forall succeeded cs'
      end.

(** The calls of the construction of a session and of the saving of a
    record. *)
Definition setup_call (c : call) : Prop :=
  match c with
  | CallMakedirs _ | CallGetattr _ | CallSetattr _ _ => True
  | _ => False
  end.

Definition save_content_call (c : call) : Prop :=
  match c with
  | CallWrite _ | CallGetsize _ => True
  | _ => False
  end.

Definition removal (c : call) : Prop :=
  match c with
  | CallRmtree _ => True
  | _ => False
  end.

End RunVocabulary.

(** ** Settings *)

(** The value of a checkpoint after [_setup_marker_models]: an address
    with [s3://] in it is rewritten and put under [models]. *)
Definition moved_under_models (value : str) : str :=
  if contains (lit "s3://") value
  then lit "models" ++ replace (lit "s3://") (lit "/") value
  else value.

(** An address [s3://<rest>] with no further [s3://] in it. *)
Definition s3_address (value rest : str) : Prop :=
  value = lit "s3://" ++ rest /\ contains (lit "s3://") rest = false.

(** ** Documents *)

Module JsonDoc.

Import Json.

(** No dict of the value has a key twice. *)
#[warnings="-register-all"]
Inductive distinct_keys (float : Type) : pyval float -> Prop :=
| dk_none : distinct_keys PNone
| dk_bool b : distinct_keys (PBool b)
| dk_str s : distinct_keys (PStr s)
| dk_float f : distinct_keys (PFloat f)
| dk_list l : Forall (@distinct_keys float) l -> distinct_keys (PList l)
| dk_dict d :
    NoDup (map fst d) ->
    Forall (fun kv => distinct_keys (snd kv)) d ->
    distinct_keys (PDict d).

(** The fuel the decoder needs for a value. *)
Fixpoint weight (float : Type) (v : pyval float) : nat :=
  match v with
  | PList l =>
      S ((fix items (l : list (pyval float)) : nat :=
            match l with
            | [] => 0
            | x :: l' => S (weight x) + items l'
            end) l)
  | PDict d =>
      S ((fix items (d : list (str * pyval float)) : nat :=
            match d with
            | [] => 0
            | (_, x) :: d' => S (weight x) + items d'
            end) d)
  | _ => 1
  end.

Definition list_weight {float : Type} (l : list (pyval float)) : nat :=
  (fix items (l : list (pyval float)) : nat :=
     match l with
     | [] => 0
     | x :: l' => S (weight x) + items l'
     end) l.

Definition dict_weight {float : Type} (d : list (str * pyval float)) : nat :=
  (fix items (d : list (str * pyval float)) : nat :=
     match d with
     | [] => 0
     | (_, x) :: d' => S (weight x) + items d'
     end) d.

(** The first character of a number or of one of the names [NaN],
    [Infinity], [-Infinity]. *)
Definition float_head (c : ascii) : bool :=
  is_digit c || eqc c "-" || eqc c "N" || eqc c "I".

(** What is after a value in a document: nothing, a comma or a line
    break. *)
Definition value_end (rest : str) : Prop :=
  match rest with
  | [] => True
  | c :: _ => c = ","%char \/ c = newline
  end.

(** The first character of a value in a document. *)
Definition value_head (c : ascii) : bool :=
  (code c =? 34) || eqc c "{" || eqc c "[" || eqc c "n" || eqc c "t"
  || eqc c "f" || float_head c.

Section Written.

Variable float : Type.
Variable floatstr : float -> str.
Variable scan_float : str -> option (float * str).

(** The items of a list after the first, and of a dict after the first,
    as [dumps_at] writes them. *)
Definition list_tail (level : nat) (l : list (pyval float)) : str :=
  (fix items (l : list (pyval float)) : str :=
     match l with
     | [] => []
     | y :: l' =>
         lit "," ++ newline_indent (S level)
         ++ dumps_at floatstr (S level) y ++ items l'
     end) l.

Definition dict_tail (level : nat) (d : list (str * pyval float)) : str :=
  (fix items (d : list (str * pyval float)) : str :=
     match d with
     | [] => []
     | (k', y) :: d' =>
         lit "," ++ newline_indent (S level) ++ encode_string k'
         ++ lit ": " ++ dumps_at floatstr (S level) y ++ items d'
     end) d.

(** The decoder reads back what the encoder wrote for [v]. *)
Definition reads_back (v : pyval float) : Prop :=
  forall level rest fuel,
    distinct_keys v -> weight v <= fuel -> value_end rest ->
    scan_once scan_float fuel (dumps_at floatstr level v ++ rest)
    = Some (v, rest).

End Written.

End JsonDoc.

(** * Properties *)

Arguments eqc : simpl never.
Arguments is_space : simpl never.
Arguments is_digit : simpl never.
Arguments lower : simpl never.
Arguments dot : simpl never.
Arguments Path.join : simpl never.
Arguments lit : simpl never.

(** ** Strings *)

Lemma eqc_true (a b : ascii) : eqc a b = true <-> a = b.
Proof. unfold eqc. apply Ascii.eqb_eq. Qed.

Lemma eqc_refl (a : ascii) : eqc a a = true.
Proof. apply eqc_true. reflexivity. Qed.

Lemma eqc_false (a b : ascii) : eqc a b = false <-> a <> b.
Proof. unfold eqc. apply Ascii.eqb_neq. Qed.

Lemma eqc_sym (a b : ascii) : eqc a b = eqc b a.
Proof. unfold eqc. apply Ascii.eqb_sym. Qed.

Lemma startswith_app (p s : str) : startswith p (p ++ s) = true.
Proof.
  induction p as [|a p IH]; simpl; [reflexivity|].
  now rewrite eqc_refl, IH.
Qed.

Lemma startswith_inv (p s : str) :
  startswith p s = true -> exists r, s = p ++ r.
Proof.
  revert s. induction p as [|a p IH]; intros s H.
  - now exists s.
  - destruct s as [|b s]; simpl in H; [discriminate|].
    apply andb_true_iff in H as [Hab Hp].
    apply eqc_true in Hab. subst b.
    destruct (IH _ Hp) as [r ->]. now exists r.
Qed.

Lemma contains_app (sub a b : str) : contains sub (a ++ sub ++ b) = true.
Proof.
  induction a as [|c a IH]; simpl.
  - destruct (sub ++ b) eqn:E; simpl.
    + destruct sub; [reflexivity|discriminate].
    + rewrite <- E, startswith_app. reflexivity.
  - rewrite IH. apply orb_true_r.
Qed.

Lemma contains_inv (sub s : str) :
  contains sub s = true -> exists a b, s = a ++ sub ++ b.
Proof.
  induction s as [|c s IH]; simpl; intros H.
  - rewrite orb_false_r in H. apply startswith_inv in H as [r Hr].
    exists [], r. exact Hr.
  - apply orb_true_iff in H as [H|H].
    + apply startswith_inv in H as [r Hr]. exists [], r. exact Hr.
    + destruct (IH H) as (a & b & ->). now exists (c :: a), b.
Qed.

Lemma contains_false_app (sub a b : str) :
  contains sub (a ++ b) = false ->
  contains sub a = false /\ contains sub b = false.
Proof.
  intros H. split.
  - destruct (contains sub a) eqn:E; [|reflexivity].
    apply contains_inv in E as (x & y & ->).
    rewrite <- !app_assoc in H. now rewrite contains_app in H.
  - destruct (contains sub b) eqn:E; [|reflexivity].
    apply contains_inv in E as (x & y & ->).
    rewrite app_assoc in H. now rewrite contains_app in H.
Qed.

(** ** The matcher *)

Section MatcherFacts.

Variable R : Type.

Lemma star_greedy_sound (p : ascii -> bool) (k : str -> option R) :
  forall s x, star_greedy p s k = Some x ->
    exists a b, s = a ++ b /\ forallb p a = true /\ k b = Some x.
Proof.
  induction s as [|c s IH]; simpl; intros x H.
  - now exists [], [].
  - destruct (p c) eqn:Hc.
    + destruct (star_greedy p s k) eqn:Hs.
      * injection H as <-. destruct (IH _ eq_refl) as (a & b & -> & Ha & Hk).
        exists (c :: a), b. simpl. now rewrite Hc, Ha.
      * now exists [], (c :: s).
    + now exists [], (c :: s).
Qed.

Lemma star_greedy_complete (p : ascii -> bool) (k : str -> option R) :
  forall a b, forallb p a = true -> k b <> None ->
    star_greedy p (a ++ b) k <> None.
Proof.
  induction a as [|c a IH]; simpl; intros b Ha Hk.
  - destruct b as [|d b]; simpl; [exact Hk|].
    destruct (p d); [|exact Hk].
    destruct (star_greedy p b k); [discriminate|exact Hk].
  - apply andb_true_iff in Ha as [Hc Ha]. rewrite Hc.
    specialize (IH b Ha Hk).
    destruct (star_greedy p (a ++ b) k); [discriminate|contradiction].
Qed.

(** A greedy star whose class fails on the next character takes the
    whole run. *)
Lemma star_greedy_all (p : ascii -> bool) (k : str -> option R) :
  forall a b, forallb p a = true ->
    match b with [] => True | c :: _ => p c = false end ->
    k b <> None ->
    star_greedy p (a ++ b) k = k b.
Proof.
  induction a as [|c a IH]; simpl; intros b Ha Hb Hk.
  - destruct b as [|d b]; simpl; [reflexivity|]. now rewrite Hb.
  - apply andb_true_iff in Ha as [Hc Ha]. rewrite Hc, (IH b Ha Hb Hk).
    destruct (k b); [reflexivity|contradiction].
Qed.

Lemma star_lazy_first (p : ascii -> bool) (k : str -> option R) :
  forall a b x, forallb p a = true ->
    (forall a1 a2, a = a1 ++ a2 -> a2 <> [] -> k (a2 ++ b) = None) ->
    k b = Some x ->
    star_lazy p (a ++ b) k = Some x.
Proof.
  induction a as [|c a IH]; simpl; intros b x Ha Hfail Hk.
  - destruct b; simpl; now rewrite Hk.
  - apply andb_true_iff in Ha as [Hc Ha].
    assert (H0 : k (c :: a ++ b) = None)
      by (apply (Hfail [] (c :: a) eq_refl); discriminate).
    rewrite H0, Hc. apply IH; auto.
    intros a1 a2 -> Hne. apply (Hfail (c :: a1) a2); auto.
Qed.

Lemma star_lazy_sound (p : ascii -> bool) (k : str -> option R) :
  forall s x, star_lazy p s k = Some x ->
    exists a b, s = a ++ b /\ forallb p a = true /\ k b = Some x.
Proof.
  induction s as [|c s IH]; simpl; intros x H.
  - destruct (k []) eqn:Hk; [|discriminate].
    injection H as <-. now exists [], [].
  - destruct (k (c :: s)) eqn:Hk.
    + injection H as <-. now exists [], (c :: s).
    + destruct (p c) eqn:Hc; [|discriminate].
      destruct (IH _ H) as (a & b & -> & Ha & Hb).
      exists (c :: a), b. simpl. now rewrite Hc, Ha.
Qed.

Lemma chr_eq_refl (icase : bool) (c : ascii) : chr_eq icase c c = true.
Proof. unfold chr_eq. destruct icase; apply eqc_refl. Qed.

Lemma rmatch_escape (icase : bool) (n : nat) (k : str -> captures -> option R) :
  forall t s g, rmatch icase n (escape t) (t ++ s) g k = k s g.
Proof.
  induction t as [|c t IH]; simpl; intros s g; [reflexivity|].
  now rewrite chr_eq_refl, IH.
Qed.

(** A literal matched without [re.IGNORECASE] consumes itself. *)
Lemma rmatch_escape_sound (n : nat) (k : str -> captures -> option R) :
  forall t s g x, rmatch false n (escape t) s g k = Some x ->
    exists s', s = t ++ s' /\ k s' g = Some x.
Proof.
  induction t as [|c t IH]; simpl; intros s g x H.
  - now exists s.
  - destruct s as [|d s]; simpl in H; [discriminate|].
    destruct (eqc c d) eqn:Hcd; [|discriminate].
    apply eqc_true in Hcd. subst d.
    destruct (IH _ _ _ H) as (s' & -> & Hk). now exists s'.
Qed.

End MatcherFacts.

Lemma groupless_escape (t : str) : groupless (escape t) = true.
Proof. induction t; simpl; auto. Qed.

(** A pattern without groups hands the groups it was given to its
    continuation. *)
Lemma rmatch_groupless (R : Type) (icase : bool) (n : nat) :
  forall r, groupless r = true ->
    forall s g (k : str -> captures -> option R) x,
      rmatch icase n r s g k = Some x -> exists s', k s' g = Some x.
Proof.
  induction r; simpl; intros Hg s g k x H; try discriminate.
  - now exists s.
  - destruct s as [|d s]; simpl in H; [discriminate|].
    destruct (chr_eq icase c d); [now exists s|discriminate].
  - destruct s as [|d s]; simpl in H; [discriminate|].
    destruct (p d); [now exists s|discriminate].
  - apply andb_true_iff in Hg as [H1 H2].
    destruct (IHr1 H1 _ _ _ _ H) as (s1 & Hs1).
    exact (IHr2 H2 _ _ _ _ Hs1).
  - apply andb_true_iff in Hg as [H1 H2].
    destruct (rmatch icase n r1 s g k) eqn:E.
    + injection H as <-. exact (IHr1 H1 _ _ _ _ E).
    + exact (IHr2 H2 _ _ _ _ H).
  - apply star_greedy_sound in H as (a & b & _ & _ & Hk). now exists b.
  - apply star_lazy_sound in H as (a & b & _ & _ & Hk). now exists b.
  - destruct (length s =? n); [now exists s|discriminate].
  - destruct s as [|c [|d s]]; [now exists []| |discriminate].
    destruct (eqc c newline); [now exists [c]|discriminate].
Qed.

(** The search passes over the start positions at which the pattern does
    not match. *)
Lemma search_from_skip (icase : bool) (n : nat) (r : regex) :
  forall pre s,
    (forall p1 p2, pre = p1 ++ p2 -> p2 <> [] ->
       rmatch icase n r (p2 ++ s) [] accept = None) ->
    search_from icase n r (pre ++ s) = search_from icase n r s.
Proof.
  induction pre as [|c pre IH]; intros s H; [reflexivity|].
  assert (H0 : rmatch icase n r (c :: pre ++ s) [] accept = None)
    by (apply (H [] (c :: pre) eq_refl); discriminate).
  simpl. rewrite H0.
  apply IH. intros p1 p2 -> Hne. apply (H (c :: p1) p2); auto.
Qed.

Lemma search_from_here (icase : bool) (n : nat) (r : regex) (s : str)
    (m : match_obj) :
  rmatch icase n r s [] accept = Some m ->
  search_from icase n r s = Some (s, m).
Proof. intros H. destruct s; simpl; now rewrite H. Qed.

Lemma re_findall_first (icase : bool) (r : regex) (s s0 : str)
    (m : match_obj) :
  search_from icase (length s) r s = Some (s0, m) ->
  exists rest, re_findall icase r s = group_text 1 m :: rest.
Proof.
  intros H. unfold re_findall.
  replace (2 * length s + 2) with (S (2 * length s + 1)) by lia.
  simpl findall_from. unfold search_advancing.
  assert (Hacc : accept_advancing false s = accept) by reflexivity.
  rewrite Hacc.
  destruct s as [|c s'].
  - simpl in H. destruct (rmatch icase 0 r [] [] accept) eqn:E;
      [|discriminate].
    injection H as <- <-. simpl length. rewrite E. eauto.
  - simpl in H. simpl length.
    destruct (rmatch icase (S (length s')) r (c :: s') [] accept) eqn:E.
    + injection H as <- <-. eauto.
    + rewrite H. eauto.
Qed.

Lemma re_findall_none (icase : bool) (r : regex) (s : str) :
  search_from icase (length s) r s = None -> re_findall icase r s = [].
Proof.
  intros H. unfold re_findall.
  replace (2 * length s + 2) with (S (2 * length s + 1)) by lia.
  simpl findall_from. unfold search_advancing.
  assert (Hacc : accept_advancing false s = accept) by reflexivity.
  rewrite Hacc.
  destruct s as [|c s']; simpl in H |- *.
  - destruct (rmatch icase 0 r [] [] accept); [discriminate|reflexivity].
  - destruct (rmatch icase (S (length s')) r (c :: s') [] accept);
      [discriminate|]. now rewrite H.
Qed.

(** ** Rule 1: the direct image reference *)

Lemma reference_tail_match (n : nat) (p1 fn p2 post : str) (g : captures) :
  forallb not_rparen p1 = true ->
  forallb not_rparen p2 = true ->
  exists rest,
    rmatch false n
      (Chr "]" ;;; Chr "(" ;;; Star not_rparen ;;; escape fn ;;;
       Star not_rparen ;;; Chr ")")
      (lit "](" ++ p1 ++ fn ++ p2 ++ lit ")" ++ post) g accept
    = Some (g, rest).
Proof.
  intros H1 H2.
  match goal with |- exists rest, ?t = _ => destruct t as [m|] eqn:E end.
  - apply rmatch_groupless in E as (s' & Hs');
      [|simpl; now rewrite groupless_escape].
    injection Hs' as <-. now exists s'.
  - exfalso. simpl in E. revert E.
    apply star_greedy_complete; [exact H1|].
    rewrite rmatch_escape. simpl.
    apply star_greedy_complete; [exact H2|].
    simpl. discriminate.
Qed.

Lemma firstn_app_exact {A} (a b : list A) :
  firstn (length (a ++ b) - length b) (a ++ b) = a.
Proof.
  rewrite length_app.
  replace (length a + length b - length b) with (length a) by lia.
  rewrite firstn_app, Nat.sub_diag, firstn_all. simpl. apply app_nil_r.
Qed.

Lemma reference_match (n : nat) (cap p1 fn p2 post : str) :
  forallb caption_char cap = true ->
  forallb not_rparen p1 = true ->
  forallb not_rparen p2 = true ->
  exists rest,
    rmatch false n (reference_pattern fn)
      (image_reference cap p1 fn p2 ++ post) [] accept
    = Some ([(1, cap)], rest).
Proof.
  intros Hcap H1 H2.
  destruct (reference_tail_match n p1 fn p2 post [(1, cap)] H1 H2)
    as (rest & Htail).
  exists rest. unfold image_reference, reference_pattern.
  rewrite <- !app_assoc. simpl.
  set (Y := "]"%char :: "("%char :: p1 ++ fn ++ p2 ++ ")"%char :: post).
  apply star_lazy_first.
  - rewrite forallb_forall in Hcap |- *. intros c Hc.
    specialize (Hcap c Hc). unfold caption_char in Hcap.
    now apply andb_true_iff in Hcap.
  - intros a1 [|d a2] -> Hne; [contradiction|]. simpl.
    rewrite forallb_app in Hcap. apply andb_true_iff in Hcap as [_ Hcap].
    simpl in Hcap. apply andb_true_iff in Hcap as [Hd _].
    unfold caption_char in Hd. apply andb_true_iff in Hd as [_ Hd].
    rewrite negb_true_iff, eqc_sym in Hd. now rewrite Hd.
  - rewrite firstn_app_exact. unfold Y. simpl in Htail.
    simpl. exact Htail.
Qed.

Lemma reference_no_match_before (n : nat) (fn pre p1 p2 X : str) :
  contains (lit "![") pre = false ->
  pre = p1 ++ p2 -> p2 <> [] ->
  rmatch false n (reference_pattern fn) (p2 ++ lit "![" ++ X) [] accept = None.
Proof.
  intros Hpre -> Hne.
  apply contains_false_app in Hpre as [_ Hpre].
  destruct p2 as [|c p2]; [contradiction|].
  unfold reference_pattern. simpl.
  destruct (eqc "!" c) eqn:Hc; [|reflexivity].
  apply eqc_true in Hc. subst c.
  destruct p2 as [|d p2]; simpl; [reflexivity|].
  simpl in Hpre. apply orb_false_iff in Hpre as [Hpre _].
  destruct (eqc "[" d); [discriminate|reflexivity].
Qed.

Lemma direct_caption_reference (pre cap p1 fn p2 post : str) :
  contains (lit "![") pre = false ->
  forallb caption_char cap = true ->
  forallb not_rparen p1 = true ->
  forallb not_rparen p2 = true ->
  direct_caption (pre ++ image_reference cap p1 fn p2 ++ post) fn
  = if truthy (strip cap) then Some (strip cap) else None.
Proof.
  intros Hpre Hcap H1 H2. unfold direct_caption.
  set (text := pre ++ image_reference cap p1 fn p2 ++ post).
  destruct (reference_match (length text) cap p1 fn p2 post Hcap H1 H2)
    as (rest & Hm).
  assert (Hs : search_from false (length text) (reference_pattern fn) text
               = Some (image_reference cap p1 fn p2 ++ post,
                       ([(1, cap)], rest))).
  { unfold text. rewrite search_from_skip.
    - now apply search_from_here.
    - intros q1 q2 Hq Hne. unfold image_reference.
      rewrite <- !app_assoc.
      eapply reference_no_match_before; eauto. }
  destruct (re_findall_first _ _ _ Hs) as (more & ->).
  reflexivity.
Qed.

(** ** The loops over the lines *)

Lemma index_nth_error {A} (l : list A) (j : nat) (a : A) :
  nth_error l j = Some a -> index l j = Ok a.
Proof. unfold index. now intros ->. Qed.

Lemma for_first_seq_first {B} (body : nat -> result (option B)) :
  forall n a j c,
    a <= j < a + n ->
    body j = Ok (Some c) ->
    (forall j', a <= j' < j -> body j' = Ok None) ->
    for_first body (seq a n) = Ok (Some c).
Proof.
  induction n as [|n IH]; intros a j c Hj Hc Hbefore; [lia|].
  simpl. destruct (Nat.eq_dec a j) as [->|Hne].
  - now rewrite Hc.
  - rewrite (Hbefore a) by lia.
    apply (IH (S a) j c); [lia|exact Hc|].
    intros j' Hj'. apply Hbefore. lia.
Qed.

Lemma for_first_seq_none {B} (body : nat -> result (option B)) :
  forall n a,
    (forall j, a <= j < a + n -> body j = Ok None) ->
    for_first body (seq a n) = Ok None.
Proof.
  induction n as [|n IH]; intros a H; [reflexivity|].
  simpl. rewrite (H a) by lia. apply IH. intros j Hj. apply H. lia.
Qed.

Lemma for_first_enumerate_first {A B} (body : nat * A -> result (option B)) :
  forall l k i x c,
    nth_error l i = Some x ->
    body (k + i, x) = Ok (Some c) ->
    (forall i' x', i' < i -> nth_error l i' = Some x' ->
       body (k + i', x') = Ok None) ->
    for_first body (enumerate_from k l) = Ok (Some c).
Proof.
  induction l as [|y l IH]; intros k i x c Hx Hc Hbefore.
  - destruct i; discriminate.
  - simpl. destruct i as [|i].
    + injection Hx as ->. rewrite Nat.add_0_r in Hc. now rewrite Hc.
    + pose proof (Hbefore 0 y ltac:(lia) eq_refl) as H0.
      rewrite Nat.add_0_r in H0. rewrite H0.
      apply (IH (S k) i x c Hx).
      * now replace (S k + i) with (k + S i) by lia.
      * intros i' x' Hi' Hx'.
        replace (S k + i') with (k + S i') by lia.
        apply Hbefore; [lia|exact Hx'].
Qed.

Lemma for_first_enumerate_none {A B} (body : nat * A -> result (option B)) :
  forall l k,
    (forall i x, nth_error l i = Some x -> body (k + i, x) = Ok None) ->
    for_first body (enumerate_from k l) = Ok None.
Proof.
  induction l as [|y l IH]; intros k H; [reflexivity|].
  simpl. pose proof (H 0 y eq_refl) as H0.
  rewrite Nat.add_0_r in H0. rewrite H0.
  apply IH. intros i x Hx.
  replace (S k + i) with (k + S i) by lia. now apply H.
Qed.

Lemma scan_first (f : str -> option str) (lines : list str) :
  forall a b j c,
    window_first f lines a (a + b) j c ->
    a + b <= length lines ->
    scan f lines (seq a b) = Ok (Some c).
Proof.
  intros a b j c (Hj & (l & Hl & Hf) & Hnone) Hlen. unfold scan.
  apply for_first_seq_first with (j := j); [exact Hj| |].
  - rewrite (index_nth_error _ _ Hl). simpl. now rewrite Hf.
  - intros j' Hj'.
    destruct (nth_error lines j') as [l'|] eqn:E.
    + rewrite (index_nth_error _ _ E). simpl.
      now rewrite (Hnone j' l' Hj' E).
    + apply nth_error_None in E. lia.
Qed.

Lemma scan_none (f : str -> option str) (lines : list str) :
  forall a b,
    window_none f lines a (a + b) ->
    a + b <= length lines ->
    scan f lines (seq a b) = Ok None.
Proof.
  intros a b Hnone Hlen. unfold scan.
  apply for_first_seq_none. intros j Hj.
  destruct (nth_error lines j) as [l|] eqn:E.
  - rewrite (index_nth_error _ _ E). simpl. now rewrite (Hnone j l Hj E).
  - apply nth_error_None in E. lia.
Qed.

(** Every index a window of the source reaches is in range: the scan of a
    window never raises. *)
Lemma scan_in_range (f : str -> option str) (lines : list str) :
  forall b a, a + b <= length lines ->
    exists r, scan f lines (seq a b) = Ok r.
Proof.
  unfold scan. induction b as [|b IH]; intros a Hlen; simpl; [eauto|].
  destruct (nth_error lines a) as [l|] eqn:E.
  - rewrite (index_nth_error _ _ E). simpl.
    destruct (f l); [eauto|]. apply IH. lia.
  - apply nth_error_None in E. lia.
Qed.

Lemma window_none_weaken (f : str -> option str) (lines : list str)
    (a b b' : nat) :
  window_none f lines a b -> b' <= b -> window_none f lines a b'.
Proof. intros H Hb j l Hj. apply H. lia. Qed.

(** The three windows of [line_rules], as ranges. *)
Lemma below_range (n i w : nat) :
  i < n ->
  range (i + 1) (min n (i + w)) = seq (i + 1) (min n (i + w) - (i + 1)) /\
  (i + 1) + (min n (i + w) - (i + 1)) <= n.
Proof. intros H. split; [reflexivity|lia]. Qed.

Lemma above_range (n i : nat) :
  i < n ->
  range (i - 3) i = seq (i - 3) (i - (i - 3)) /\
  (i - 3) + (i - (i - 3)) <= n.
Proof. intros H. split; [reflexivity|lia]. Qed.

Lemma line_rules_in_range (lines : list str) (i : nat) :
  i < length lines -> exists r, line_rules lines i = Ok r.
Proof.
  intros Hi. unfold line_rules.
  destruct (below_range 6 Hi) as [-> H1].
  destruct (scan_in_range figure_caption lines _ _ H1) as (r1 & ->). simpl.
  destruct r1; [eauto|].
  destruct (above_range Hi) as [-> H2].
  destruct (scan_in_range figure_caption lines _ _ H2) as (r2 & ->). simpl.
  destruct r2; [eauto|].
  destruct (below_range 4 Hi) as [-> H3].
  exact (scan_in_range prose_caption lines _ _ H3).
Qed.

(** Restricting a window to the lines that exist. *)
Lemma window_first_clip (f : str -> option str) (lines : list str)
    (a b j : nat) (c : str) :
  window_first f lines a b j c ->
  window_first f lines a (a + (min (length lines) b - a)) j c.
Proof.
  intros (Hj & (l & Hl & Hf) & Hnone). split; [|split]; eauto.
  assert (j < length lines) by (apply nth_error_Some; congruence). lia.
Qed.

Lemma window_none_clip (f : str -> option str) (lines : list str)
    (a b : nat) :
  window_none f lines a b ->
  window_none f lines a (a + (min (length lines) b - a)).
Proof. intros H j l Hj. apply H. lia. Qed.

Lemma line_rules_below (lines : list str) (i j : nat) (c : str) :
  i < length lines ->
  window_first figure_caption lines (i + 1) (i + 6) j c ->
  line_rules lines i = Ok (Some c).
Proof.
  intros Hi H. unfold line_rules.
  destruct (below_range 6 Hi) as [-> H1].
  apply window_first_clip in H.
  now rewrite (@scan_first _ _ _ _ _ _ H H1).
Qed.

Lemma line_rules_above (lines : list str) (i j : nat) (c : str) :
  i < length lines ->
  window_none figure_caption lines (i + 1) (i + 6) ->
  window_first figure_caption lines (i - 3) i j c ->
  line_rules lines i = Ok (Some c).
Proof.
  intros Hi Hb H. unfold line_rules.
  destruct (below_range 6 Hi) as [-> H1].
  apply window_none_clip in Hb. rewrite (@scan_none _ _ _ _ Hb H1). simpl.
  destruct (above_range Hi) as [-> H2].
  destruct H as (Hj & Hl & Hnone).
  assert (H' : window_first figure_caption lines (i - 3)
                 (i - 3 + (i - (i - 3))) j c).
  { split; [lia|]. split; [exact Hl|exact Hnone]. }
  now rewrite (@scan_first _ _ _ _ _ _ H' H2).
Qed.

Lemma line_rules_prose (lines : list str) (i j : nat) (c : str) :
  i < length lines ->
  window_none figure_caption lines (i + 1) (i + 6) ->
  window_none figure_caption lines (i - 3) i ->
  window_first prose_caption lines (i + 1) (i + 4) j c ->
  line_rules lines i = Ok (Some c).
Proof.
  intros Hi Hb Ha H. unfold line_rules.
  destruct (below_range 6 Hi) as [-> H1].
  apply window_none_clip in Hb. rewrite (@scan_none _ _ _ _ Hb H1). simpl.
  destruct (above_range Hi) as [-> H2].
  assert (Ha' : window_none figure_caption lines (i - 3)
                  (i - 3 + (i - (i - 3)))).
  { intros j' l' Hj'. apply Ha. lia. }
  rewrite (@scan_none _ _ _ _ Ha' H2). simpl.
  destruct (below_range 4 Hi) as [-> H3].
  apply window_first_clip in H.
  exact (@scan_first _ _ _ _ _ _ H H3).
Qed.

Lemma line_rules_none (lines : list str) (i : nat) :
  i < length lines ->
  no_caption_at lines i ->
  line_rules lines i = Ok None.
Proof.
  intros Hi (Hb & Ha & Hp). unfold line_rules.
  destruct (below_range 6 Hi) as [-> H1].
  apply window_none_clip in Hb. rewrite (@scan_none _ _ _ _ Hb H1). simpl.
  destruct (above_range Hi) as [-> H2].
  assert (Ha' : window_none figure_caption lines (i - 3)
                  (i - 3 + (i - (i - 3)))).
  { intros j' l' Hj'. apply Ha. lia. }
  rewrite (@scan_none _ _ _ _ Ha' H2). simpl.
  destruct (below_range 4 Hi) as [-> H3].
  apply window_none_clip in Hp.
  exact (@scan_none _ _ _ _ Hp H3).
Qed.

(** The loop over the lines returns what the rules give at the first line
    with the file name at which they give something. *)
Lemma caption_body_lines (text fn : str) (i : nat) (line c : str) :
  direct_caption text fn = None ->
  nth_error (split newline text) i = Some line ->
  contains fn line = true ->
  (forall i' l', i' < i -> nth_error (split newline text) i' = Some l' ->
     contains fn l' = true -> line_rules (split newline text) i' = Ok None) ->
  line_rules (split newline text) i = Ok (Some c) ->
  caption_body text fn = Ok c.
Proof.
  intros Hd Hl Hin Hbefore Hc. unfold caption_body. rewrite Hd.
  unfold enumerate.
  erewrite for_first_enumerate_first with (i := i) (x := line) (c := c);
    [reflexivity|exact Hl| |].
  - simpl. now rewrite Hin.
  - intros i' x' Hi' Hx'. simpl.
    destruct (contains fn x') eqn:E; [|reflexivity].
    now apply (Hbefore i' x').
Qed.

Lemma caption_body_none (text fn : str) :
  direct_caption text fn = None ->
  (forall i l, nth_error (split newline text) i = Some l ->
     contains fn l = true -> line_rules (split newline text) i = Ok None) ->
  caption_body text fn = Ok [].
Proof.
  intros Hd H. unfold caption_body. rewrite Hd. unfold enumerate.
  rewrite for_first_enumerate_none; [reflexivity|].
  intros i x Hx. simpl.
  destruct (contains fn x) eqn:E; [|reflexivity]. now apply (H i x).
Qed.

Lemma caption_body_total (text fn : str) :
  exists c, caption_body text fn = Ok c.
Proof.
  unfold caption_body. destruct (direct_caption text fn); [eauto|].
  set (lines := split newline text).
  assert (H : forall l k, k + length l <= length lines ->
            exists r,
              for_first
                (fun il : nat * str =>
                   if contains fn (snd il) then line_rules lines (fst il)
                   else Ok None)
                (enumerate_from k l) = Ok r).
  { induction l as [|x l IH]; intros k Hk; simpl; [eauto|].
    simpl in Hk.
    destruct (contains fn x).
    - destruct (@line_rules_in_range lines k) as (r & ->); [lia|].
      destruct r; [eauto|]. apply IH. lia.
    - apply IH. lia. }
  destruct (H lines 0) as (r & Hr); [lia|].
  unfold enumerate. rewrite Hr. simpl. eauto.
Qed.

(** ** Rule 3: the prose line *)

Lemma lstrip_head (s r : str) (c : ascii) :
  lstrip s = c :: r -> is_space c = false.
Proof.
  induction s as [|d s IH]; simpl; [discriminate|].
  destruct (is_space d) eqn:E; [exact IH|].
  intros H. injection H as <- _. exact E.
Qed.

Lemma strip_last (l a : str) (x : ascii) :
  strip l = a ++ [x] -> is_space x = false.
Proof.
  unfold strip, rstrip. intros H.
  apply (f_equal (@rev ascii)) in H.
  rewrite rev_involutive, rev_app_distr in H. simpl in H.
  exact (lstrip_head _ H).
Qed.

Lemma anchored_class_matched (p : ascii -> bool) (c : str) :
  matched (re_match false (Bol ;;; Plus p ;;; Eol) c) = true <->
  exists ds, ds <> [] /\ forallb p ds = true /\
             (c = ds \/ c = ds ++ [newline]).
Proof.
  unfold re_match, Plus. simpl. rewrite Nat.eqb_refl. split.
  - destruct c as [|d s]; [discriminate|].
    destruct (p d) eqn:Hd; [|discriminate].
    match goal with |- matched ?t = true -> _ => destruct t as [m|] eqn:E end;
      [intros _|discriminate].
    apply star_greedy_sound in E as (a & b & -> & Ha & Hk).
    destruct b as [|x [|y b]]; [| |discriminate].
    + exists (d :: a). rewrite app_nil_r. simpl. rewrite Hd, Ha.
      repeat split; [discriminate|now left].
    + destruct (eqc x newline) eqn:Hx; [|discriminate].
      apply eqc_true in Hx. subst x.
      exists (d :: a). simpl. rewrite Hd, Ha.
      repeat split; [discriminate|now right].
  - intros (ds & Hne & Hds & Hc).
    destruct ds as [|d a]; [contradiction|].
    simpl in Hds. apply andb_true_iff in Hds as [Hd Ha].
    assert (Hk : forall b, b = [] \/ b = [newline] ->
              matched
                (star_greedy p (a ++ b)
                   (fun s' =>
                      match s' with
                      | [] => accept s' []
                      | [c0] => if eqc c0 newline then accept s' [] else None
                      | _ :: _ :: _ => None
                      end)) = true).
    { intros b Hb.
      match goal with |- matched ?t = true => destruct t eqn:E end;
        [reflexivity|].
      exfalso. revert E. apply star_greedy_complete; [exact Ha|].
      destruct Hb as [-> | ->]; [discriminate|].
      rewrite eqc_refl. discriminate. }
    destruct Hc as [-> | ->]; simpl; rewrite Hd.
    + rewrite <- (app_nil_r a). apply Hk. now left.
    + apply Hk. now right.
Qed.

Lemma is_space_newline : is_space newline = true.
Proof. reflexivity. Qed.

(** On a stripped text the anchored pattern [^C+$] says: not empty, and
    every character in the class. *)
Lemma anchored_class_stripped (p : ascii -> bool) (l : str) :
  matched (re_match false (Bol ;;; Plus p ;;; Eol) (strip l))
  = truthy (strip l) && forallb p (strip l).
Proof.
  apply eq_iff_eq_true. rewrite anchored_class_matched, andb_true_iff.
  split.
  - intros (ds & Hne & Hds & [Hc|Hc]).
    + rewrite Hc. split; [|exact Hds]. destruct ds; [contradiction|reflexivity].
    + apply strip_last in Hc. rewrite is_space_newline in Hc. discriminate.
  - intros [Ht Hp]. exists (strip l). repeat split; auto.
    intros E. rewrite E in Ht. discriminate.
Qed.

Lemma prose_caption_descriptive (l : str) :
  prose_caption l = if descriptive (strip l) then Some (strip l) else None.
Proof.
  unfold prose_caption, descriptive, number_pattern, punct_pattern.
  rewrite !anchored_class_stripped.
  destruct (truthy (strip l)), (startswith (lit "!") (strip l)),
    (forallb is_digit (strip l)), (forallb heading_punct (strip l)),
    (10 <? length (strip l)); reflexivity.
Qed.

(** ** The figure label *)

Lemma lstrip_split (s : str) :
  exists sp, s = sp ++ lstrip s /\ forallb is_space sp = true.
Proof.
  induction s as [|c s (sp & Hs & Hsp)]; simpl.
  - now exists [].
  - destruct (is_space c) eqn:E.
    + exists (c :: sp). simpl. rewrite E, Hsp. split; [now f_equal|reflexivity].
    + now exists [].
Qed.

Lemma lstrip_idempotent (s : str) : lstrip (lstrip s) = lstrip s.
Proof.
  induction s as [|c s IH]; simpl; [reflexivity|].
  destruct (is_space c) eqn:E; [exact IH|]. simpl. now rewrite E.
Qed.

Lemma strip_lstrip (s : str) : strip (lstrip s) = strip s.
Proof. unfold strip. now rewrite lstrip_idempotent. Qed.

Lemma forallb_lstrip (p : ascii -> bool) (s : str) :
  forallb p s = true -> forallb p (lstrip s) = true.
Proof.
  induction s as [|c s IH]; simpl; [reflexivity|].
  intros H. apply andb_true_iff in H as [Hc Hs].
  destruct (is_space c); [auto|]. simpl. now rewrite Hc, Hs.
Qed.

Lemma digit_not_space (c : ascii) : is_digit c = true -> is_space c = false.
Proof.
  destruct c as [[] [] [] [] [] [] [] []]; intros H;
    first [discriminate H|reflexivity].
Qed.

Lemma separator_not_digit (c : ascii) :
  colon_or_dot c = true -> is_digit c = false.
Proof.
  destruct c as [[] [] [] [] [] [] [] []]; intros H;
    first [discriminate H|reflexivity].
Qed.

Lemma figure_trailing_match (n : nat) (txt : str) (g : captures) :
  forallb dot txt = true ->
  rmatch true n (Star is_space ;;; Grp 2 (Star dot)) txt g accept
  = Some ((2, lstrip txt) :: g, []).
Proof.
  intros Hdot. cbn [rmatch].
  destruct (lstrip_split txt) as (sp & Htxt & Hsp).
  rewrite Htxt at 1.
  assert (Hbody :
    star_greedy dot (lstrip txt)
      (fun s' =>
         accept s' ((2, firstn (length (lstrip txt) - length s') (lstrip txt))
                    :: g))
    = Some ((2, lstrip txt) :: g, [])).
  { rewrite <- (app_nil_r (lstrip txt)) at 1.
    rewrite star_greedy_all;
      [|now apply forallb_lstrip|exact I|discriminate].
    unfold accept. simpl length. rewrite Nat.sub_0_r, firstn_all.
    reflexivity. }
  rewrite star_greedy_all; [exact Hbody|exact Hsp| |now rewrite Hbody].
  destruct (lstrip txt) as [|c r] eqn:E; [exact I|].
  exact (lstrip_head _ E).
Qed.


Lemma figure_number_match (n : nat) (ws ds sep txt : str) (g : captures) :
  forallb is_space ws = true ->
  ds <> [] -> forallb is_digit ds = true ->
  label_rest sep txt ->
  rmatch true n
    (Star is_space ;;; Grp 1 (Plus is_digit) ;;; Opt (Cls colon_or_dot) ;;;
     Star is_space ;;; Grp 2 (Star dot))
    (ws ++ ds ++ sep ++ txt) g accept
  = Some ((2, lstrip txt) :: (1, ds) :: g, []).
Proof.
  intros Hws Hne Hds (Hdot & Hsep).
  destruct ds as [|d ds]; [contradiction|].
  simpl in Hds. apply andb_true_iff in Hds as [Hd Hds].
  assert (Hafter :
    rmatch true n
      (Opt (Cls colon_or_dot) ;;; Star is_space ;;; Grp 2 (Star dot))
      (sep ++ txt) ((1, d :: ds) :: g) accept
    = Some ((2, lstrip txt) :: (1, d :: ds) :: g, [])).
  { pose proof (@figure_trailing_match n txt ((1, d :: ds) :: g) Hdot) as Ht.
    destruct Hsep as [(-> & Htxt) | (c & -> & Hc)].
    - cbn [app].
      change (rmatch true n (Opt (Cls colon_or_dot) ;;; ?b) ?s ?g0 ?k)
        with (rmatch true n (Opt (Cls colon_or_dot)) s g0
                (fun s' g' => rmatch true n b s' g' k)).
      unfold Opt. 
      change (rmatch true n (Alt ?a Eps) ?s ?g0 ?k) with
        (match rmatch true n a s g0 k with
         | Some x => Some x
         | None => k s g0
         end).
      destruct txt as [|c txt].
      + exact Ht.
      + destruct Htxt as (_ & Hc). 
        change (rmatch true n (Cls colon_or_dot) (c :: txt) ?g0 ?k)
          with (if colon_or_dot c then k txt g0 else None).
        rewrite Hc. exact Ht.
    - change (rmatch true n (Opt (Cls colon_or_dot) ;;; ?b) ?s ?g0 ?k)
        with (rmatch true n (Opt (Cls colon_or_dot)) s g0
                (fun s' g' => rmatch true n b s' g' k)).
      unfold Opt. 
      change (rmatch true n (Alt ?a Eps) ?s ?g0 ?k) with
        (match rmatch true n a s g0 k with
         | Some x => Some x
         | None => k s g0
         end).
      cbn [app].
      change (rmatch true n (Cls colon_or_dot) (c :: txt) ?g0 ?k)
        with (if colon_or_dot c then k txt g0 else None).
      rewrite Hc, Ht. reflexivity. }
  assert (Hhead : match sep ++ txt with
                  | [] => True
                  | c :: _ => is_digit c = false
                  end).
  { destruct Hsep as [(-> & Htxt) | (c & -> & Hc)].
    - destruct txt; [exact I|]. now destruct Htxt.
    - simpl. now apply separator_not_digit. }
  change (rmatch true n (Star is_space ;;; ?b) ?s ?g0 ?k)
    with (star_greedy is_space s (fun s' => rmatch true n b s' g0 k)).
  assert (Hnum : rmatch true n
      (Grp 1 (Plus is_digit) ;;; Opt (Cls colon_or_dot) ;;;
       Star is_space ;;; Grp 2 (Star dot)) ((d :: ds) ++ sep ++ txt) g accept
      = Some ((2, lstrip txt) :: (1, d :: ds) :: g, [])).
  { change (rmatch true n (Grp 1 (Plus is_digit) ;;; ?b) ?s ?g0 ?k)
      with (rmatch true n (Plus is_digit) s g0
             (fun s' g' =>
                rmatch true n b s'
                  ((1, firstn (length s - length s') s) :: g') k)).
    unfold Plus.
    change (rmatch true n (Cls is_digit ;;; Star is_digit)
              ((d :: ds) ++ ?z) ?g0 ?k)
      with (if is_digit d
            then star_greedy is_digit (ds ++ z) (fun s' => k s' g0)
            else None).
    rewrite Hd.
    rewrite star_greedy_all; [|exact Hds|exact Hhead|];
      rewrite firstn_app_exact; rewrite Hafter; [reflexivity|discriminate]. }
  rewrite star_greedy_all; [exact Hnum|exact Hws| |rewrite Hnum; discriminate].
  simpl. now apply digit_not_space.
Qed.

Lemma chr_eq_icase (c d : ascii) : lower c = lower d -> chr_eq true c d = true.
Proof. unfold chr_eq. intros ->. apply eqc_refl. Qed.

Lemma chr_eq_icase_differ (c d : ascii) :
  lower c <> lower d -> chr_eq true c d = false.
Proof. unfold chr_eq. intros H. now apply eqc_false. Qed.

Lemma letter_not_number_ahead (c h : ascii) :
  is_space h || is_digit h = true ->
  is_space (lower c) || is_digit (lower c) = false ->
  chr_eq true c h = false.
Proof.
  intros Hh Hc. apply chr_eq_icase_differ. intros E.
  assert (Hl : lower h = h).
  { clear - Hh. destruct h as [[] [] [] [] [] [] [] []];
      first [discriminate Hh|reflexivity]. }
  rewrite Hl in E. rewrite E, Hh in Hc. discriminate Hc.
Qed.

Lemma figure_label_match (n : nat) (T : regex) (lbl x : str) (g : captures)
    (k : str -> captures -> option match_obj) (m : match_obj) :
  is_label lbl -> number_ahead x ->
  rmatch true n T x g k = Some m ->
  rmatch true n
    (Alt (escape (lit "Figur") ;;; Opt (Chr "e"))
         (escape (lit "Fig") ;;; Opt (Chr ".")) ;;; T)
    (lbl ++ x) g k
  = Some m.
Proof.
  intros Hlbl Hx HT.
  destruct x as [|h x]; [contradiction|]. simpl in Hx.
  assert (Hu : chr_eq true "u" h = false)
    by (now apply letter_not_number_ahead).
  assert (He : chr_eq true "e" h = false)
    by (now apply letter_not_number_ahead).
  assert (Hp : chr_eq true "." h = false)
    by (now apply letter_not_number_ahead).
  unfold is_label in Hlbl. simpl in Hlbl.
  destruct Hlbl as [H|[H|[H|[H|[]]]]];
    cbv [lit list_ascii_of_string] in H;
    repeat (destruct lbl as [|? lbl]; try discriminate H);
    cbn [map] in H; inversion H; clear H;
    cbv [rmatch escape lit list_ascii_of_string Opt app];
    repeat match goal with
           | L : _ = lower ?c |- context [chr_eq true ?p ?c] =>
               first [ rewrite (@chr_eq_icase p c)
                         by (rewrite <- L; reflexivity)
                     | rewrite (@chr_eq_icase_differ p c)
                         by (rewrite <- L; discriminate) ]
           end;
    fold (rmatch (R := match_obj));
    rewrite ?Hu, ?He, ?Hp, ?HT; reflexivity.
Qed.

(** X1. A line that starts with a figure label in any case ([Figure],
    [Figur], [Fig.] or [Fig]), optional white space, a number and an
    optional colon or period has the rest of the line, stripped, as its
    caption when that is not empty, and no caption otherwise. *)
Lemma figure_caption_label (lbl ws ds sep txt : str) :
  is_label lbl ->
  forallb is_space ws = true ->
  ds <> [] -> forallb is_digit ds = true ->
  label_rest sep txt ->
  figure_caption (lbl ++ ws ++ ds ++ sep ++ txt)
  = if truthy (strip txt) then Some (strip txt) else None.
Proof.
  intros Hlbl Hws Hne Hds Hrest.
  unfold figure_caption, re_search.
  set (line := lbl ++ ws ++ ds ++ sep ++ txt).
  assert (Hahead : number_ahead (ws ++ ds ++ sep ++ txt)).
  { destruct ws as [|c ws]; simpl.
    - destruct ds as [|d ds]; [contradiction|]. simpl in Hds |- *.
      apply andb_true_iff in Hds as [-> _]. apply orb_true_r.
    - simpl in Hws. apply andb_true_iff in Hws as [-> _]. reflexivity. }
  assert (Hm : rmatch true (length line) figure_pattern line [] accept
               = Some ([(2, lstrip txt); (1, ds)], [])).
  { unfold figure_pattern, line.
    apply figure_label_match; [exact Hlbl|exact Hahead|].
    now apply figure_number_match. }
  rewrite (search_from_here _ _ _ _ Hm). cbn [option_map snd].
  change (group_text 2 ([(2, lstrip txt); (1, ds)], [])) with (lstrip txt).
  now rewrite strip_lstrip.
Qed.

Lemma figure_caption_label_witness :
  figure_caption (lit "Figure 3: Result overview")
  = Some (lit "Result overview").
Proof.
  apply (@figure_caption_label (lit "Figure") (lit " ") (lit "3") (lit ":")
           (lit " Result overview")).
  - unfold is_label. left. reflexivity.
  - reflexivity.
  - discriminate.
  - reflexivity.
  - split; [reflexivity|]. right. exists ":"%char. split; reflexivity.
Defined.

(** ** The caption heuristic: the claims *)

(** Where rule 1 does return the bracket text of the reference: when the
    text holds an image reference [![cap](path)] whose path contains the
    file name, no [![] comes before it, [cap] has no closing bracket and no
    line break, the path no closing parenthesis, and [cap] stripped is not
    empty, the method returns [cap] stripped and logs nothing. *)
Lemma direct_reference_caption (float : Type)
    (pre cap p1 fn p2 post : str) :
  contains (lit "![") pre = false ->
  forallb caption_char cap = true ->
  forallb not_rparen p1 = true ->
  forallb not_rparen p2 = true ->
  truthy (strip cap) = true ->
  _extract_image_caption (float := float)
    (pre ++ image_reference cap p1 fn p2 ++ post) fn
  = (strip cap, []).
Proof.
  intros Hpre Hcap H1 H2 Ht.
  unfold _extract_image_caption, caption_body.
  rewrite direct_caption_reference by assumption.
  now rewrite Ht.
Qed.

Lemma direct_reference_caption_witness :
  _extract_image_caption (float := unit)
    (lit "See " ++ image_reference (lit " Caption X ") (lit "imgs/")
       (lit "img1.png") [] ++ lit " here") (lit "img1.png")
  = (lit "Caption X", []).
Proof.
  apply (@direct_reference_caption unit (lit "See ") (lit " Caption X ")
           (lit "imgs/") (lit "img1.png") [] (lit " here"));
    reflexivity.
Defined.

(** C2. The defect of rule 1: the search starts the bracket group at the
    first [![] from which the pattern can be completed, and the lazy group
    runs over closing brackets. The text below holds the image reference
    [![Caption X](d/img1.png)] after another reference on the same line;
    for [img1.png] the method returns [A](x.png) ![Caption X], which is not
    the caption [Caption X] of the reference that holds the file name. *)
Lemma direct_reference_takes_earlier_bracket :
  lit "![A](x.png) "
  ++ image_reference (lit "Caption X") (lit "d/") (lit "img1.png") []
  = lit "![A](x.png) ![Caption X](d/img1.png)" /\
  _extract_image_caption (float := unit)
    (lit "![A](x.png) ![Caption X](d/img1.png)") (lit "img1.png")
  = (lit "A](x.png) ![Caption X", []) /\
  fst (_extract_image_caption (float := unit)
         (lit "![A](x.png) ![Caption X](d/img1.png)") (lit "img1.png"))
  <> strip (lit "Caption X").
Proof.
  split; [reflexivity|]. split; [vm_compute; reflexivity|].
  vm_compute. discriminate.
Qed.

(** C3, amended. When rule 1 gives no caption, the lines with the file
    name are consulted in order; a line with the file name at which the
    rules give nothing is passed over, and the first at which a rule gives
    a caption decides. At that line [i] the method returns the trailing
    text of the first figure label in lines i+1..i+5; or, when there is
    none, of the first figure label in lines i-3..i-1, the farthest first;
    or, when there is none either, rule 3 is applied at that line and the
    method returns the first descriptive line of lines i+1..i+3,
    stripped. *)
Theorem figure_label_near_filename_line (float : Type)
    (text fn line c : str) (i : nat) :
  direct_caption text fn = None ->
  nth_error (split newline text) i = Some line ->
  contains fn line = true ->
  (forall i' l', i' < i -> nth_error (split newline text) i' = Some l' ->
     contains fn l' = true -> nothing_at (split newline text) i') ->
  caption_at (split newline text) i c ->
  _extract_image_caption (float := float) text fn = (c, []).
Proof.
  intros Hd Hl Hin Hbefore Hc.
  assert (Hi : i < length (split newline text))
    by (apply nth_error_Some; congruence).
  assert (Hprose : forall a b,
            window_none descriptive_line (split newline text) a b ->
            window_none prose_caption (split newline text) a b).
  { intros a b H j l Hj Hjl. rewrite prose_caption_descriptive.
    exact (H j l Hj Hjl). }
  unfold _extract_image_caption.
  rewrite (@caption_body_lines text fn i line c); auto.
  - intros i' l' Hi' Hl' Hin'.
    destruct (Hbefore i' l' Hi' Hl' Hin') as (Hb & Ha & Hp).
    apply line_rules_none; [lia|].
    split; [exact Hb|]. split; [exact Ha|]. now apply Hprose.
  - destruct Hc as [(j & Hj) | [(Hb & j & Hj) | (Hb & Ha & j & Hj)]].
    + exact (line_rules_below Hi Hj).
    + exact (line_rules_above Hi Hb Hj).
    + apply (@line_rules_prose _ _ j); auto.
      destruct Hj as (Hj & (l & Hjl & Hl') & Hnone).
      split; [exact Hj|]. split.
      * exists l. split; [exact Hjl|].
        rewrite prose_caption_descriptive. exact Hl'.
      * now apply Hprose.
Qed.

(** A window of a concrete text, line by line. *)
Ltac window_cases :=
  let j := fresh "j" in
  let l := fresh "l" in
  let Hj := fresh "Hj" in
  let Hl := fresh "Hl" in
  intros j l Hj Hl;
  do 12 (destruct j as [|j];
         [ first [ exfalso; lia
                 | vm_compute in Hl;
                   first [ discriminate Hl
                         | injection Hl as <-; vm_compute; reflexivity ] ]
         | ]);
  first [ exfalso; lia | vm_compute in Hl; discriminate Hl ].

(** The lines with the file name before line [n] of a concrete text, one
    by one. *)
Tactic Notation "earlier_mentions" integer(n) :=
  let i' := fresh "i" in
  let l' := fresh "l" in
  let Hi' := fresh "Hi" in
  let Hl' := fresh "Hl" in
  let Hin := fresh "Hin" in
  intros i' l' Hi' Hl' Hin;
  do n (destruct i' as [|i'];
        [ vm_compute in Hl'; injection Hl' as <-;
          first [ vm_compute in Hin; discriminate Hin
                | split; [|split]; window_cases ]
        | ]);
  exfalso; lia.

(** The three branches: a label under the second mention of the file
    name, a label above the mention, and a line of prose under the second
    mention. *)
Lemma figure_label_near_filename_line_witness :
  _extract_image_caption (float := unit) two_mentions (lit "img2.png")
  = (lit "Late", []) /\
  _extract_image_caption (float := unit) label_above (lit "img2.png")
  = (lit "Seen from above", []) /\
  _extract_image_caption (float := unit) two_mentions_prose (lit "img2.png")
  = (lit "A plain descriptive line", []).
Proof.
  split; [|split].
  - apply (@figure_label_near_filename_line unit two_mentions
             (lit "img2.png") (lit "img2.png") (lit "Late") 6).
    + reflexivity.
    + reflexivity.
    + reflexivity.
    + earlier_mentions 6.
    + left. exists 7. split; [lia|]. split.
      * exists (lit "fig.7. Late"). split; reflexivity.
      * intros j l Hj. exfalso; lia.
  - apply (@figure_label_near_filename_line unit label_above
             (lit "img2.png") (lit "img2.png") (lit "Seen from above") 2).
    + reflexivity.
    + reflexivity.
    + reflexivity.
    + earlier_mentions 2.
    + right. left. split; [window_cases|].
      exists 0. split; [lia|]. split.
      * exists (lit "Figure 4: Seen from above"). split; reflexivity.
      * intros j l Hj. exfalso; lia.
  - apply (@figure_label_near_filename_line unit two_mentions_prose
             (lit "img2.png") (lit "img2.png")
             (lit "A plain descriptive line") 7).
    + reflexivity.
    + reflexivity.
    + reflexivity.
    + earlier_mentions 7.
    + right. right. split; [window_cases|]. split; [window_cases|].
      exists 8. split; [lia|]. split.
      * exists (lit "A plain descriptive line"). split; reflexivity.
      * intros j l Hj. exfalso; lia.
Defined.

(** C3 as stated fails: the result is not decided at the first line with
    the file name alone. In [two_mentions] the rules give nothing at the
    first such line, line 0, and the method returns the label text under
    the second one. *)
Lemma figure_label_first_line_only_counterexample :
  ~ (forall (text fn line : str) (i : nat),
       direct_caption text fn = None ->
       nth_error (split newline text) i = Some line ->
       contains fn line = true ->
       (forall i' l', i' < i -> nth_error (split newline text) i' = Some l' ->
          contains fn l' = false) ->
       fst (_extract_image_caption (float := unit) text fn)
       = match line_rules (split newline text) i with
         | Ok (Some c) => c
         | _ => []
         end).
Proof.
  intros H.
  specialize (H two_mentions (lit "img2.png") (lit "img2.png") 0
                eq_refl eq_refl eq_refl).
  assert (Hfirst : forall i' l', i' < 0 ->
            nth_error (split newline two_mentions) i' = Some l' ->
            contains (lit "img2.png") l' = false)
    by (intros i' l' Hi'; exfalso; lia).
  specialize (H Hfirst). vm_compute in H. discriminate H.
Qed.

(** C4. When rule 1 gives no caption and, at the first line [i] with the
    file name, no figure label is in lines i+1..i+5 nor in lines i-3..i-1,
    the method returns the first of the lines i+1..i+3 that, stripped, is
    not empty, does not start with an exclamation mark, is not all digits,
    is not all [#], [*] and [-], and is longer than ten characters; it
    returns that line stripped. *)
Theorem prose_line_after_filename_line (float : Type)
    (text fn line l : str) (i j : nat) :
  direct_caption text fn = None ->
  nth_error (split newline text) i = Some line ->
  contains fn line = true ->
  (forall i' l', i' < i -> nth_error (split newline text) i' = Some l' ->
     contains fn l' = false) ->
  window_none figure_caption (split newline text) (i + 1) (i + 6) ->
  window_none figure_caption (split newline text) (i - 3) i ->
  i + 1 <= j < i + 4 ->
  nth_error (split newline text) j = Some l ->
  descriptive (strip l) = true ->
  (forall j' l', i + 1 <= j' < j ->
     nth_error (split newline text) j' = Some l' ->
     descriptive (strip l') = false) ->
  _extract_image_caption (float := float) text fn = (strip l, []).
Proof.
  intros Hd Hl Hin Hfirst Hb Ha Hj Hlj Hdesc Hearlier.
  assert (Hi : i < length (split newline text))
    by (apply nth_error_Some; congruence).
  unfold _extract_image_caption.
  rewrite (@caption_body_lines text fn i line (strip l)); auto.
  - intros i' l' Hi' Hl' Hin'. rewrite (Hfirst i' l' Hi' Hl') in Hin'.
    discriminate.
  - apply (@line_rules_prose _ _ j); auto.
    split; [exact Hj|]. split.
    + exists l. split; [exact Hlj|].
      now rewrite prose_caption_descriptive, Hdesc.
    + intros j' l' Hj' Hl'.
      now rewrite prose_caption_descriptive, (Hearlier j' l' Hj' Hl').
Qed.

Lemma prose_line_after_filename_line_witness :
  _extract_image_caption (float := unit) mention_then_prose (lit "img2.png")
  = (lit "A plain descriptive line", []).
Proof.
  apply (@prose_line_after_filename_line unit mention_then_prose
           (lit "img2.png") (lit "img2.png")
           (lit " A plain descriptive line ") 0 3).
  - reflexivity.
  - reflexivity.
  - reflexivity.
  - intros i' l' Hi'. exfalso; lia.
  - window_cases.
  - window_cases.
  - lia.
  - reflexivity.
  - reflexivity.
  - intros j' l' Hj' Hl'.
    do 3 (destruct j' as [|j'];
          [ first [ exfalso; lia
                  | vm_compute in Hl'; injection Hl' as <-; reflexivity ]
          | ]).
    exfalso; lia.
Defined.

(** C5. The body of the method raises nothing, so the method returns its
    value and logs nothing; when no rule gives a caption, at no line with
    the file name, it returns the empty string; and an exception of the
    body would be logged as a warning and answered by the empty string. *)
Theorem caption_never_raises (float : Type) (text fn : str) :
  (exists c, caption_body text fn = Ok c /\
             _extract_image_caption (float := float) text fn = (c, [])) /\
  (direct_caption text fn = None ->
   (forall i l, nth_error (split newline text) i = Some l ->
      contains fn l = true -> no_caption_at (split newline text) i) ->
   _extract_image_caption (float := float) text fn = ([], [])) /\
  (forall e, recover (float := float) (Raise e)
             = ([], [(Warning, MsgCaptionError e)])).
Proof.
  split; [|split].
  - destruct (caption_body_total text fn) as (c & Hc).
    exists c. split; [exact Hc|].
    unfold _extract_image_caption. now rewrite Hc.
  - intros Hd Hnone. unfold _extract_image_caption.
    rewrite caption_body_none; [reflexivity|exact Hd|].
    intros i l Hl Hin. apply line_rules_none; [|eauto].
    apply nth_error_Some. congruence.
  - reflexivity.
Qed.

Lemma caption_never_raises_witness :
  _extract_image_caption (float := unit)
    (lit ("A page without figures" ++ nl ++ "img9.png")) (lit "img1.png")
  = ([], []).
Proof.
  apply (@caption_never_raises unit
           (lit ("A page without figures" ++ nl ++ "img9.png"))
           (lit "img1.png")).
  - reflexivity.
  - intros i l Hl Hin.
    do 2 (destruct i as [|i];
          [ vm_compute in Hl; injection Hl as <-;
            vm_compute in Hin; discriminate Hin | ]).
    destruct i; vm_compute in Hl; discriminate Hl.
Defined.

(** ** Runs and their traces *)

Section Traces.

Context {E : Externals}.

Lemma performs_weaken {A} (P Q : call -> Prop) (m : M A) :
  (forall c, P c -> Q c) -> performs P m -> performs Q m.
Proof.
  intros HPQ Hm w r w' Hrun.
  destruct (Hm w r w' Hrun) as (cs & Hcs & HP & Hr).
  exists cs. repeat split; auto.
  eapply Forall_impl; [|exact HP]. intros cb. apply HPQ.
Qed.

Lemma performs_ret {A} (P : call -> Prop) (a : A) : performs P (ret a).
Proof.
  intros w r w' H. injection H as <- <-.
  exists []. rewrite app_nil_r. repeat split; constructor.
Qed.

Lemma performs_logger (P : call -> Prop) (l : level) (m : message float) :
  performs P (logger l m).
Proof.
  intros w r w' H. injection H as <- <-.
  exists []. simpl. rewrite app_nil_r. repeat split; constructor.
Qed.

Lemma performs_total {A} (P : call -> Prop) (f : OS -> A * OS) :
  performs P (total f).
Proof.
  intros w r w' H. unfold total in H. destruct (f (os w)) as [a o].
  injection H as <- <-.
  exists []. simpl. rewrite app_nil_r. repeat split; constructor.
Qed.

Lemma performs_external {A} (P : call -> Prop) (c : call)
    (f : OS -> result A * OS) :
  P c -> performs P (external c f).
Proof.
  intros Hc w r w' H. unfold external in H.
  destruct (f (os w)) as [r0 o]. injection H as <- <-.
  exists [(c, is_ok r0)]. simpl. repeat split.
  - constructor; [exact Hc|constructor].
  - destruct r0; simpl.
    + constructor; [reflexivity|constructor].
    + exists c. now left.
Qed.

Lemma performs_bind {A B} (P : call -> Prop) (m : M A) (f : A -> M B) :
  performs P m -> (forall a, performs P (f a)) -> performs P (bind m f).
Proof.
  intros Hm Hf w r w' H. unfold bind in H.
  destruct (m w) as [[a|e] w1] eqn:E1.
  - destruct (Hm _ _ _ E1) as (cs1 & Hcs1 & HP1 & Hok1).
    destruct (Hf a _ _ _ H) as (cs2 & Hcs2 & HP2 & Hr2).
    exists (cs1 ++ cs2). rewrite Hcs2, Hcs1, app_assoc. repeat split.
    + apply Forall_app. now split.
    + destruct r.
      * apply Forall_app. now split.
      * destruct Hr2 as (c & Hc). exists c. apply in_or_app. now right.
  - injection H as <- <-. exact (Hm _ _ _ E1).
Qed.

Lemma performs_for_each {A S} (P : call -> Prop) (body : S -> A -> M S) :
  (forall s a, performs P (body s a)) ->
  forall l s, performs P (for_each l body s).
Proof.
  intros Hbody. induction l as [|a l IH]; intros s; simpl.
  - apply performs_ret.
  - apply performs_bind; [apply Hbody|]. intros s'. apply IH.
Qed.

Lemma performs_if {A} (P : call -> Prop) (b : bool) (m1 m2 : M A) :
  performs P m1 -> performs P m2 -> performs P (if b then m1 else m2).
Proof. destruct b; auto. Qed.

(** A handler that makes no call turns a raising body into a returning
    run with the same trace. *)
Lemma try_except_inv {A} (body : M A) (handler : exn -> M A)
    (w : World) (r : result A) (w' : World) :
  try_except body handler w = (r, w') ->
  (exists a, body w = (Ok a, w') /\ r = Ok a) \/
  (exists e w1, body w = (Raise e, w1) /\ handler e w1 = (r, w')).
Proof.
  unfold try_except. destruct (body w) as [[a|e] w1].
  - intros H. injection H as <- <-. left. eauto.
  - intros H. right. eauto.
Qed.

End Traces.

Create HintDb performs.

#[export] Hint Resolve performs_ret performs_logger performs_total
  performs_external performs_bind performs_for_each performs_if : performs.

(** ** The extraction session *)

Section ExtractorFacts.

Context {E : Externals}.

Lemma caption_logged_run (text fn : str) (w : World) :
  exists w',
    extract_image_caption_logged text fn w
    = (Ok (fst (_extract_image_caption (float := float) text fn)), w') /\
    calls w' = calls w /\ os w' = os w.
Proof.
  unfold extract_image_caption_logged.
  destruct (_extract_image_caption text fn) as [c recs]. simpl. eauto.
Qed.

Lemma materialize_run (self : LightweightExtractor) (text : str)
    (acc : list (pyval float)) (item : nat * (str * image))
    (w : World) (l : list (pyval float)) (w' : World) :
  materialize self text acc item w = (Ok l, w') ->
  l = acc ++ [image_record self text item] /\
  calls w' = calls w ++ [save_call self (snd item)].
Proof.
  destruct item as [i [fn img]]. unfold materialize, bind, external. simpl.
  destruct (image_save img (Path.join (img_dir self) [fn]) (os w))
    as [[[]|e] o] eqn:Es; [|intros H; discriminate H].
  match goal with
  | |- context [extract_image_caption_logged text fn ?w1] =>
      destruct (caption_logged_run text fn w1) as (w2 & -> & Hc & _)
  end.
  unfold ret. intros H. injection H as <- <-. split; [reflexivity|].
  rewrite Hc. reflexivity.
Qed.

Lemma materialize_loop_run (self : LightweightExtractor) (text : str) :
  forall (images : list (str * image)) (k : nat) (acc : list (pyval float))
         (w : World) (l : list (pyval float)) (w' : World),
    for_each (enumerate_from k images) (materialize self text) acc w
    = (Ok l, w') ->
    l = acc ++ map (image_record self text) (enumerate_from k images) /\
    calls w' = calls w ++ map (save_call self) images.
Proof.
  induction images as [|item images IH]; intros k acc w l w' H;
    cbn [for_each enumerate_from] in H.
  - injection H as <- <-. simpl. now rewrite !app_nil_r.
  - unfold bind in H.
    destruct (materialize self text acc (k, item) w) as [[l1|e] w1] eqn:E1;
      [|discriminate].
    apply materialize_run in E1 as [-> Hc1].
    apply IH in H as [-> Hc]. split.
    + simpl. now rewrite <- app_assoc.
    + rewrite Hc, Hc1, <- app_assoc. reflexivity.
Qed.

Lemma performs_caption_logged (P : call -> Prop) (text fn : str) :
  performs P (extract_image_caption_logged text fn).
Proof.
  intros w r w' H.
  destruct (caption_logged_run text fn w) as (w2 & Hrun & Hc & _).
  rewrite Hrun in H. injection H as <- <-.
  exists []. rewrite app_nil_r. repeat split; auto; constructor.
Qed.

Lemma performs_materialize (self : LightweightExtractor) (text : str)
    (acc : list (pyval float)) (item : nat * (str * image)) :
  performs extraction_call (materialize self text acc item).
Proof.
  destruct item as [i [fn img]]. unfold materialize.
  apply performs_bind; [apply performs_external; exact I|]. intros _.
  apply performs_bind; [apply performs_caption_logged|]. intros c.
  apply performs_ret.
Qed.

End ExtractorFacts.

Section ExtractContent.

Context {E : Externals}.

(** The body of the [try] block of [extract_content]. *)
Lemma extract_content_handler (e : exn) (w1 : World)
    (r : result (option (dict float))) (w' : World) :
  (logger Error (MsgExtractionFailed e) ;;-
   total (fun o => (tt, print_exc e o)) ;;- ret None) w1 = (r, w') ->
  r = Ok None /\ calls w' = calls w1 /\ os w' = print_exc e (os w1) /\
  log w' = log w1 ++ [(Error, MsgExtractionFailed e)].
Proof.
  unfold bind, logger, total, ret. simpl. intros H. injection H as <- <-.
  auto.
Qed.

Lemma extract_content_some (self : LightweightExtractor) (w w' : World)
    (content : dict float) :
  extract_content self w = (Ok (Some content), w') ->
  exists text images t0 t1 now,
    conversion self (os w) = Ok (text, images) /\
    content =
      [ (lit "full_text", PStr text);
        (lit "images",
         PList (map (image_record self text) (enumerate images)));
        (lit "pdf_path", PStr (pdf_path self));
        (lit "extraction_time", PStr (isoformat now));
        (lit "conversion_time_seconds", PFloat (float_sub t1 t0));
        (lit "session_id", PStr (session_id self)) ] /\
    calls w' =
      calls w ++
      [ (CallCreateConverter, true);
        (CallConverter (pdf_path self), true);
        (CallTextFromRendered, true) ] ++ map (save_call self) images.
Proof.
  unfold extract_content. intros H.
  apply try_except_inv in H as [(a & H & Ha) | (e & w1 & _ & H)].
  2:{ apply extract_content_handler in H as [H _]. discriminate H. }
  injection Ha as <-.
  unfold conversion.
  unfold bind at 1 in H. unfold logger at 1 in H.
  unfold bind at 1 in H. unfold external at 1 in H. cbn [os calls log] in H.
  destruct (create_converter (os w)) as [[conv|e] o1]; [|discriminate H].
  unfold bind at 1 in H. unfold total at 1 in H. cbn [os calls log] in H.
  destruct (time_time o1) as [t0 o2]. cbn [snd].
  unfold bind at 1 in H. unfold external at 1 in H. cbn [os calls log] in H.
  destruct (run_converter conv (pdf_path self) o2) as [[rend|e] o3];
    [|discriminate H].
  unfold bind at 1 in H. unfold total at 1 in H. cbn [os calls log] in H.
  destruct (time_time o3) as [t1 o4].
  unfold bind at 1 in H. unfold logger at 1 in H.
  unfold bind at 1 in H. unfold external at 1 in H. cbn [os calls log] in H.
  destruct (text_from_rendered rend) as [[text images]|e];
    [|discriminate H].
  cbn [fst snd is_ok] in H.
  unfold bind at 1 in H.
  match type of H with
  | context [for_each ?l ?b ?s ?w0] =>
      destruct (for_each l b s w0) as [[image_list|e] w5] eqn:Eloop;
        [|discriminate H]
  end.
  apply materialize_loop_run in Eloop as [-> Hcalls].
  cbn [os calls log] in Hcalls.
  unfold bind at 1 in H. unfold total at 1 in H.
  destruct (datetime_now (os w5)) as [now o6].
  unfold bind, logger, ret in H. cbn [os calls log] in H.
  injection H as <- <-.
  exists text, images, t0, t1, now. cbn [calls].
  repeat split. rewrite Hcalls, <- !app_assoc. reflexivity.
Qed.

Lemma performs_extract_body (self : LightweightExtractor)
    (w : World) (r : result (option (dict float))) (w' : World) :
  extract_content self w = (r, w') ->
  exists r0 cs,
    r = Ok r0 /\ calls w' = calls w ++ cs /\
    Forall (fun cb => extraction_call (fst cb)) cs /\
    match r0 with
    | Some _ => Forall succeeded cs
    | None => exists c, In (c, false) cs
    end.
Proof.
  unfold extract_content. intros H.
  apply try_except_inv in H as [(a & H & ->) | (e & w1 & H & Hh)].
  - assert (Ha : exists content, a = Some content).
    { revert H. unfold bind, logger, external, total, ret.
      repeat match goal with
             | |- context [let (_, _) := ?t in _] => destruct t
             | |- context [match ?t with Ok _ => _ | Raise _ => _ end] =>
                 destruct t
             end;
        intros H; try discriminate H; injection H as <- _; eauto. }
    destruct Ha as (content & ->).
    match type of H with
    | ?body w = _ =>
        assert (Hp : performs extraction_call body)
    end.
    { repeat first
        [ apply performs_bind; [|intros ?]
        | apply performs_logger | apply performs_total
        | apply performs_external; exact I
        | apply performs_for_each; intros; apply performs_materialize
        | apply performs_ret ]. }
    destruct (Hp _ _ _ H) as (cs & Hcs & HP & Hok).
    exists (Some content), cs. auto.
  - match type of H with
    | ?body w = _ =>
        assert (Hp : performs extraction_call body)
    end.
    { repeat first
        [ apply performs_bind; [|intros ?]
        | apply performs_logger | apply performs_total
        | apply performs_external; exact I
        | apply performs_for_each; intros; apply performs_materialize
        | apply performs_ret ]. }
    destruct (Hp _ _ _ H) as (cs & Hcs & HP & Hfail).
    apply extract_content_handler in Hh as (-> & Hc & _ & _).
    exists None, cs. rewrite Hc. auto.
Qed.

End ExtractContent.

Lemma nth_error_map_enumerate {A B} (f : nat * A -> B) :
  forall (l : list A) (k i : nat),
    nth_error (map f (enumerate_from k l)) i
    = option_map (fun x => f (k + i, x)) (nth_error l i).
Proof.
  induction l as [|x l IH]; intros k i; simpl.
  - destruct i; reflexivity.
  - destruct i as [|i]; simpl.
    + now rewrite Nat.add_0_r.
    + rewrite IH. now replace (S k + i) with (k + S i) by lia.
Qed.

Lemma length_enumerate_from {A} (l : list A) (k : nat) :
  length (enumerate_from k l) = length l.
Proof. revert k. induction l; intros k; simpl; auto. Qed.

(** [str(n)] is the decimal numeral of [n]. *)
Lemma uint_digits (d : Decimal.uint) :
  forall acc,
    forallb is_digit (lit (NilEmpty.string_of_uint d)) = true /\
    fold_left (fun acc c => 10 * acc + digit_value c)
      (lit (NilEmpty.string_of_uint d)) acc
    = Nat.of_uint_acc d acc.
Proof.
  unfold lit.
  induction d as [|d IH|d IH|d IH|d IH|d IH|d IH|d IH|d IH|d IH|d IH];
    intros acc;
    cbn [NilEmpty.string_of_uint list_ascii_of_string forallb fold_left
         Nat.of_uint_acc];
    [split; reflexivity|..];
    rewrite Nat.tail_mul_spec;
    match goal with
    | |- is_digit ?c && _ = true /\ _ =>
        change (is_digit c) with true;
        let v := eval vm_compute in (digit_value c) in
        change (digit_value c) with v
    end;
    cbn [andb];
    match goal with
    | |- _ /\ _ = Nat.of_uint_acc d ?a =>
        destruct (IH a) as [Hd Hv]; split; [exact Hd|];
        rewrite <- Hv; f_equal; lia
    end.
Qed.

Lemma nzhead_not_zero (d u : Decimal.uint) :
  Decimal.nzhead d <> Decimal.D0 u.
Proof.
  induction d; cbn [Decimal.nzhead]; try discriminate. exact IHd.
Qed.

Lemma to_uint_head (n : nat) :
  match Nat.to_uint n with
  | Decimal.Nil => False
  | Decimal.D0 u => u = Decimal.Nil
  | _ => True
  end.
Proof.
  assert (H : Nat.to_uint n = Decimal.unorm (Nat.to_uint n)).
  { rewrite <- DecimalNat.Unsigned.to_of.
    now rewrite DecimalNat.Unsigned.of_to. }
  rewrite H. unfold Decimal.unorm.
  destruct (Decimal.nzhead (Nat.to_uint n)) eqn:E; try exact I.
  - reflexivity.
  - now apply nzhead_not_zero in E.
Qed.

Lemma str_of_nat_numeral (n : nat) : decimal_numeral n (str_of_nat n).
Proof.
  pose proof (to_uint_head n) as Hhead.
  pose proof (DecimalNat.Unsigned.of_to n) as Hval.
  unfold str_of_nat, NilZero.string_of_uint, decimal_numeral, numeral_value.
  destruct (Nat.to_uint n) as [|u|u|u|u|u|u|u|u|u|u] eqn:E;
    [contradiction|..];
    match goal with
    | |- context [lit (NilEmpty.string_of_uint ?d)] =>
        destruct (uint_digits d 0) as [Hd Hv]
    end;
    (split; [unfold lit; cbn [NilEmpty.string_of_uint list_ascii_of_string];
             discriminate|]);
    (split; [exact Hd|]);
    (split; [|rewrite Hv; exact Hval]).
  - subst u. intros r Hr. unfold lit in Hr.
    cbn [NilEmpty.string_of_uint list_ascii_of_string] in Hr.
    now injection Hr as <-.
  - intros r Hr. unfold lit in Hr.
    cbn [NilEmpty.string_of_uint list_ascii_of_string] in Hr. discriminate Hr.
  - intros r Hr. unfold lit in Hr.
    cbn [NilEmpty.string_of_uint list_ascii_of_string] in Hr. discriminate Hr.
  - intros r Hr. unfold lit in Hr.
    cbn [NilEmpty.string_of_uint list_ascii_of_string] in Hr. discriminate Hr.
  - intros r Hr. unfold lit in Hr.
    cbn [NilEmpty.string_of_uint list_ascii_of_string] in Hr. discriminate Hr.
  - intros r Hr. unfold lit in Hr.
    cbn [NilEmpty.string_of_uint list_ascii_of_string] in Hr. discriminate Hr.
  - intros r Hr. unfold lit in Hr.
    cbn [NilEmpty.string_of_uint list_ascii_of_string] in Hr. discriminate Hr.
  - intros r Hr. unfold lit in Hr.
    cbn [NilEmpty.string_of_uint list_ascii_of_string] in Hr. discriminate Hr.
  - intros r Hr. unfold lit in Hr.
    cbn [NilEmpty.string_of_uint list_ascii_of_string] in Hr. discriminate Hr.
  - intros r Hr. unfold lit in Hr.
    cbn [NilEmpty.string_of_uint list_ascii_of_string] in Hr. discriminate Hr.
Qed.

(** The decimal numeral of a number is one string: digit strings of one
    length with one value are equal, and a numeral without a zero in front
    has the length its value needs. *)

Unset Implicit Arguments.

Lemma numeral_value_snoc (s : str) (c : ascii) :
  numeral_value (s ++ [c]) = 10 * numeral_value s + digit_value c.
Proof. unfold numeral_value. now rewrite fold_left_app. Qed.

Lemma digit_value_bound (c : ascii) :
  is_digit c = true -> 48 <= code c /\ digit_value c < 10.
Proof.
  unfold is_digit, digit_value. intros H.
  apply andb_true_iff in H as [H1 H2].
  apply Nat.leb_le in H1. apply Nat.leb_le in H2. lia.
Qed.

Lemma digit_value_inj (c d : ascii) :
  is_digit c = true -> is_digit d = true ->
  digit_value c = digit_value d -> c = d.
Proof.
  intros Hc Hd H.
  apply digit_value_bound in Hc as [Hc _].
  apply digit_value_bound in Hd as [Hd _].
  unfold digit_value, code in *.
  rewrite <- (ascii_nat_embedding c), <- (ascii_nat_embedding d).
  f_equal. lia.
Qed.

Lemma numeral_same_length :
  forall s t : str,
    length s = length t ->
    forallb is_digit s = true -> forallb is_digit t = true ->
    numeral_value s = numeral_value t -> s = t.
Proof.
  induction s as [|c s IH] using rev_ind; intros t Hlen Hs Ht Hv.
  - destruct t; [reflexivity|discriminate Hlen].
  - destruct t as [|d t] using rev_ind.
    + rewrite length_app in Hlen. simpl in Hlen. lia.
    + clear IHt. rewrite !length_app in Hlen. simpl in Hlen.
      rewrite forallb_app in Hs, Ht. simpl in Hs, Ht.
      apply andb_true_iff in Hs as [Hs Hc].
      apply andb_true_iff in Ht as [Ht Hd].
      rewrite andb_true_r in Hc, Hd.
      rewrite !numeral_value_snoc in Hv.
      pose proof (digit_value_bound c Hc) as [_ Bc].
      pose proof (digit_value_bound d Hd) as [_ Bd].
      assert (numeral_value s = numeral_value t) by lia.
      assert (digit_value c = digit_value d) by lia.
      f_equal.
      * apply IH; auto. lia.
      * f_equal. now apply digit_value_inj.
Qed.

Lemma numeral_upper (s : str) :
  forallb is_digit s = true -> numeral_value s < 10 ^ length s.
Proof.
  induction s as [|c s IH] using rev_ind; intros Hs.
  - simpl. unfold numeral_value. simpl. lia.
  - rewrite forallb_app in Hs. simpl in Hs.
    apply andb_true_iff in Hs as [Hs Hc]. rewrite andb_true_r in Hc.
    rewrite numeral_value_snoc, length_app. simpl.
    rewrite Nat.add_1_r, Nat.pow_succ_r'.
    pose proof (digit_value_bound c Hc) as [_ Bc].
    specialize (IH Hs). lia.
Qed.

Lemma numeral_lower (c : ascii) (r : str) :
  forallb is_digit (c :: r) = true -> c <> "0"%char ->
  10 ^ length r <= numeral_value (c :: r).
Proof.
  induction r as [|x r IH] using rev_ind; intros Hs Hc.
  - simpl in Hs. rewrite andb_true_r in Hs.
    unfold numeral_value. simpl.
    destruct (Nat.eq_dec (digit_value c) 0) as [H0|H0]; [|lia].
    exfalso. apply Hc. apply digit_value_inj; auto.
  - change (c :: r ++ [x]) with ((c :: r) ++ [x]) in *.
    rewrite forallb_app in Hs. apply andb_true_iff in Hs as [Hs Hx].
    rewrite numeral_value_snoc, length_app. simpl.
    rewrite Nat.add_1_r, Nat.pow_succ_r'.
    specialize (IH Hs Hc). lia.
Qed.

(** The decimal numeral of a number is one string. *)
Lemma decimal_numeral_unique (n : nat) (s t : str) :
  decimal_numeral n s -> decimal_numeral n t -> s = t.
Proof.
  assert (Hzero : forall u, decimal_numeral 0 u -> u = ["0"%char]).
  { intros u (Hne & Hd & Hz & Hv).
    destruct u as [|c r]; [contradiction|].
    destruct (ascii_dec c "0") as [->|Hc].
    - now rewrite (Hz r eq_refl).
    - pose proof (numeral_lower c r Hd Hc) as H.
      pose proof (Nat.pow_nonzero 10 (length r)). lia. }
  intros Hs Ht.
  destruct (Nat.eq_dec n 0) as [->|Hn].
  { now rewrite (Hzero s Hs), (Hzero t Ht). }
  destruct Hs as (Hsne & Hsd & Hsz & Hsv), Ht as (Htne & Htd & Htz & Htv).
  assert (Hlead : forall u, u <> [] -> forallb is_digit u = true ->
            (forall r, u = "0"%char :: r -> r = []) -> numeral_value u = n ->
            10 ^ (length u - 1) <= n).
  { intros u Hne Hd Hz Hv. destruct u as [|c r]; [contradiction|].
    destruct (ascii_dec c "0") as [->|Hc].
    - rewrite (Hz r eq_refl) in Hv. vm_compute in Hv. lia.
    - rewrite <- Hv. simpl. rewrite Nat.sub_0_r. now apply numeral_lower. }
  pose proof (Hlead s Hsne Hsd Hsz Hsv) as Ls.
  pose proof (Hlead t Htne Htd Htz Htv) as Lt.
  pose proof (numeral_upper s Hsd) as Us. rewrite Hsv in Us.
  pose proof (numeral_upper t Htd) as Ut. rewrite Htv in Ut.
  assert (Hlen : length s = length t).
  { destruct (Nat.lt_trichotomy (length s) (length t)) as [H|[H|H]]; auto.
    - assert (10 ^ length s <= 10 ^ (length t - 1))
        by (apply Nat.pow_le_mono_r; lia). lia.
    - assert (10 ^ length t <= 10 ^ (length s - 1))
        by (apply Nat.pow_le_mono_r; lia). lia. }
  apply numeral_same_length; auto. congruence.
Qed.

Set Implicit Arguments.

Section SessionClaims.

Context {E : Externals}.

(** C1. [extract_content] never raises. When a call made during the
    conversion or the saving of an image fails, it returns [None]; when it
    returns a record, every call returned, and the record holds one image
    record for each image the converter supplied, each saved by a call of
    [image.save] that returned. *)
Theorem extract_content_all_or_nothing (self : LightweightExtractor)
    (w : World) (r : result (option (dict float))) (w' : World) :
  extract_content self w = (r, w') ->
  exists r0 cs,
    r = Ok r0 /\ calls w' = calls w ++ cs /\
    ((exists c, In (c, false) cs) -> r0 = None) /\
    (forall content, r0 = Some content ->
       Forall succeeded cs /\
       exists text images,
         conversion self (os w) = Ok (text, images) /\
         lookup (lit "full_text") content = Some (PStr text) /\
         lookup (lit "images") content
         = Some (PList (map (image_record self text) (enumerate images))) /\
         forall item, In item images -> In (save_call self item) cs).
Proof.
  intros H.
  destruct (performs_extract_body _ _ H) as (r0 & cs & -> & Hcs & _ & Hr0).
  exists r0, cs.
  split; [reflexivity|]. split; [exact Hcs|]. split.
  - intros (c & Hc). destruct r0 as [content|]; [|reflexivity].
    rewrite Forall_forall in Hr0. specialize (Hr0 _ Hc). discriminate Hr0.
  - intros content ->. split; [exact Hr0|].
    destruct (extract_content_some _ _ H)
      as (text & images & t0 & t1 & now & Hconv & -> & Hcalls).
    exists text, images.
    split; [exact Hconv|]. split; [reflexivity|]. split; [reflexivity|].
    intros item Hitem. rewrite Hcs in Hcalls.
    apply app_inv_head in Hcalls. subst cs.
    apply in_or_app. right. now apply in_map.
Qed.

(** C6. A record of [extract_content] holds, for the [N] images the
    converter supplied, [N] image records in the converter's order; the
    record at position [i], counted from 0, has the id [fig] followed by
    the decimal numeral of [i + 1], so the ids are [fig1] to [figN], and
    it has the file name of the image at position [i]. *)
Theorem extract_content_numbers_images (self : LightweightExtractor)
    (w w' : World) (content : dict float) :
  extract_content self w = (Ok (Some content), w') ->
  exists text images image_list,
    conversion self (os w) = Ok (text, images) /\
    lookup (lit "images") content = Some (PList image_list) /\
    length image_list = length images /\
    forall i filename image,
      nth_error images i = Some (filename, image) ->
      exists number path caption,
        decimal_numeral (i + 1) number /\
        nth_error image_list i
        = Some (PDict [ (lit "id", PStr (lit "fig" ++ number));
                        (lit "filename", PStr filename);
                        (lit "path", PStr path);
                        (lit "caption", PStr caption) ]).
Proof.
  intros H.
  destruct (extract_content_some _ _ H)
    as (text & images & t0 & t1 & now & Hconv & -> & _).
  exists text, images, (map (image_record self text) (enumerate images)).
  split; [exact Hconv|]. split; [reflexivity|]. split.
  - unfold enumerate. now rewrite length_map, length_enumerate_from.
  - intros i filename image Hi. unfold enumerate.
    rewrite nth_error_map_enumerate, Hi. cbn [option_map Nat.add].
    unfold image_record. cbn [fst snd].
    exists (str_of_nat (i + 1)). eexists. eexists.
    split; [apply str_of_nat_numeral|reflexivity].
Qed.

(** The image directory of a session does not depend on the output
    directory it was given. *)
Lemma init_image_directory (pdf out : str) (w : World)
    (self : LightweightExtractor) (w' : World) :
  __init__ pdf out w = (Ok self, w') ->
  output_dir self = out /\
  img_dir self = Path.join (lit "output") [lit "images"; session_id self] /\
  exists cs,
    calls w' = calls w ++ [ (CallMakedirs out, true);
                            (CallMakedirs (img_dir self), true) ] ++ cs.
Proof.
  unfold __init__. unfold bind at 1. unfold total at 1.
  destruct (datetime_now (os w)) as [now o1].
  unfold bind at 1. unfold external at 1. cbn [os calls log].
  destruct (os_makedirs out o1) as [[[]|e] o2];
    [|intros H; discriminate H].
  unfold bind at 1. unfold external at 1. cbn [os calls log].
  match goal with
  | |- context [os_makedirs ?d o2] =>
      destruct (os_makedirs d o2) as [[[]|e] o3];
        [|intros H; discriminate H]
  end.
  unfold bind at 1.
  match goal with
  | |- context [_setup_marker_models ?w0] =>
      destruct (_setup_marker_models w0) as [[[]|e] w3] eqn:Es;
        [|intros H; discriminate H]
  end.
  unfold ret. intros H. injection H as <- <-. cbn.
  repeat split.
  assert (Hp : performs (fun _ => True) _setup_marker_models).
  { unfold _setup_marker_models.
    apply performs_bind; [apply performs_external; exact I|]. intros _.
    apply performs_for_each. intros s a.
    apply performs_bind; [apply performs_external; exact I|]. intros v.
    apply performs_if; [apply performs_external; exact I|apply performs_ret]. }
  destruct (Hp _ _ _ Es) as (cs & -> & _). cbn [calls is_ok].
  exists cs. now rewrite <- !app_assoc.
Qed.

(** C9. [cleanup_temp_files] never raises. Without an image directory it
    leaves the world as it is. With one, it calls [shutil.rmtree] on it
    once and takes the file system that call leaves, and an exception of
    that call is logged as a warning. A second call never raises either,
    and when the first has left no image directory the second leaves the
    world as it is. *)
Theorem cleanup_twice_is_safe (self : LightweightExtractor) (w : World) :
  exists w1,
    cleanup_temp_files self w = (Ok tt, w1) /\
    (os_path_exists (img_dir self) (os w) = false -> w1 = w) /\
    (os_path_exists (img_dir self) (os w) = true ->
       os w1 = snd (shutil_rmtree (img_dir self) (os w)) /\
       calls w1
       = calls w ++
         [(CallRmtree (img_dir self),
           is_ok (fst (shutil_rmtree (img_dir self) (os w))))] /\
       forall e, fst (shutil_rmtree (img_dir self) (os w)) = Raise e ->
         log w1 = log w ++ [ (Info, MsgCleaning (img_dir self));
                             (Warning, MsgCleanupError e) ]) /\
    exists w2,
      cleanup_temp_files self w1 = (Ok tt, w2) /\
      (os_path_exists (img_dir self) (os w1) = false -> w2 = w1).
Proof.
  assert (Hone : forall w0, exists w1,
            cleanup_temp_files self w0 = (Ok tt, w1) /\
            (os_path_exists (img_dir self) (os w0) = false -> w1 = w0) /\
            (os_path_exists (img_dir self) (os w0) = true ->
             os w1 = snd (shutil_rmtree (img_dir self) (os w0)) /\
             calls w1
             = calls w0 ++
               [(CallRmtree (img_dir self),
                 is_ok (fst (shutil_rmtree (img_dir self) (os w0))))] /\
             forall e, fst (shutil_rmtree (img_dir self) (os w0)) = Raise e ->
               log w1 = log w0 ++ [ (Info, MsgCleaning (img_dir self));
                                    (Warning, MsgCleanupError e) ])).
  { intros w0. unfold cleanup_temp_files.
    destruct (os_path_exists (img_dir self) (os w0)) eqn:Ex.
    - unfold try_except, bind, logger, external. cbn [os calls log].
      destruct (shutil_rmtree (img_dir self) (os w0)) as [[[]|e] o1];
        cbn [os calls log fst snd is_ok].
      + eexists. split; [reflexivity|]. split; [discriminate|].
        intros _. cbn. repeat split. intros e He. discriminate He.
      + eexists. split; [reflexivity|]. split; [discriminate|].
        intros _. cbn. repeat split. intros e' He. injection He as <-.
        now rewrite <- app_assoc.
    - exists w0. split; [reflexivity|]. split; [reflexivity|discriminate]. }
  destruct (Hone w) as (w1 & H1 & Hno & Hyes).
  exists w1. repeat split; auto.
  - now apply Hyes.
  - now apply Hyes.
  - now apply Hyes.
  - destruct (Hone w1) as (w2 & H2 & Hno2 & _). exists w2. auto.
Qed.

(** C10. When [extract_content] returns [None], the convenience function
    returns the pair [(None, None)] and stops in the world
    [extract_content] left: since the call of the function, nothing was
    written and nothing removed, whatever [cleanup_temp] is, and the image
    directory was made. *)
Theorem no_content_no_save_no_cleanup (pdf out : str) (cleanup_temp : bool)
    (w w0 w1 : World) (self : LightweightExtractor) :
  __init__ pdf out w = (Ok self, w0) ->
  extract_content self w0 = (Ok None, w1) ->
  extract_lightweight_content pdf out cleanup_temp w
  = (Ok (None, None), w1) /\
  exists cs,
    calls w1 = calls w ++ cs /\
    Forall (fun cb => ~ writes_or_removes (fst cb)) cs /\
    In (CallMakedirs (img_dir self), true) cs.
Proof.
  intros Hinit Hext. split.
  - unfold extract_lightweight_content, bind. now rewrite Hinit, Hext.
  - assert (Hp : performs (fun c => ~ writes_or_removes c)
                   (__init__ pdf out)).
    { unfold __init__, _setup_marker_models.
      repeat first
        [ apply performs_bind; [|intros ?]
        | apply performs_total
        | apply performs_external; simpl; tauto
        | apply performs_for_each; intros
        | apply performs_if
        | apply performs_ret ]. }
    destruct (Hp _ _ _ Hinit) as (cs0 & Hcs0 & HP0 & _).
    destruct (performs_extract_body _ _ Hext)
      as (r0 & cs1 & _ & Hcs1 & HP1 & _).
    exists (cs0 ++ cs1). rewrite Hcs1, Hcs0, app_assoc. repeat split.
    + apply Forall_app. split; [exact HP0|].
      eapply Forall_impl; [|exact HP1].
      intros [c b]. simpl. destruct c; simpl; tauto.
    + apply in_or_app. left.
      destruct (init_image_directory _ _ _ Hinit) as (_ & _ & cs & Hin).
      rewrite Hcs0 in Hin. apply app_inv_head in Hin. subst cs0.
      right. now left.
Qed.

End SessionClaims.

(** ** The claims of the session in the small world *)

Module DemoRuns.

Import Demo.

(** [rgba.pdf]: the first figure is saved, the second cannot be, and no
    record is returned. *)
Lemma extract_content_all_or_nothing_witness :
  exists w',
    extract_content (session "rgba.pdf") w0 = (Ok None, w') /\
    In (CallImageSave (lit "output/images/20240101_120000/img1.png"), true)
       (calls w') /\
    exists r0 cs,
      Ok None = Ok r0 /\ calls w' = calls w0 ++ cs /\
      ((exists c, In (c, false) cs) -> r0 = None) /\
      (forall content, r0 = Some content ->
         Forall succeeded cs /\
         exists text images,
           conversion (session "rgba.pdf") (os w0) = Ok (text, images) /\
           lookup (lit "full_text") content = Some (PStr text) /\
           lookup (lit "images") content
           = Some (PList (map (image_record (session "rgba.pdf") text)
                            (enumerate images))) /\
           forall item, In item images ->
             In (save_call (session "rgba.pdf") item) cs).
Proof.
  eexists. split; [vm_compute; reflexivity|]. split.
  - vm_compute. tauto.
  - apply (@extract_content_all_or_nothing world (session "rgba.pdf") w0).
    vm_compute. reflexivity.
Defined.

(** [ok.pdf]: two images, with the ids [fig1] and [fig2]. *)
Lemma extract_content_numbers_images_witness :
  exists content w',
    extract_content (session "ok.pdf") w0 = (Ok (Some content), w') /\
    lookup (lit "images") content
    = Some (PList
              [ PDict [ (lit "id", PStr (lit "fig1"));
                        (lit "filename", PStr (lit "img1.png"));
                        (lit "path",
                         PStr (lit "output/images/20240101_120000/img1.png"));
                        (lit "caption", PStr (lit "Overview")) ];
                PDict [ (lit "id", PStr (lit "fig2"));
                        (lit "filename", PStr (lit "img2.png"));
                        (lit "path",
                         PStr (lit "output/images/20240101_120000/img2.png"));
                        (lit "caption", PStr (lit "Result overview")) ] ]) /\
    exists text images image_list,
      conversion (session "ok.pdf") (os w0) = Ok (text, images) /\
      lookup (lit "images") content = Some (PList image_list) /\
      length image_list = length images /\
      forall i filename image,
        nth_error images i = Some (filename, image) ->
        exists number path caption,
          decimal_numeral (i + 1) number /\
          nth_error image_list i
          = Some (PDict [ (lit "id", PStr (lit "fig" ++ number));
                          (lit "filename", PStr filename);
                          (lit "path", PStr path);
                          (lit "caption", PStr caption) ]).
Proof.
  eexists. eexists. split; [vm_compute; reflexivity|].
  split; [vm_compute; reflexivity|].
  eapply (@extract_content_numbers_images world (session "ok.pdf") w0).
  vm_compute. reflexivity.
Defined.

(** C7: a session made for the output directory [out] keeps its images
    under [output], and [out] is no part of the path of an image. *)
Lemma image_directory_not_under_output_dir :
  exists self w',
    __init__ (lit "ok.pdf") (lit "out") w0 = (Ok self, w') /\
    output_dir self = lit "out" /\
    img_dir self = lit "output/images/20240101_120000" /\
    Path.join (img_dir self) [lit "img1.png"]
    = lit "output/images/20240101_120000/img1.png" /\
    Path.join (img_dir self) [lit "img1.png"]
    <> lit "out/images/20240101_120000/img1.png".
Proof.
  eexists. eexists. split; [vm_compute; reflexivity|].
  repeat split; try reflexivity. vm_compute. discriminate.
Qed.

(** After the extraction of [ok.pdf] the first cleanup removes the image
    directory, and the second changes nothing. *)
Lemma cleanup_twice_is_safe_witness :
  exists w1,
    os_path_exists (img_dir (session "ok.pdf")) (os extracted) = true /\
    cleanup_temp_files (session "ok.pdf") extracted = (Ok tt, w1) /\
    os_path_exists (img_dir (session "ok.pdf")) (os w1) = false /\
    cleanup_temp_files (session "ok.pdf") w1 = (Ok tt, w1).
Proof.
  destruct (@cleanup_twice_is_safe world (session "ok.pdf") extracted)
    as (w1 & H1 & Hno & Hyes & w2 & H2 & Hno2).
  assert (Hex : os_path_exists (img_dir (session "ok.pdf")) (os extracted)
                = true) by (vm_compute; reflexivity).
  destruct (Hyes Hex) as (Hos & _).
  assert (Hgone : os_path_exists (img_dir (session "ok.pdf")) (os w1)
                  = false) by (rewrite Hos; vm_compute; reflexivity).
  exists w1. split; [exact Hex|]. split; [exact H1|].
  split; [exact Hgone|]. rewrite H2. f_equal. exact (Hno2 Hgone).
Defined.

(** A document the converter cannot open: nothing is extracted, nothing
    saved, nothing cleaned up. *)
Lemma no_content_no_save_no_cleanup_witness :
  exists self w1 w2,
    __init__ (lit "missing.pdf") (lit "out") w0 = (Ok self, w1) /\
    extract_content self w1 = (Ok None, w2) /\
    extract_lightweight_content (lit "missing.pdf") (lit "out") true w0
    = (Ok (None, None), w2) /\
    exists cs,
      calls w2 = calls w0 ++ cs /\
      Forall (fun cb => ~ writes_or_removes (fst cb)) cs /\
      In (CallMakedirs (img_dir self), true) cs.
Proof.
  eexists. eexists. eexists.
  split; [vm_compute; reflexivity|].
  split; [vm_compute; reflexivity|].
  eapply (@no_content_no_save_no_cleanup world (lit "missing.pdf")
            (lit "out") true w0); vm_compute; reflexivity.
Defined.

End DemoRuns.

(** ** The persisted document: [json.dump] and [json.load] *)

Module JsonFacts.

Import Json JsonDoc.

(** An escaped character is read back as the character. *)
Lemma scan_string_encode_char (c : ascii) (t : str) :
  scan_string (encode_char c ++ t)
  = match scan_string t with
    | Some (u, rest) => Some (c :: u, rest)
    | None => None
    end.
Proof.
  destruct c as [[] [] [] [] [] [] [] []]; reflexivity.
Qed.

Lemma scan_string_encode (s rest : str) :
  scan_string (flat_map encode_char s ++ dquote :: rest) = Some (s, rest).
Proof.
  induction s as [|c s IH]; [reflexivity|].
  cbn [flat_map]. rewrite <- app_assoc, scan_string_encode_char.
  now rewrite IH.
Qed.

Lemma skip_ws_spaces (n : nat) (x : str) :
  skip_ws (repeat " "%char n ++ x) = skip_ws x.
Proof. induction n as [|n IH]; [reflexivity|exact IH]. Qed.

Lemma skip_ws_newline_indent (level : nat) (x : str) :
  skip_ws (newline_indent level ++ x) = skip_ws x.
Proof.
  unfold newline_indent.
  change ((newline :: repeat " "%char (2 * level)) ++ x)
    with (newline :: (repeat " "%char (2 * level) ++ x)).
  change (skip_ws (newline :: ?y)) with (skip_ws y).
  apply skip_ws_spaces.
Qed.

(** Induction on a value, with the hypothesis for every item of a list
    and of a dict. *)
Lemma pyval_induction (float : Type) (P : pyval float -> Prop) :
  P PNone ->
  (forall b, P (PBool b)) ->
  (forall s, P (PStr s)) ->
  (forall f, P (PFloat f)) ->
  (forall l, Forall P l -> P (PList l)) ->
  (forall d, Forall (fun kv => P (snd kv)) d -> P (PDict d)) ->
  forall v, P v.
Proof.
  intros HN HB HS HF HL HD.
  fix IH 1. intros [ |b|s|f|l|d].
  - exact HN.
  - apply HB.
  - apply HS.
  - apply HF.
  - apply HL. induction l as [|x l IHl]; constructor;
      [apply IH|exact IHl].
  - apply HD. induction d as [|[k x] d IHd]; constructor;
      [apply IH|exact IHd].
Qed.

Lemma value_head_plain (c : ascii) :
  value_head c = true ->
  is_ws c = false /\ eqc c "]" = false /\ eqc c "}" = false.
Proof.
  destruct c as [[] [] [] [] [] [] [] []]; intros H;
    first [ discriminate H | repeat split; reflexivity ].
Qed.

Lemma skip_ws_value (c : ascii) (r : str) :
  value_head c = true -> skip_ws (c :: r) = c :: r.
Proof.
  intros H. apply value_head_plain in H as (H & _). simpl. now rewrite H.
Qed.

Lemma dict_set_fresh {A} (key : str) (v : A) (d : list (str * A)) :
  ~ In key (map fst d) -> dict_set key v d = d ++ [(key, v)].
Proof.
  induction d as [|[k x] d IH]; simpl; intros H; [reflexivity|].
  destruct (list_eq_dec ascii_dec k key) as [->|Hne].
  - exfalso. apply H. now left.
  - rewrite IH; [reflexivity|]. intros Hin. apply H. now right.
Qed.

Lemma dict_of_pairs_distinct {A} (d : list (str * A)) :
  NoDup (map fst d) -> dict_of_pairs d = d.
Proof.
  unfold dict_of_pairs.
  assert (H : forall (d acc : list (str * A)),
            NoDup (map fst (acc ++ d)) ->
            fold_left (fun d0 kv => dict_set (fst kv) (snd kv) d0) d acc
            = acc ++ d).
  { clear d. induction d as [|[k x] d IH]; intros acc Hnd; simpl.
    - now rewrite app_nil_r.
    - rewrite dict_set_fresh.
      + rewrite IH; rewrite <- app_assoc; [reflexivity|exact Hnd].
      + rewrite map_app in Hnd. simpl in Hnd.
        apply NoDup_remove_2 in Hnd. intros Hin. apply Hnd.
        apply in_or_app. now left. }
  intros Hnd. exact (H d [] Hnd).
Qed.

Section RoundTrip.

Variable float : Type.
Variable floatstr : float -> str.
Variable scan_float : str -> option (float * str).

(** The text of a float starts as a number or a name does, and the decoder
    reads it back when a comma, a line break or nothing follows it. *)
Hypothesis floatstr_head :
  forall f, exists c s, floatstr f = c :: s /\ float_head c = true.
Hypothesis scan_floatstr :
  forall f rest, value_end rest ->
    scan_float (floatstr f ++ rest) = Some (f, rest).

Local Notation "'dump'" := (dumps_at floatstr).
Local Notation "'scan'" := (scan_once scan_float).

Lemma dump_list_cons (level : nat) (x : pyval float) (l : list (pyval float)) :
  dump level (PList (x :: l))
  = lit "[" ++ newline_indent (S level) ++ dump (S level) x
    ++ list_tail floatstr level l ++ newline_indent level ++ lit "]".
Proof. reflexivity. Qed.

Lemma dump_dict_cons (level : nat) (k : str) (x : pyval float)
    (d : list (str * pyval float)) :
  dump level (PDict ((k, x) :: d))
  = lit "{" ++ newline_indent (S level) ++ encode_string k ++ lit ": "
    ++ dump (S level) x ++ dict_tail floatstr level d
    ++ newline_indent level ++ lit "}".
Proof. reflexivity. Qed.

Lemma dump_head (v : pyval float) (level : nat) :
  exists c r, dump level v = c :: r /\ value_head c = true.
Proof.
  destruct v as [ |[]|s|f|[|x l]|[|[k x] d]];
    try (eexists; eexists; split; [reflexivity|reflexivity]).
  destruct (floatstr_head f) as (c & r & Hf & Hc).
  exists c, r. split; [exact Hf|].
  unfold value_head. rewrite Hc. now rewrite !orb_true_r.
Qed.

Lemma skip_ws_dump (v : pyval float) (level : nat) (rest : str) :
  skip_ws (dump level v ++ rest) = dump level v ++ rest.
Proof.
  destruct (dump_head v level) as (c & r & -> & Hc).
  now apply skip_ws_value.
Qed.

Lemma scan_float_head (fuel : nat) (c : ascii) (r : str) :
  float_head c = true ->
  scan (S fuel) (c :: r)
  = match scan_float (c :: r) with
    | Some (f, rest) => Some (PFloat f, rest)
    | None => None
    end.
Proof.
  destruct c as [[] [] [] [] [] [] [] []]; intros H;
    first [ discriminate H | reflexivity ].
Qed.

Lemma value_end_newline_indent (level : nat) (x : str) :
  value_end (newline_indent level ++ x).
Proof. simpl. now right. Qed.

Lemma value_end_comma (x : str) : value_end (lit "," ++ x).
Proof. simpl. now left. Qed.

Lemma expect_here (c : ascii) (x : str) : expect c (c :: x) = Some x.
Proof. simpl. now rewrite eqc_refl. Qed.

Lemma array_items_dump (level : nat) (rest : str) :
  forall (l : list (pyval float)) (x : pyval float)
         (acc : list (pyval float)) (fuel : nat),
    reads_back floatstr scan_float x ->
    Forall (reads_back floatstr scan_float) l ->
    distinct_keys x -> Forall (@distinct_keys float) l ->
    S (weight x) + list_weight l <= fuel ->
    array_items scan_float fuel
      (dump (S level) x ++ list_tail floatstr level l
       ++ newline_indent level ++ lit "]" ++ rest) acc
    = Some (acc ++ x :: l, rest).
Proof.
  induction l as [|y l IH]; intros x acc fuel Hx Hl Dx Dl Hfuel;
    (destruct fuel as [|fuel]; [simpl in Hfuel; lia|]);
    cbn [array_items].
  - cbn [list_tail app].
    rewrite (Hx (S level) _ fuel Dx);
      [|simpl in Hfuel; lia|apply value_end_newline_indent].
    rewrite skip_ws_newline_indent.
    change (skip_ws (lit "]" ++ rest)) with ("]"%char :: rest).
    now rewrite expect_here.
  - inversion Hl as [|? ? Hy Hl']. subst.
    inversion Dl as [|? ? Dy Dl']. subst.
    change (list_tail floatstr level (y :: l))
      with (lit "," ++ newline_indent (S level) ++ dump (S level) y
            ++ list_tail floatstr level l).
    change (list_weight (y :: l)) with (S (weight y) + list_weight l)
      in Hfuel.
    rewrite <- !app_assoc.
    rewrite (Hx (S level) _ fuel Dx); [|lia|apply value_end_comma].
    change (skip_ws (lit "," ++ ?z)) with (","%char :: z).
    change (expect "]" (","%char :: ?z)) with (@None str).
    rewrite expect_here, skip_ws_newline_indent, skip_ws_dump.
    rewrite (IH y (acc ++ [x]) fuel Hy Hl' Dy Dl'); [|lia].
    now rewrite <- app_assoc.
Qed.

Lemma object_items_dump (level : nat) (rest : str) :
  forall (d : list (str * pyval float)) (k : str) (x : pyval float)
         (acc : list (str * pyval float)) (fuel : nat),
    reads_back floatstr scan_float x ->
    Forall (fun kv => reads_back floatstr scan_float (snd kv)) d ->
    distinct_keys x -> Forall (fun kv => distinct_keys (snd kv)) d ->
    S (weight x) + dict_weight d <= fuel ->
    object_items scan_float fuel
      (encode_string k ++ lit ": " ++ dump (S level) x
       ++ dict_tail floatstr level d
       ++ newline_indent level ++ lit "}" ++ rest) acc
    = Some (acc ++ (k, x) :: d, rest).
Proof.
  induction d as [|[k' y] d IH]; intros k x acc fuel Hx Hd Dx Dd Hfuel;
    (destruct fuel as [|fuel]; [simpl in Hfuel; lia|]);
    cbn [object_items]; unfold encode_string;
    cbn [app]; rewrite expect_here, <- app_assoc;
    cbn [app]; rewrite scan_string_encode;
    change (skip_ws (lit ": " ++ ?z)) with (":"%char :: " "%char :: z);
    rewrite expect_here;
    change (skip_ws (" "%char :: ?z)) with (skip_ws z).
  - cbn [dict_tail app].
    rewrite skip_ws_dump.
    rewrite (Hx (S level) _ fuel Dx);
      [|simpl in Hfuel; lia|apply value_end_newline_indent].
    rewrite skip_ws_newline_indent.
    change (skip_ws (lit "}" ++ rest)) with ("}"%char :: rest).
    now rewrite expect_here.
  - inversion Hd as [|? ? Hy Hd']. subst.
    inversion Dd as [|? ? Dy Dd']. subst. simpl in Hy, Dy.
    change (dict_tail floatstr level ((k', y) :: d))
      with (lit "," ++ newline_indent (S level) ++ encode_string k'
            ++ lit ": " ++ dump (S level) y ++ dict_tail floatstr level d).
    change (dict_weight ((k', y) :: d)) with (S (weight y) + dict_weight d)
      in Hfuel.
    rewrite <- !app_assoc. rewrite skip_ws_dump.
    rewrite (Hx (S level) _ fuel Dx); [|lia|apply value_end_comma].
    change (skip_ws (lit "," ++ ?z)) with (","%char :: z).
    change (expect "}" (","%char :: ?z)) with (@None str).
    rewrite expect_here, skip_ws_newline_indent.
    change (skip_ws (encode_string k' ++ ?z)) with (encode_string k' ++ z).
    rewrite (IH k' y (acc ++ [(k, x)]) fuel Hy Hd' Dy Dd'); [|lia].
    now rewrite <- app_assoc.
Qed.

Lemma scan_list_open (fuel : nat) (z : str) :
  scan (S fuel) ("["%char :: z)
  = match expect "]" (skip_ws z) with
    | Some rest => Some (PList [], rest)
    | None =>
        match array_items scan_float fuel (skip_ws z) [] with
        | Some (values, rest) => Some (PList values, rest)
        | None => None
        end
    end.
Proof. reflexivity. Qed.

Lemma scan_dict_open (fuel : nat) (z : str) :
  scan (S fuel) ("{"%char :: z)
  = match expect "}" (skip_ws z) with
    | Some rest => Some (PDict [], rest)
    | None =>
        match object_items scan_float fuel (skip_ws z) [] with
        | Some (pairs, rest) => Some (PDict (dict_of_pairs pairs), rest)
        | None => None
        end
    end.
Proof. reflexivity. Qed.

Lemma scan_string_open (fuel : nat) (z : str) :
  scan (S fuel) (dquote :: z)
  = match scan_string z with
    | Some (t, rest) => Some (PStr t, rest)
    | None => None
    end.
Proof. reflexivity. Qed.

Lemma expect_close_dump (v : pyval float) (level : nat) (z : str) :
  expect "]" (dump level v ++ z) = None.
Proof.
  destruct (dump_head v level) as (c & r & -> & Hc).
  apply value_head_plain in Hc as (_ & Hc & _). simpl. now rewrite Hc.
Qed.

Theorem dump_reads_back : forall v, reads_back floatstr scan_float v.
Proof.
  apply pyval_induction; unfold reads_back.
  - intros level rest [|fuel] _ Hw _; [simpl in Hw; lia|reflexivity].
  - intros [] level rest [|fuel] _ Hw _;
      first [simpl in Hw; lia|reflexivity].
  - intros s level rest [|fuel] _ Hw _; [simpl in Hw; lia|].
    cbn [dumps_at]. unfold encode_string. cbn [app].
    rewrite scan_string_open, <- app_assoc. cbn [app].
    now rewrite scan_string_encode.
  - intros f level rest [|fuel] _ Hw Hend; [simpl in Hw; lia|].
    cbn [dumps_at].
    pose proof (scan_floatstr f rest Hend) as Hscan.
    destruct (floatstr_head f) as (c & r & Hf & Hc).
    rewrite Hf in Hscan |- *. cbn [app] in Hscan |- *.
    now rewrite scan_float_head, Hscan.
  - intros [|x l] Hl level rest [|fuel] Dk Hw Hend;
      try (simpl in Hw; lia); [reflexivity|].
    inversion Hl as [|? ? Hx Hl']. subst.
    inversion Dk as [ | | | |? Dl| ]. subst.
    inversion Dl as [|? ? Dx Dl']. subst.
    rewrite dump_list_cons.
    change (lit "[" ++ ?z) with ("["%char :: z).
    cbn [app]. rewrite scan_list_open, <- !app_assoc.
    rewrite skip_ws_newline_indent, skip_ws_dump, expect_close_dump.
    change (weight (PList (x :: l))) with (S (S (weight x) + list_weight l))
      in Hw.
    rewrite (@array_items_dump level rest l x [] fuel Hx Hl' Dx Dl');
      [reflexivity|lia].
  - intros [|[k x] d] Hd level rest [|fuel] Dk Hw Hend;
      try (simpl in Hw; lia); [reflexivity|].
    inversion Hd as [|? ? Hx Hd']. subst.
    inversion Dk as [ | | | | |? Hnd Dd]. subst.
    inversion Dd as [|? ? Dx Dd']. subst.
    rewrite dump_dict_cons.
    change (lit "{" ++ ?z) with ("{"%char :: z).
    cbn [app]. rewrite scan_dict_open, <- !app_assoc.
    rewrite skip_ws_newline_indent.
    change (skip_ws (encode_string k ++ ?z)) with (encode_string k ++ z).
    change (expect "}" (encode_string k ++ ?z)) with (@None str).
    change (weight (PDict ((k, x) :: d)))
      with (S (S (weight x) + dict_weight d)) in Hw.
    rewrite (@object_items_dump level rest d k x [] fuel Hx Hd' Dx Dd');
      [|lia].
    cbn [app]. now rewrite dict_of_pairs_distinct.
Qed.

Lemma length_newline_indent (level : nat) :
  1 <= length (newline_indent level).
Proof. simpl. lia. Qed.

Lemma weight_le_length : forall v level, weight v <= length (dump level v).
Proof.
  apply (@pyval_induction float
           (fun v => forall level, weight v <= length (dump level v))).
  - intros level. simpl. lia.
  - intros [] level; simpl; lia.
  - intros s level. simpl. lia.
  - intros f level. cbn [dumps_at weight].
    destruct (floatstr_head f) as (c & r & -> & _). simpl. lia.
  - intros [|x l] Hl level; [simpl; lia|].
    inversion Hl as [|? ? Hx Hl']. subst.
    rewrite dump_list_cons.
    change (weight (PList (x :: l))) with (S (S (weight x) + list_weight l)).
    assert (Ht : list_weight l <= length (list_tail floatstr level l)).
    { clear Hl Hx. induction Hl' as [|y l Hy _ IH]; [simpl; lia|].
      change (list_weight (y :: l)) with (S (weight y) + list_weight l).
      change (list_tail floatstr level (y :: l))
        with (lit "," ++ newline_indent (S level) ++ dump (S level) y
              ++ list_tail floatstr level l).
      rewrite !length_app. specialize (Hy (S level)).
      pose proof (length_newline_indent (S level)).
      change (length (lit ",")) with 1. lia. }
    rewrite !length_app. specialize (Hx (S level)).
    pose proof (length_newline_indent (S level)).
    pose proof (length_newline_indent level).
    change (length (lit "[")) with 1. change (length (lit "]")) with 1. lia.
  - intros [|[k x] d] Hd level; [simpl; lia|].
    inversion Hd as [|? ? Hx Hd']. subst. simpl in Hx.
    rewrite dump_dict_cons.
    change (weight (PDict ((k, x) :: d)))
      with (S (S (weight x) + dict_weight d)).
    assert (Ht : dict_weight d <= length (dict_tail floatstr level d)).
    { clear Hd Hx. induction Hd' as [|[k' y] d Hy _ IH]; [simpl; lia|].
      simpl in Hy.
      change (dict_weight ((k', y) :: d)) with (S (weight y) + dict_weight d).
      change (dict_tail floatstr level ((k', y) :: d))
        with (lit "," ++ newline_indent (S level) ++ encode_string k'
              ++ lit ": " ++ dump (S level) y ++ dict_tail floatstr level d).
      rewrite !length_app. specialize (Hy (S level)).
      change (length (lit ",")) with 1. lia. }
    rewrite !length_app. specialize (Hx (S level)).
    pose proof (length_newline_indent (S level)).
    change (length (lit "{")) with 1. change (length (lit "}")) with 1. lia.
Qed.

(** [json.loads(json.dumps(v, ensure_ascii=False, indent=2)) == v]. *)
Theorem loads_dumps (v : pyval float) :
  distinct_keys v -> loads scan_float (dumps floatstr v) = Some v.
Proof.
  intros Dk. unfold loads, dumps.
  rewrite <- (app_nil_r (dump 0 v)) at 2.
  rewrite skip_ws_dump, app_nil_r.
  rewrite <- (app_nil_r (dump 0 v)) at 2.
  rewrite (@dump_reads_back v 0 [] _ Dk); [reflexivity| |exact I].
  pose proof (weight_le_length v 0). lia.
Qed.

End RoundTrip.

End JsonFacts.

(** ** Saving a record and loading it back *)

Ltac distinct_literals :=
  vm_compute;
  repeat (constructor; [simpl; intuition discriminate|]);
  constructor.

Section SaveLoad.

Context {E : Externals}.

(** What the module needs of the outside world for a saved record to be
    read back: the text of a float is read back as that float, and a file
    holds what was written into it. *)
Hypothesis floatstr_head :
  forall f : float,
    exists c s, floatstr f = c :: s /\ JsonDoc.float_head c = true.
Hypothesis scan_floatstr :
  forall (f : float) (rest : str),
    JsonDoc.value_end rest ->
    scan_float (floatstr f ++ rest) = Some (f, rest).
Hypothesis read_after_write :
  forall (p s : str) (o o' : OS),
    write_file p s o = (Ok tt, o') -> read_file p o' = Ok s.

Lemma extract_content_shape (self : LightweightExtractor) (w w' : World)
    (content : dict float) :
  extract_content self w = (Ok (Some content), w') ->
  map fst content = record_keys /\
  (exists image_list,
     lookup (lit "images") content = Some (PList image_list) /\
     Forall is_image_record image_list) /\
  JsonDoc.distinct_keys (PDict content).
Proof.
  intros H.
  destruct (extract_content_some _ _ H)
    as (text & images & t0 & t1 & now & _ & -> & _).
  assert (Himg : Forall is_image_record
                   (map (image_record self text) (enumerate images))).
  { apply Forall_forall. intros r Hr. apply in_map_iff in Hr as (item & <- & _).
    unfold is_image_record, image_record. eauto 6. }
  split; [reflexivity|]. split.
  { exists (map (image_record self text) (enumerate images)).
    split; [reflexivity|exact Himg]. }
  apply JsonDoc.dk_dict; [distinct_literals|].
  repeat (apply Forall_cons; [cbn [snd]|]); try apply Forall_nil;
    try (now constructor).
  apply JsonDoc.dk_list.
  eapply Forall_impl; [|exact Himg].
  intros r (id & fn & path & cap & ->).
  apply JsonDoc.dk_dict; [distinct_literals|].
  repeat (apply Forall_cons; [cbn [snd]; constructor|]). apply Forall_nil.
Qed.

Lemma save_content_written (self : LightweightExtractor)
    (content : dict float) (dest : option str) (w w' : World) (f : str) :
  save_content self content dest w = (Ok f, w') ->
  f = match dest with
      | None => Path.join (output_dir self) [lit "lightweight_content.json"]
      | Some p => p
      end /\
  write_file f (Json.dumps floatstr (PDict content)) (os w) = (Ok tt, os w').
Proof.
  unfold save_content.
  set (out := match dest with
              | None =>
                  Path.join (output_dir self) [lit "lightweight_content.json"]
              | Some p => p
              end).
  unfold bind at 1. unfold external at 1.
  destruct (write_file out (Json.dumps floatstr (PDict content)) (os w))
    as [[[]|e] o1] eqn:Ew; [|intros H; discriminate H].
  unfold bind at 1. unfold external at 1. cbn [os calls log].
  destruct (os_path_getsize out o1) as [n|e]; [|intros H; discriminate H].
  unfold bind, logger, ret. cbn [os calls log].
  intros H. injection H as <- <-. split; [reflexivity|exact Ew].
Qed.

(** C8. A record of [extract_content] has the keys [full_text], [images],
    [pdf_path], [extraction_time], [conversion_time_seconds] and
    [session_id], in this order, and its images are dicts with the keys
    [id], [filename], [path] and [caption]; [save_content] writes it to the
    destination it is given, or to [lightweight_content.json] in the output
    directory when it is given none; and the file it wrote, loaded as JSON,
    is the record again, item for item and in the same order. *)
Theorem saved_record_loads_back (self saver : LightweightExtractor)
    (w w1 w2 w3 : World) (content : dict float) (dest : option str)
    (f : str) :
  extract_content self w = (Ok (Some content), w1) ->
  save_content saver content dest w2 = (Ok f, w3) ->
  map fst content = record_keys /\
  (exists image_list,
     lookup (lit "images") content = Some (PList image_list) /\
     Forall is_image_record image_list) /\
  f = match dest with
      | None => Path.join (output_dir saver) [lit "lightweight_content.json"]
      | Some p => p
      end /\
  exists text,
    read_file f (os w3) = Ok text /\
    Json.loads scan_float text = Some (PDict content).
Proof.
  intros Hext Hsave.
  destruct (extract_content_shape _ _ Hext) as (Hkeys & Himages & Hdk).
  destruct (save_content_written _ _ _ _ Hsave) as (Hf & Hwrite).
  split; [exact Hkeys|]. split; [exact Himages|]. split; [exact Hf|].
  exists (Json.dumps floatstr (PDict content)). split.
  - exact (read_after_write _ _ _ Hwrite).
  - now apply JsonFacts.loads_dumps.
Qed.

End SaveLoad.

Module DemoSave.

Import Demo DemoRuns.

Lemma demo_floatstr_head (f : bool) :
  exists c s, demo_floatstr f = c :: s /\ JsonDoc.float_head c = true.
Proof. destruct f; eexists; eexists; split; reflexivity. Qed.

Lemma demo_scan_floatstr (f : bool) (rest : str) :
  JsonDoc.value_end rest ->
  demo_scan_float (demo_floatstr f ++ rest) = Some (f, rest).
Proof. intros _. destruct f; reflexivity. Qed.

Lemma demo_read_after_write (p s : str) (o o' : demo_os) :
  demo_write p s o = (Ok tt, o') -> demo_read p o' = Ok s.
Proof.
  unfold demo_write, demo_read. intros H. injection H as <-. simpl.
  destruct (list_eq_dec ascii_dec p p) as [_|Hne]; [reflexivity|].
  now contradiction Hne.
Qed.

(** The record of [ok.pdf], saved with no destination, is in
    [out/lightweight_content.json] and loads back. *)
Lemma saved_record_loads_back_witness :
  exists text,
    read_file (lit "out/lightweight_content.json") (os after_save) = Ok text /\
    Json.loads scan_float text = Some (PDict extracted_content).
Proof.
  assert (H := @saved_record_loads_back world demo_floatstr_head
                 demo_scan_floatstr demo_read_after_write
                 (session "ok.pdf") (session "ok.pdf") w0 after_extract
                 after_extract after_save extracted_content None
                 (lit "out/lightweight_content.json")).
  apply H; vm_compute; reflexivity.
Defined.

End DemoSave.

(** * Further properties *)

Unset Implicit Arguments.

(** ** Strings: stripping and splitting *)

Lemma substring_refl (s : str) : substring s s.
Proof. exists [], []. now rewrite app_nil_r. Qed.

Lemma substring_trans (a b c : str) :
  substring a b -> substring b c -> substring a c.
Proof.
  intros (x & y & ->) (u & v & ->).
  exists (u ++ x), (y ++ v). now rewrite <- !app_assoc.
Qed.

Lemma substring_nil (s : str) : substring [] s.
Proof. now exists [], s. Qed.

Lemma forallb_substring (p : ascii -> bool) (t s : str) :
  substring t s -> forallb p s = true -> forallb p t = true.
Proof.
  intros (a & b & ->) H. rewrite !forallb_app in H.
  apply andb_true_iff in H as [_ H]. now apply andb_true_iff in H as [H _].
Qed.

Lemma contains_substring (t s : str) :
  contains t s = true <-> substring t s.
Proof.
  split.
  - apply contains_inv.
  - intros (a & b & ->). apply contains_app.
Qed.

Lemma rstrip_split (s : str) :
  exists sp, s = rstrip s ++ sp /\ forallb is_space sp = true.
Proof.
  unfold rstrip. destruct (lstrip_split (rev s)) as (sp & Hs & Hsp).
  exists (rev sp). split.
  - rewrite <- rev_app_distr, <- Hs. now rewrite rev_involutive.
  - rewrite forallb_forall in Hsp |- *. intros c Hc. apply Hsp.
    now apply in_rev.
Qed.

Lemma strip_substring (s : str) : substring (strip s) s.
Proof.
  unfold strip.
  destruct (lstrip_split s) as (sp1 & Hs1 & _).
  destruct (rstrip_split (lstrip s)) as (sp2 & Hs2 & _).
  exists sp1, sp2. now rewrite <- Hs2.
Qed.

Lemma lstrip_fixed (c : ascii) (s : str) :
  is_space c = false -> lstrip (c :: s) = c :: s.
Proof. intros H. simpl. now rewrite H. Qed.

Lemma rstrip_fixed (s : str) (c : ascii) :
  is_space c = false -> rstrip (s ++ [c]) = s ++ [c].
Proof.
  intros H. unfold rstrip. rewrite rev_app_distr. simpl.
  rewrite H. simpl. now rewrite rev_involutive.
Qed.

Lemma strip_first (l r : str) (c : ascii) :
  strip l = c :: r -> is_space c = false.
Proof.
  unfold strip. intros H.
  destruct (rstrip_split (lstrip l)) as (sp & Hs & _).
  rewrite H in Hs. simpl in Hs. exact (lstrip_head _ Hs).
Qed.

(** Stripping twice is stripping once. *)
Lemma strip_idempotent (s : str) : strip (strip s) = strip s.
Proof.
  destruct (strip s) as [|c r] eqn:E; [reflexivity|].
  pose proof (strip_first _ _ _ E) as Hc.
  destruct (@exists_last _ (c :: r)) as (a & x & Hax); [discriminate|].
  assert (Hx : is_space x = false).
  { apply (@strip_last s a x). now rewrite E. }
  unfold strip at 1. rewrite (lstrip_fixed c r Hc), Hax.
  now apply rstrip_fixed.
Qed.

Lemma split_newline_free (sep : ascii) (s l : str) :
  In l (split sep s) -> forallb (fun c => negb (eqc c sep)) l = true.
Proof.
  revert l. induction s as [|c s IH]; simpl; intros l Hl.
  - destruct Hl as [<-|[]]. reflexivity.
  - destruct (eqc c sep) eqn:E.
    + destruct Hl as [<-|Hl]; [reflexivity|auto].
    + destruct (split sep s) as [|l0 ls].
      * destruct Hl as [<-|[]]. simpl. now rewrite E.
      * destruct Hl as [<-|Hl].
        -- simpl. rewrite E. simpl. apply IH. now left.
        -- apply IH. now right.
Qed.

Lemma split_head_prefix (sep : ascii) :
  forall s l0 ls, split sep s = l0 :: ls -> exists b, s = l0 ++ b.
Proof.
  induction s as [|c s IH]; simpl; intros l0 ls H.
  - injection H as <- _. now exists [].
  - destruct (eqc c sep).
    + injection H as <- _. now exists (c :: s).
    + destruct (split sep s) as [|l1 ls1] eqn:E.
      * injection H as <- _. now exists s.
      * injection H as <- _. destruct (IH _ _ eq_refl) as (b & ->).
        now exists b.
Qed.

Lemma split_substring (sep : ascii) (s l : str) :
  In l (split sep s) -> substring l s.
Proof.
  revert l. induction s as [|c s IH]; simpl; intros l Hl.
  - destruct Hl as [<-|[]]. apply substring_refl.
  - destruct (eqc c sep) eqn:E.
    + destruct Hl as [<-|Hl]; [apply substring_nil|].
      destruct (IH _ Hl) as (a & b & ->). now exists (c :: a), b.
    + destruct (split sep s) as [|l0 ls] eqn:Es.
      * destruct Hl as [<-|[]]. exists [], s. reflexivity.
      * destruct Hl as [<-|Hl].
        -- destruct (split_head_prefix _ _ _ _ Es) as (b & ->).
           now exists [], b.
        -- destruct (IH _ (or_intror Hl)) as (a & b & ->).
           now exists (c :: a), b.
Qed.

(** ** The loops: where a returned value comes from *)

Lemma for_first_some_inv {A B} (body : A -> result (option B)) :
  forall l b, for_first body l = Ok (Some b) ->
    exists a, In a l /\ body a = Ok (Some b).
Proof.
  induction l as [|a l IH]; simpl; intros b H; [discriminate|].
  destruct (body a) as [[b'|]|e] eqn:E; try discriminate.
  - injection H as <-. exists a. auto.
  - destruct (IH _ H) as (a' & Hin & Hb). exists a'. auto.
Qed.

Lemma in_enumerate_from {A} (l : list A) :
  forall k i x, In (i, x) (enumerate_from k l) -> In x l.
Proof.
  induction l as [|y l IH]; simpl; intros k i x H; [contradiction|].
  destruct H as [H|H]; [injection H as _ <-; now left|].
  right. eapply IH. exact H.
Qed.

Lemma scan_some_inv (f : str -> option str) (lines : list str)
    (js : list nat) (c : str) :
  scan f lines js = Ok (Some c) -> exists l, In l lines /\ f l = Some c.
Proof.
  unfold scan. intros H.
  apply for_first_some_inv in H as (j & _ & Hj).
  unfold index in Hj. destruct (nth_error lines j) as [l|] eqn:E;
    [|discriminate].
  unfold rbind in Hj. exists l. split; [eapply nth_error_In; exact E|].
  congruence.
Qed.

Lemma line_rules_some_inv (lines : list str) (i : nat) (c : str) :
  line_rules lines i = Ok (Some c) ->
  exists l,
    In l lines /\ (figure_caption l = Some c \/ prose_caption l = Some c).
Proof.
  unfold line_rules. intros H.
  destruct (scan figure_caption lines
              (range (i + 1) (Nat.min (length lines) (i + 6))))
    as [[c1|]|e] eqn:E1; simpl in H; try discriminate.
  - injection H as <-. apply scan_some_inv in E1 as (l & Hl & Hc). eauto.
  - destruct (scan figure_caption lines (range (i - 3) i))
      as [[c2|]|e] eqn:E2; simpl in H; try discriminate.
    + injection H as <-. apply scan_some_inv in E2 as (l & Hl & Hc). eauto.
    + apply scan_some_inv in H as (l & Hl & Hc). eauto.
Qed.

(** Where the value of the [try] block comes from: nothing was found, or
    rule 1 gave it, or a figure label or a prose line gave it and some
    line holds the file name. *)
Lemma caption_body_inv (text fn c : str) :
  caption_body text fn = Ok c ->
  c = [] \/
  direct_caption text fn = Some c \/
  exists line l,
    In line (split newline text) /\ contains fn line = true /\
    In l (split newline text) /\
    (figure_caption l = Some c \/ prose_caption l = Some c).
Proof.
  unfold caption_body. destruct (direct_caption text fn) as [d|] eqn:Ed.
  - intros H. injection H as <-. auto.
  - set (lines := split newline text).
    destruct (for_first _ (enumerate lines)) as [[c'|]|e] eqn:E;
      simpl; intros H; try discriminate; injection H as <-; [|auto].
    right. right.
    apply for_first_some_inv in E as ([i line] & Hin & Hb). simpl in Hb.
    destruct (contains fn line) eqn:Ec; [|discriminate].
    apply line_rules_some_inv in Hb as (l & Hl & Hc).
    exists line, l. repeat split; auto.
    unfold enumerate in Hin. eapply in_enumerate_from. exact Hin.
Qed.

(** ** The matcher: what a match consumed and captured *)

Lemma rmatch_sound (R : Type) (icase : bool) (n : nat) :
  forall r s g (k : str -> captures -> option R) x,
    rmatch icase n r s g k = Some x ->
    exists s' g',
      k s' g' = Some x /\
      (exists a, s = a ++ s') /\
      (forall i t, In (i, t) g' -> In (i, t) g \/ substring t s).
Proof.
  induction r; simpl; intros s g k x H.
  - exists s, g. repeat split; auto. now exists [].
  - destruct s as [|d s]; [discriminate|].
    destruct (chr_eq icase c d); [|discriminate].
    exists s, g. repeat split; auto. now exists [d].
  - destruct s as [|d s]; [discriminate|].
    destruct (p d); [|discriminate].
    exists s, g. repeat split; auto. now exists [d].
  - apply IHr1 in H as (s1 & g1 & H1 & (a1 & ->) & Hg1).
    apply IHr2 in H1 as (s2 & g2 & H2 & (a2 & ->) & Hg2).
    exists s2, g2. split; [exact H2|]. split.
    + exists (a1 ++ a2). now rewrite <- app_assoc.
    + intros i t Hi. destruct (Hg2 i t Hi) as [Hi1|Hsub].
      * apply Hg1. exact Hi1.
      * right. apply (substring_trans _ _ _ Hsub).
        exists a1, []. now rewrite app_nil_r.
  - destruct (rmatch icase n r1 s g k) eqn:E.
    + injection H as <-. apply IHr1 in E. exact E.
    + apply IHr2 in H. exact H.
  - apply star_greedy_sound in H as (a & b & -> & _ & Hk).
    exists b, g. repeat split; auto. now exists a.
  - apply star_lazy_sound in H as (a & b & -> & _ & Hk).
    exists b, g. repeat split; auto. now exists a.
  - apply IHr in H as (s1 & g1 & H1 & (a1 & ->) & Hg1).
    rewrite firstn_app_exact in H1.
    exists s1, ((n0, a1) :: g1). split; [exact H1|]. split.
    + now exists a1.
    + intros i t [Hi|Hi].
      * injection Hi as <- <-. right. exists [], s1. reflexivity.
      * apply Hg1. exact Hi.
  - destruct (length s =? n); [|discriminate].
    exists s, g. repeat split; auto. now exists [].
  - destruct s as [|c [|d s]]; try discriminate.
    + exists [], g. repeat split; auto. now exists [].
    + destruct (eqc c newline); [|discriminate].
      exists [c], g. repeat split; auto. now exists [].
Qed.

Lemma search_from_sound (icase : bool) (n : nat) (r : regex) :
  forall s s0 m,
    search_from icase n r s = Some (s0, m) ->
    rmatch icase n r s0 [] accept = Some m /\ exists pre, s = pre ++ s0.
Proof.
  induction s as [|c s IH]; simpl; intros s0 m H.
  - destruct (rmatch icase n r [] [] accept) eqn:E; [|discriminate].
    injection H as <- <-. split; [exact E|now exists []].
  - destruct (rmatch icase n r (c :: s) [] accept) eqn:E.
    + injection H as <- <-. split; [exact E|now exists []].
    + apply IH in H as (Hm & pre & ->). split; [exact Hm|].
      now exists (c :: pre).
Qed.

Lemma group_text_sound (i : nat) (g : captures) (rest s : str) :
  (forall j t, In (j, t) g -> In (j, t) [] \/ substring t s) ->
  substring (group_text i (g, rest)) s.
Proof.
  unfold group_text. simpl. intros Hg.
  induction g as [|[j t] g IH]; simpl; [apply substring_nil|].
  destruct (j =? i).
  - destruct (Hg j t (or_introl eq_refl)) as [[]|H]. exact H.
  - apply IH. intros j' t' H'. apply (Hg j' t'). now right.
Qed.

(** The text of a group of a match found in [s] occurs in [s]. *)
Lemma re_search_group (icase : bool) (r : regex) (s : str) (m : match_obj)
    (i : nat) :
  re_search icase r s = Some m -> substring (group_text i m) s.
Proof.
  unfold re_search. intros H.
  destruct (search_from icase (length s) r s) as [[s0 m0]|] eqn:E;
    [|discriminate].
  simpl in H. injection H as <-.
  apply search_from_sound in E as (Hm & pre & ->).
  apply rmatch_sound in Hm as (s' & g' & Hk & _ & Hg).
  injection Hk as <-.
  eapply substring_trans; [apply group_text_sound; exact Hg|].
  exists pre, []. now rewrite app_nil_r.
Qed.

(** ** What a caption is, whatever the text *)

Lemma reference_match_sound (n : nat) (fn s : str) (m : match_obj) :
  rmatch false n (reference_pattern fn) s [] accept = Some m ->
  forallb dot (group_text 1 m) = true /\ substring fn s.
Proof.
  unfold reference_pattern. intros H.
  destruct s as [|c0 [|c1 s1]]; simpl in H; try discriminate.
  - destruct (eqc "!" c0); discriminate.
  - destruct (eqc "!" c0); [|discriminate].
    destruct (eqc "[" c1); [|discriminate].
    apply star_lazy_sound in H as (a & b & -> & Ha & Hk).
    rewrite firstn_app_exact in Hk.
    destruct b as [|b0 [|b1 b2]]; try discriminate.
    + destruct (eqc "]" b0); discriminate.
    + destruct (eqc "]" b0); [|discriminate].
      destruct (eqc "(" b1); [|discriminate].
      apply star_greedy_sound in Hk as (p1 & b3 & -> & _ & Hk).
      apply rmatch_escape_sound in Hk as (b4 & -> & Hk).
      apply star_greedy_sound in Hk as (p2 & b5 & -> & _ & Hk).
      destruct b5 as [|b6 b7]; [discriminate|].
      destruct (eqc ")" b6); [|discriminate].
      injection Hk as <-. split; [exact Ha|].
      exists (c0 :: c1 :: a ++ b0 :: b1 :: p1), (p2 ++ b6 :: b7).
      simpl. f_equal. f_equal. repeat (rewrite <- app_assoc; simpl).
      reflexivity.
Qed.

Lemma direct_caption_inv (text fn c : str) :
  direct_caption text fn = Some c ->
  (exists cap, c = strip cap /\ forallb dot cap = true) /\
  c <> [] /\ substring fn text /\ substring c text.
Proof.
  unfold direct_caption.
  destruct (search_from false (length text) (reference_pattern fn) text)
    as [[s0 m]|] eqn:E.
  - destruct (re_findall_first _ _ _ E) as (rest & ->).
    destruct (truthy (strip (group_text 1 m))) eqn:Et; [|discriminate].
    intros H. injection H as <-.
    apply search_from_sound in E as (Hm & pre & ->).
    assert (Hgroup : substring (group_text 1 m) s0).
    { apply rmatch_sound in Hm as (s' & g' & Hk & _ & Hg).
      injection Hk as <-. apply group_text_sound. exact Hg. }
    apply reference_match_sound in Hm as (Hdot & Hsub).
    assert (Hs0 : substring s0 (pre ++ s0))
      by (exists pre, []; now rewrite app_nil_r).
    split; [eauto|]. split; [|split].
    + intros E0. rewrite E0 in Et. discriminate.
    + exact (substring_trans _ _ _ Hsub Hs0).
    + eapply substring_trans; [apply strip_substring|].
      exact (substring_trans _ _ _ Hgroup Hs0).
  - rewrite (re_findall_none _ _ _ E). discriminate.
Qed.

Lemma figure_caption_inv (l c : str) :
  figure_caption l = Some c ->
  exists m, re_search true figure_pattern l = Some m /\
            c = strip (group_text 2 m) /\ c <> [].
Proof.
  unfold figure_caption.
  destruct (re_search true figure_pattern l) as [m|]; [|discriminate].
  destruct (truthy (strip (group_text 2 m))) eqn:Et; [|discriminate].
  intros H. injection H as <-. exists m. repeat split.
  intros E0. rewrite E0 in Et. discriminate.
Qed.

Lemma prose_caption_inv (l c : str) :
  prose_caption l = Some c -> c = strip l /\ descriptive c = true.
Proof.
  rewrite prose_caption_descriptive.
  destruct (descriptive (strip l)) eqn:E; [|discriminate].
  intros H. injection H as <-. auto.
Qed.

(** X2. A caption comes only with a mention: when the file name does not
    occur in the text, the method returns the empty string and logs
    nothing. *)
Theorem no_mention_no_caption (float : Type) (text fn : str) :
  contains fn text = false ->
  _extract_image_caption (float := float) text fn = ([], []).
Proof.
  intros Hno. unfold _extract_image_caption.
  destruct (caption_body_total text fn) as (c & Hc). rewrite Hc. simpl.
  apply caption_body_inv in Hc
    as [-> | [Hd | (line & l & Hline & Hin & _)]]; [reflexivity| |].
  - apply direct_caption_inv in Hd as (_ & _ & Hsub & _).
    apply contains_substring in Hsub. congruence.
  - apply contains_substring in Hin. apply split_substring in Hline.
    pose proof (substring_trans _ _ _ Hin Hline) as Hsub.
    apply contains_substring in Hsub. congruence.
Qed.

Lemma no_mention_no_caption_witness :
  _extract_image_caption (float := unit)
    (lit "![Overview](img1.png) Figure 1: Overview") (lit "img2.png")
  = ([], []).
Proof.
  apply (no_mention_no_caption unit
           (lit "![Overview](img1.png) Figure 1: Overview") (lit "img2.png")).
  reflexivity.
Defined.

(** X3. The caption the method returns is stripped: stripping it again
    changes nothing, so it neither starts nor ends with white space. *)
Theorem caption_is_stripped (float : Type) (text fn : str) :
  let c := fst (_extract_image_caption (float := float) text fn) in
  strip c = c /\
  (forall x r, c = x :: r -> is_space x = false) /\
  (forall a x, c = a ++ [x] -> is_space x = false).
Proof.
  intros c.
  assert (Hs : strip c = c).
  { unfold c, _extract_image_caption.
    destruct (caption_body_total text fn) as (c0 & Hc). rewrite Hc. simpl.
    apply caption_body_inv in Hc
      as [-> | [Hd | (line & l & _ & _ & _ & [Hf|Hp])]].
    - reflexivity.
    - apply direct_caption_inv in Hd as ((cap & -> & _) & _).
      apply strip_idempotent.
    - apply figure_caption_inv in Hf as (m & _ & -> & _).
      apply strip_idempotent.
    - apply prose_caption_inv in Hp as (-> & _).
      apply strip_idempotent. }
  split; [exact Hs|]. split.
  - intros x r E. apply (strip_first c r x). now rewrite Hs.
  - intros a x E. apply (@strip_last c a x). now rewrite Hs.
Qed.

(** X4. The caption the method returns is one line: it holds no line
    break, whatever the text. *)
Theorem caption_is_one_line (float : Type) (text fn : str) :
  forallb dot (fst (_extract_image_caption (float := float) text fn)) = true.
Proof.
  unfold _extract_image_caption.
  destruct (caption_body_total text fn) as (c0 & Hc). rewrite Hc. simpl.
  apply caption_body_inv in Hc
    as [-> | [Hd | (line & l & _ & _ & Hl & Hc)]].
  - reflexivity.
  - apply direct_caption_inv in Hd as ((cap & -> & Hdot) & _).
    exact (forallb_substring _ _ _ (strip_substring cap) Hdot).
  - pose proof (split_newline_free _ _ _ Hl) as Hline.
    destruct Hc as [Hf|Hp].
    + apply figure_caption_inv in Hf as (m & Hm & -> & _).
      apply (forallb_substring _ _ l); [|exact Hline].
      eapply substring_trans; [apply strip_substring|].
      exact (re_search_group _ _ _ _ 2 Hm).
    + apply prose_caption_inv in Hp as (-> & _).
      exact (forallb_substring _ _ _ (strip_substring l) Hline).
Qed.

(** X5. A figure label needs a number: a line without a digit has no
    figure caption. *)
Theorem figure_caption_needs_number (l : str) :
  existsb is_digit l = false -> figure_caption l = None.
Proof.
  intros Hno. destruct (figure_caption l) as [c|] eqn:E; [|reflexivity].
  exfalso.
  apply figure_caption_inv in E as (m & Hm & _).
  unfold re_search in Hm.
  destruct (search_from true (length l) figure_pattern l) as [[s0 m0]|] eqn:Es;
    [|discriminate].
  apply search_from_sound in Es as (Hr & pre & ->).
  unfold figure_pattern in Hr.
  change (rmatch true ?n (?a ;;; ?b) ?s ?g ?k)
    with (rmatch true n a s g (fun s' g' => rmatch true n b s' g' k)) in Hr.
  apply rmatch_sound in Hr as (s1 & g1 & Hr & (a1 & ->) & _).
  simpl in Hr.
  apply star_greedy_sound in Hr as (a2 & b & -> & _ & Hr).
  destruct b as [|d b]; [discriminate|].
  destruct (is_digit d) eqn:Hd; [|discriminate].
  rewrite !existsb_app in Hno. simpl in Hno. rewrite Hd in Hno.
  rewrite !orb_true_r in Hno. discriminate.
Qed.

Lemma figure_caption_needs_number_witness :
  figure_caption (lit "Figure: the overall pipeline") = None.
Proof.
  apply (figure_caption_needs_number (lit "Figure: the overall pipeline")).
  reflexivity.
Defined.

(** X6. The caption is a piece of the text: what the method returns
    occurs in the markdown text as it stands, character for character. *)
Theorem caption_occurs_in_text (float : Type) (text fn : str) :
  substring (fst (_extract_image_caption (float := float) text fn)) text.
Proof.
  unfold _extract_image_caption.
  destruct (caption_body_total text fn) as (c0 & Hc). rewrite Hc. simpl.
  apply caption_body_inv in Hc
    as [-> | [Hd | (line & l & _ & _ & Hl & Hc)]].
  - apply substring_nil.
  - now apply direct_caption_inv in Hd as (_ & _ & _ & Hsub).
  - apply split_substring in Hl.
    apply (fun H => substring_trans _ _ _ H Hl).
    destruct Hc as [Hf|Hp].
    + apply figure_caption_inv in Hf as (m & Hm & -> & _).
      eapply substring_trans; [apply strip_substring|].
      exact (re_search_group _ _ _ _ 2 Hm).
    + apply prose_caption_inv in Hp as (-> & _). apply strip_substring.
Qed.

(** ** The settings of the models *)

Lemma replace_from_absent (old new : str) :
  forall s, contains old s = false -> replace_from old new 0 s = s.
Proof.
  induction s as [|c s IH]; [reflexivity|].
  cbn [contains replace_from]. intros H.
  apply orb_false_iff in H as [Hs Hc].
  rewrite Hs. f_equal. exact (IH Hc).
Qed.

Lemma replace_s3_address (rest : str) :
  contains (lit "s3://") rest = false ->
  replace (lit "s3://") (lit "/") (lit "s3://" ++ rest) = lit "/" ++ rest.
Proof.
  intros H. unfold replace.
  change (lit "s3://" ++ rest)
    with ("s"%char :: "3"%char :: ":"%char :: "/"%char :: "/"%char :: rest).
  cbn [replace_from].
  change (startswith (lit "s3://") ("s"%char :: "3"%char :: ":"%char
                                    :: "/"%char :: "/"%char :: rest))
    with true.
  change (length (lit "s3://") - 1) with 4. cbn [replace_from].
  change (lit "/" ++ ?x) with ("/"%char :: x). f_equal.
  exact (replace_from_absent _ _ rest H).
Qed.

Lemma contains_models_rest (rest : str) :
  contains (lit "s3://") rest = false ->
  contains (lit "s3://") (lit "models/" ++ rest) = false.
Proof.
  intros H.
  change (lit "models/" ++ rest)
    with ("m"%char :: "o"%char :: "d"%char :: "e"%char :: "l"%char
          :: "s"%char :: "/"%char :: rest).
  cbn [contains]. rewrite H.
  change (lit "s3://") with ["s"%char; "3"%char; ":"%char; "/"%char; "/"%char].
  cbn [startswith].
  change (eqc "s" "m") with false. change (eqc "s" "o") with false.
  change (eqc "s" "d") with false. change (eqc "s" "e") with false.
  change (eqc "s" "l") with false. change (eqc "s" "/") with false.
  change (eqc "s" "s") with true. change (eqc "3" "/") with false.
  destruct rest as [|r0 rest']; reflexivity.
Qed.

Lemma moved_s3_address (rest : str) :
  contains (lit "s3://") rest = false ->
  moved_under_models (lit "s3://" ++ rest) = lit "models/" ++ rest.
Proof.
  intros H. unfold moved_under_models.
  change (contains (lit "s3://") (lit "s3://" ++ rest)) with true.
  cbv iota. rewrite (replace_s3_address rest H). reflexivity.
Qed.

Section Settings.

Context {E : Externals}.

Variable get : str -> OS -> str.

Hypothesis getattr_reads :
  forall name o, settings_getattr name o = (Ok (get name o), o).
Hypothesis setattr_writes :
  forall name value o, exists o',
    settings_setattr name value o = (Ok tt, o') /\
    get name o' = value /\
    forall other, other <> name -> get other o' = get other o.

(** The loop over the checkpoints, for any list of distinct names. *)
Lemma checkpoints_loop_run :
  forall (names : list str) (w : World), NoDup names ->
    exists w',
      for_each names
        (fun _ checkpoint =>
           value <~ external (CallGetattr checkpoint)
                      (settings_getattr checkpoint) ;;
           if contains (lit "s3://") value then
             let value := replace (lit "s3://") (lit "/") value in
             external (CallSetattr checkpoint (lit "models" ++ value))
               (settings_setattr checkpoint (lit "models" ++ value))
           else ret tt)
        tt w = (Ok tt, w') /\
      (forall ck, In ck names ->
         get ck (os w') = moved_under_models (get ck (os w))) /\
      (forall name, ~ In name names -> get name (os w') = get name (os w)).
Proof.
  induction names as [|ck names IH]; intros w Hnd.
  - exists w. split; [reflexivity|]. split; [intros ck []|reflexivity].
  - inversion Hnd as [|? ? Hnot Hnd']; subst.
    cbn [for_each]. unfold bind at 1. unfold bind at 1. unfold external at 1.
    rewrite getattr_reads. cbn [os calls log is_ok].
    assert (Hstep : exists w1,
      (if contains (lit "s3://") (get ck (os w))
       then external
              (CallSetattr ck (lit "models"
                 ++ replace (lit "s3://") (lit "/") (get ck (os w))))
              (settings_setattr ck (lit "models"
                 ++ replace (lit "s3://") (lit "/") (get ck (os w))))
       else ret tt)
        (mkWorld (os w) (calls w ++ [(CallGetattr ck, true)]) (log w))
      = (Ok tt, w1) /\
      get ck (os w1) = moved_under_models (get ck (os w)) /\
      forall other, other <> ck -> get other (os w1) = get other (os w)).
    { unfold moved_under_models.
      destruct (contains (lit "s3://") (get ck (os w))).
      - unfold external. cbn [os calls log].
        destruct (setattr_writes ck
                    (lit "models"
                     ++ replace (lit "s3://") (lit "/") (get ck (os w)))
                    (os w)) as (o' & -> & Hg & Hother).
        eexists. split; [reflexivity|]. cbn [os]. auto.
      - eexists. split; [reflexivity|]. cbn [os]. auto. }
    destruct Hstep as (w1 & -> & Hck & Hother).
    destruct (IH w1 Hnd') as (w' & Hrun & Hin & Hout).
    exists w'. split; [exact Hrun|]. split.
    + intros name [<-|Hname].
      * rewrite (Hout ck Hnot). exact Hck.
      * rewrite (Hin name Hname). f_equal. apply Hother.
        intros ->. contradiction.
    + intros name Hname. rewrite Hout by (intros Hn; apply Hname; now right).
      apply Hother. intros ->. apply Hname. now left.
Qed.

Lemma checkpoints_distinct :
  NoDup checkpoints /\ ~ In (lit "MODEL_CACHE_DIR") checkpoints.
Proof.
  split.
  - repeat (constructor; [simpl; intuition discriminate|]). constructor.
  - simpl. intuition discriminate.
Qed.

Lemma setup_marker_models_run (w : World) :
  exists w',
    _setup_marker_models w = (Ok tt, w') /\
    get (lit "MODEL_CACHE_DIR") (os w') = lit "models" /\
    (forall ck, In ck checkpoints ->
       get ck (os w') = moved_under_models (get ck (os w))) /\
    (forall name, name <> lit "MODEL_CACHE_DIR" -> ~ In name checkpoints ->
       get name (os w') = get name (os w)).
Proof.
  destruct checkpoints_distinct as (Hnd & Hcache).
  unfold _setup_marker_models. unfold bind at 1. unfold external at 1.
  destruct (setattr_writes (lit "MODEL_CACHE_DIR") (lit "models") (os w))
    as (o1 & -> & Hset & Hother). cbn [is_ok].
  destruct (checkpoints_loop_run checkpoints
              (mkWorld o1 (calls w ++ [(CallSetattr (lit "MODEL_CACHE_DIR")
                                          (lit "models"), true)]) (log w))
              Hnd) as (w' & Hrun & Hin & Hout).
  cbn [os] in Hin, Hout.
  exists w'. split; [exact Hrun|]. split; [|split].
  - rewrite (Hout _ Hcache). exact Hset.
  - intros ck Hck. rewrite (Hin ck Hck). f_equal. apply Hother.
    intros ->. contradiction.
  - intros name Hname Hnot. rewrite (Hout name Hnot). now apply Hother.
Qed.

(** X7. The settings after [_setup_marker_models], when the settings
    object keeps what is set. The method does not raise; the cache
    directory is [models]; a checkpoint whose value holds no [s3://] keeps
    its value; a checkpoint whose value holds [s3://] gets [models]
    followed by that value with every [s3://] replaced by a slash, so that
    [s3://<rest>] becomes [models/<rest>]; every other setting is what it
    was. *)
Theorem setup_marker_models_settings (w : World) :
  exists w',
    _setup_marker_models w = (Ok tt, w') /\
    get (lit "MODEL_CACHE_DIR") (os w') = lit "models" /\
    (forall ck, In ck checkpoints ->
       contains (lit "s3://") (get ck (os w)) = false ->
       get ck (os w') = get ck (os w)) /\
    (forall ck, In ck checkpoints ->
       contains (lit "s3://") (get ck (os w)) = true ->
       get ck (os w')
       = lit "models" ++ replace (lit "s3://") (lit "/") (get ck (os w))) /\
    (forall ck rest, In ck checkpoints ->
       s3_address (get ck (os w)) rest ->
       get ck (os w') = lit "models/" ++ rest) /\
    (forall name, name <> lit "MODEL_CACHE_DIR" -> ~ In name checkpoints ->
       get name (os w') = get name (os w)).
Proof.
  destruct (setup_marker_models_run w) as (w' & Hrun & Hcache & Hin & Hout).
  exists w'. split; [exact Hrun|]. split; [exact Hcache|].
  split; [|split; [|split; [|exact Hout]]].
  - intros ck Hck Hno. rewrite (Hin ck Hck). unfold moved_under_models.
    now rewrite Hno.
  - intros ck Hck Hyes. rewrite (Hin ck Hck). unfold moved_under_models.
    now rewrite Hyes.
  - intros ck rest Hck (Hv & Hrest). rewrite (Hin ck Hck), Hv.
    exact (moved_s3_address rest Hrest).
Qed.

(** X8. Setting up twice is setting up once, when every checkpoint is
    either free of [s3://] or an address [s3://<rest>] with no further
    [s3://]: the second run of [_setup_marker_models] leaves every setting
    as the first run left it. *)
Theorem setup_marker_models_twice (w : World) :
  (forall ck, In ck checkpoints ->
     contains (lit "s3://") (get ck (os w)) = false \/
     exists rest, s3_address (get ck (os w)) rest) ->
  exists w1 w2,
    _setup_marker_models w = (Ok tt, w1) /\
    _setup_marker_models w1 = (Ok tt, w2) /\
    forall name, get name (os w2) = get name (os w1).
Proof.
  intros Hwf.
  destruct (setup_marker_models_run w) as (w1 & Hrun1 & Hc1 & Hin1 & Hout1).
  destruct (setup_marker_models_run w1) as (w2 & Hrun2 & Hc2 & Hin2 & Hout2).
  exists w1, w2. split; [exact Hrun1|]. split; [exact Hrun2|].
  intros name.
  destruct (list_eq_dec ascii_dec name (lit "MODEL_CACHE_DIR")) as [->|Hne].
  { now rewrite Hc1, Hc2. }
  destruct (in_dec (list_eq_dec ascii_dec) name checkpoints) as [Hck|Hnot].
  2:{ now apply Hout2. }
  rewrite (Hin2 name Hck), (Hin1 name Hck).
  destruct (Hwf name Hck) as [Hno | (rest & Hv & Hrest)].
  - unfold moved_under_models at 2. rewrite Hno.
    unfold moved_under_models. now rewrite Hno.
  - rewrite Hv, (moved_s3_address rest Hrest).
    unfold moved_under_models.
    now rewrite (contains_models_rest rest Hrest).
Qed.

End Settings.

Module DemoSettingsRuns.

Import DemoSettings.

Lemma demo_getattr_reads (name : str) (o : list (str * str)) :
  @settings_getattr world name o = (Ok (get name o), o).
Proof. reflexivity. Qed.

Lemma demo_setattr_writes (name value : str) (o : list (str * str)) :
  exists o',
    @settings_setattr world name value o = (Ok tt, o') /\
    get name o' = value /\
    forall other, other <> name -> get other o' = get other o.
Proof.
  exists ((name, value) :: o). split; [reflexivity|].
  unfold get. cbn [lookup]. split.
  - destruct (list_eq_dec ascii_dec name name) as [_|Hne];
      [reflexivity|now contradiction Hne].
  - intros other Hother.
    destruct (list_eq_dec ascii_dec name other) as [->|_];
      [now contradiction Hother|reflexivity].
Qed.

Lemma setup_marker_models_settings_witness :
  exists w',
    @_setup_marker_models world w0 = (Ok tt, w') /\
    get (lit "MODEL_CACHE_DIR") (@os world w') = lit "models" /\
    get (lit "LAYOUT_MODEL_CHECKPOINT") (@os world w')
    = lit "models/layout/2025_09_23" /\
    get (lit "TABLE_REC_MODEL_CHECKPOINT") (@os world w')
    = lit "/opt/models/table_recognition" /\
    get (lit "TORCH_DEVICE") (@os world w') = lit "cpu".
Proof.
  destruct (@setup_marker_models_settings world get demo_getattr_reads
              demo_setattr_writes w0)
    as (w' & Hrun & Hcache & Hkeep & _ & Hmove & Hother).
  exists w'. split; [exact Hrun|]. split; [exact Hcache|]. split; [|split].
  - apply (Hmove (lit "LAYOUT_MODEL_CHECKPOINT") (lit "layout/2025_09_23")).
    + simpl. tauto.
    + split; reflexivity.
  - rewrite (Hkeep (lit "TABLE_REC_MODEL_CHECKPOINT")).
    + reflexivity.
    + simpl. tauto.
    + reflexivity.
  - rewrite (Hother (lit "TORCH_DEVICE")).
    + reflexivity.
    + discriminate.
    + simpl. intuition discriminate.
Defined.

Lemma setup_marker_models_twice_witness :
  exists w1 w2,
    @_setup_marker_models world w0 = (Ok tt, w1) /\
    @_setup_marker_models world w1 = (Ok tt, w2) /\
    forall name, get name (@os world w2) = get name (@os world w1).
Proof.
  apply (@setup_marker_models_twice world get demo_getattr_reads
           demo_setattr_writes w0).
  intros ck Hck. simpl in Hck.
  destruct Hck as [<-|[<-|[<-|[<-|[<-|[]]]]]].
  - right. exists (lit "layout/2025_09_23"). split; reflexivity.
  - right. exists (lit "text_detection/2025_05_07"). split; reflexivity.
  - right. exists (lit "ocr_error_detection/2025_02_18"). split; reflexivity.
  - left. reflexivity.
  - right. exists (lit "text_recognition/2025_09_23"). split; reflexivity.
Defined.

End DemoSettingsRuns.

(** ** Where the images go *)

Lemma join_absolute (p b : str) :
  startswith (lit "/") b = true -> Path.join p [b] = b.
Proof.
  intros H. unfold Path.join, Path.join_step. cbn [fold_left].
  change Path.sep with (lit "/"). now rewrite H.
Qed.

Lemma endswith_sep_app (p : str) (c : ascii) (s : str) :
  Path.endswith_sep (p ++ c :: s) = Path.endswith_sep (c :: s).
Proof.
  unfold Path.endswith_sep. rewrite rev_app_distr.
  destruct (rev (c :: s)) as [|x r] eqn:E; [|reflexivity].
  apply (f_equal (@length ascii)) in E. rewrite length_rev in E. discriminate E.
Qed.

Lemma endswith_sep_free (s : str) :
  s <> [] -> forallb (fun c => negb (eqc c "/")) s = true ->
  Path.endswith_sep s = false.
Proof.
  intros Hne Hfree. unfold Path.endswith_sep.
  destruct (rev s) as [|x r] eqn:E; [reflexivity|].
  assert (Hin : In x s) by (apply in_rev; rewrite E; now left).
  rewrite forallb_forall in Hfree. specialize (Hfree x Hin).
  now apply negb_true_iff in Hfree.
Qed.

Lemma startswith_sep_free (s : str) :
  forallb (fun c => negb (eqc c "/")) s = true ->
  startswith (lit "/") s = false.
Proof.
  destruct s as [|c s]; [reflexivity|]. cbn [forallb]. intros H.
  apply andb_true_iff in H as [H _]. apply negb_true_iff in H.
  change (startswith (lit "/") (c :: s)) with (eqc "/" c && true).
  now rewrite eqc_sym, H.
Qed.

Lemma session_image_directory (sid : str) :
  sid <> [] -> forallb (fun c => negb (eqc c "/")) sid = true ->
  Path.join (lit "output") [lit "images"; sid] = lit "output/images/" ++ sid /\
  Path.endswith_sep (lit "output/images/" ++ sid) = false.
Proof.
  intros Hne Hfree. split.
  - unfold Path.join. cbn [fold_left].
    change (Path.join_step (lit "output") (lit "images"))
      with (lit "output/images").
    unfold Path.join_step. change Path.sep with (lit "/").
    rewrite (startswith_sep_free sid Hfree).
    change (negb (truthy (lit "output/images"))
            || Path.endswith_sep (lit "output/images")) with false.
    cbv iota. reflexivity.
  - destruct sid as [|c sid]; [now contradiction Hne|].
    rewrite endswith_sep_app. now apply endswith_sep_free.
Qed.

Lemma join_relative (p b : str) :
  p <> [] -> Path.endswith_sep p = false ->
  startswith (lit "/") b = false ->
  Path.join p [b] = p ++ lit "/" ++ b.
Proof.
  intros Hne Hend Hrel. unfold Path.join, Path.join_step. cbn [fold_left].
  change Path.sep with (lit "/"). rewrite Hrel, Hend.
  destruct p; [now contradiction Hne|reflexivity].
Qed.

Section ImagePaths.

Context {E : Externals}.

(** X9. Where a session made by [__init__] puts its images, when the
    session id is not empty and holds no slash: the image with a relative
    file name is saved at [output/images/<session id>/<file name>], and
    the image whose file name starts with a slash is saved at that file
    name itself, outside the image directory. The record of the image
    holds that path. *)
Theorem image_paths (pdf out : str) (w w0 w1 : World)
    (self : LightweightExtractor) (content : dict float) :
  __init__ pdf out w = (Ok self, w0) ->
  session_id self <> [] ->
  forallb (fun c => negb (eqc c "/")) (session_id self) = true ->
  extract_content self w0 = (Ok (Some content), w1) ->
  exists text images image_list,
    conversion self (os w0) = Ok (text, images) /\
    lookup (lit "images") content = Some (PList image_list) /\
    forall i filename image,
      nth_error images i = Some (filename, image) ->
      let path :=
        if startswith (lit "/") filename then filename
        else lit "output/images/" ++ session_id self ++ lit "/" ++ filename in
      In (CallImageSave path, true) (calls w1) /\
      exists record,
        nth_error image_list i = Some (PDict record) /\
        lookup (lit "path") record = Some (PStr path).
Proof.
  intros Hinit Hne Hfree Hext.
  destruct (init_image_directory _ _ _ Hinit) as (_ & Hdir & _).
  destruct (session_image_directory (session_id self) Hne Hfree)
    as (Hjoin & Hend).
  rewrite Hjoin in Hdir.
  destruct (extract_content_some _ _ Hext)
    as (text & images & t0 & t1 & now & Hconv & -> & Hcalls).
  exists text, images, (map (image_record self text) (enumerate images)).
  split; [exact Hconv|]. split; [reflexivity|].
  intros i filename image Hi.
  assert (Hpath : Path.join (img_dir self) [filename]
                  = if startswith (lit "/") filename then filename
                    else lit "output/images/" ++ session_id self
                         ++ lit "/" ++ filename).
  { destruct (startswith (lit "/") filename) eqn:Habs.
    - now apply join_absolute.
    - rewrite Hdir, join_relative.
      + now rewrite <- app_assoc.
      + destruct (session_id self); discriminate.
      + exact Hend.
      + exact Habs. }
  cbv zeta. rewrite <- Hpath. split.
  - rewrite Hcalls. apply in_or_app. right. apply in_or_app. right.
    apply nth_error_In in Hi.
    exact (in_map (save_call self) images (filename, image) Hi).
  - unfold enumerate. rewrite nth_error_map_enumerate, Hi. cbn [option_map].
    unfold image_record. cbn [fst snd]. eexists. split; [reflexivity|].
    reflexivity.
Qed.

End ImagePaths.

(** ** A failed extraction *)

Section FailedSave.

Context {E : Externals}.

Lemma materialize_raise (self : LightweightExtractor) (text : str)
    (acc : list (pyval float)) (item : nat * (str * image))
    (w : World) (e : exn) (w' : World) :
  materialize self text acc item w = (Raise e, w') ->
  calls w'
  = calls w
    ++ [(CallImageSave (Path.join (img_dir self) [fst (snd item)]), false)].
Proof.
  destruct item as [i [fn img]]. unfold materialize, bind, external.
  cbn [fst snd].
  destruct (image_save img (Path.join (img_dir self) [fn]) (os w))
    as [[[]|e0] o] eqn:Es.
  - match goal with
    | |- context [extract_image_caption_logged text fn ?w1] =>
        destruct (caption_logged_run text fn w1) as (w2 & -> & _ & _)
    end.
    unfold ret. intros H. discriminate H.
  - intros H. injection H as _ <-. reflexivity.
Qed.

Lemma materialize_loop_raise (self : LightweightExtractor) (text : str) :
  forall (images : list (str * image)) (k : nat) (acc : list (pyval float))
         (w : World) (e : exn) (w' : World),
    for_each (enumerate_from k images) (materialize self text) acc w
    = (Raise e, w') ->
    exists j filename image,
      nth_error images j = Some (filename, image) /\
      calls w'
      = calls w ++ map (save_call self) (firstn j images)
        ++ [(CallImageSave (Path.join (img_dir self) [filename]), false)].
Proof.
  induction images as [|[fn img] images IH]; intros k acc w e w' H;
    cbn [for_each enumerate_from] in H.
  - discriminate H.
  - unfold bind in H.
    destruct (materialize self text acc (k, (fn, img)) w)
      as [[l1|e1] w1] eqn:E1.
    + apply materialize_run in E1 as [_ Hc1].
      apply IH in H as (j & filename & image & Hj & Hc).
      exists (S j), filename, image. split; [exact Hj|].
      rewrite Hc, Hc1, <- app_assoc. reflexivity.
    + injection H as _ <-. apply materialize_raise in E1.
      exists 0, fn, img. split; [reflexivity|]. exact E1.
Qed.

(** X10. No record does not mean no files. When the converter has
    supplied its text and images and [extract_content] still returns
    [None], one image could not be saved: the images before it were saved,
    in order, the images after it were not attempted, and nothing is
    removed. *)
Theorem failed_save_keeps_earlier_images (self : LightweightExtractor)
    (w w' : World) (text : str) (images : list (str * image)) :
  conversion self (os w) = Ok (text, images) ->
  extract_content self w = (Ok None, w') ->
  exists k filename image,
    nth_error images k = Some (filename, image) /\
    calls w' =
      calls w ++
      [ (CallCreateConverter, true);
        (CallConverter (pdf_path self), true);
        (CallTextFromRendered, true) ]
      ++ map (save_call self) (firstn k images)
      ++ [(CallImageSave (Path.join (img_dir self) [filename]), false)].
Proof.
  unfold extract_content, conversion. intros Hconv H.
  apply try_except_inv in H as [(a & H & Ha) | (e & w1 & H & Hh)].
  - exfalso. injection Ha as <-. revert H.
    unfold bind, logger, external, total, ret.
    repeat match goal with
           | |- context [let (_, _) := ?t in _] => destruct t
           | |- context [match ?t with Ok _ => _ | Raise _ => _ end] =>
               destruct t
           end;
      intros H; discriminate H.
  - apply extract_content_handler in Hh as (_ & Hc & _ & _). rewrite Hc.
    clear Hc w'.
    unfold bind at 1 in H. unfold logger at 1 in H.
    unfold bind at 1 in H. unfold external at 1 in H. cbn [os calls log] in H.
    destruct (create_converter (os w)) as [[conv|e0] o1];
      [|discriminate Hconv].
    unfold bind at 1 in H. unfold total at 1 in H. cbn [os calls log] in H.
    destruct (time_time o1) as [t0 o2]. cbn [snd] in Hconv.
    unfold bind at 1 in H. unfold external at 1 in H. cbn [os calls log] in H.
    destruct (run_converter conv (pdf_path self) o2) as [[rend|e0] o3];
      [|discriminate Hconv].
    unfold bind at 1 in H. unfold total at 1 in H. cbn [os calls log] in H.
    destruct (time_time o3) as [t1 o4].
    unfold bind at 1 in H. unfold logger at 1 in H.
    unfold bind at 1 in H. unfold external at 1 in H. cbn [os calls log] in H.
    rewrite Hconv in H. cbn [fst snd is_ok] in H.
    unfold bind at 1 in H.
    match type of H with
    | context [for_each ?l ?b ?s ?w0] =>
        destruct (for_each l b s w0) as [[image_list|e0] w5] eqn:Eloop
    end.
    + exfalso. revert H. unfold bind, total, logger, ret.
      destruct (datetime_now (os w5)). intros H. discriminate H.
    + injection H as _ <-.
      apply materialize_loop_raise in Eloop
        as (k & filename & image & Hk & Hcalls).
      cbn [calls] in Hcalls.
      exists k, filename, image. split; [exact Hk|].
      rewrite Hcalls, <- !app_assoc. reflexivity.
Qed.

End FailedSave.

Module DemoFailedSave.

Import Demo.

(** [rgba.pdf]: [img1.png] is on the disk, [img2.png] is not. *)
Lemma failed_save_keeps_earlier_images_witness :
  exists w',
    extract_content (session "rgba.pdf") w0 = (Ok None, w') /\
    os_path_exists (lit "output/images/20240101_120000/img1.png") (os w')
    = true /\
    exists k filename image,
      nth_error [(lit "img1.png", true); (lit "img2.png", false)] k
      = Some (filename, image) /\
      calls w' =
        calls w0 ++
        [ (CallCreateConverter, true);
          (CallConverter (pdf_path (session "rgba.pdf")), true);
          (CallTextFromRendered, true) ]
        ++ map (save_call (session "rgba.pdf"))
             (firstn k [(lit "img1.png", true); (lit "img2.png", false)])
        ++ [(CallImageSave
               (Path.join (img_dir (session "rgba.pdf")) [filename]), false)].
Proof.
  eexists. split; [vm_compute; reflexivity|]. split; [vm_compute; reflexivity|].
  apply (@failed_save_keeps_earlier_images world (session "rgba.pdf") w0 _
           markdown [(lit "img1.png", true); (lit "img2.png", false)]);
    vm_compute; reflexivity.
Defined.

End DemoFailedSave.

Module DemoImagePaths.

Import Demo.

Lemma image_paths_witness :
  exists self w1 content w2,
    __init__ (lit "ok.pdf") (lit "out") w0 = (Ok self, w1) /\
    extract_content self w1 = (Ok (Some content), w2) /\
    In (CallImageSave (lit "output/images/20240101_120000/img2.png"), true)
       (calls w2).
Proof.
  eexists. eexists. eexists. eexists.
  split; [vm_compute; reflexivity|]. split; [vm_compute; reflexivity|].
  edestruct (@image_paths world (lit "ok.pdf") (lit "out") w0)
    as (text & images & image_list & Hconv & _ & Hpaths).
  - vm_compute. reflexivity.
  - discriminate.
  - vm_compute. reflexivity.
  - vm_compute. reflexivity.
  - injection Hconv as <- <-.
    exact (proj1 (Hpaths 1 (lit "img2.png") true eq_refl)).
Defined.

End DemoImagePaths.

(** ** What a run logs *)

Section ExtractionLog.

Context {E : Externals}.



End ExtractionLog.

Module DemoLog.

Import Demo.


End DemoLog.

(** ** The convenience function *)

Section Halting.

Context {E : Externals}.

Lemma halts_ret {A} (P : call -> Prop) (a : A) : halts_at_failure P (ret a).
Proof.
  intros w r w' H. injection H as <- <-.
  exists []. rewrite app_nil_r. repeat split; constructor.
Qed.

Lemma halts_logger (P : call -> Prop) (l : level) (m : message float) :
  halts_at_failure P (logger l m).
Proof.
  intros w r w' H. injection H as <- <-.
  exists []. simpl. rewrite app_nil_r. repeat split; constructor.
Qed.

Lemma halts_total {A} (P : call -> Prop) (f : OS -> A * OS) :
  halts_at_failure P (total f).
Proof.
  intros w r w' H. unfold total in H. destruct (f (os w)) as [a o].
  injection H as <- <-.
  exists []. simpl. rewrite app_nil_r. repeat split; constructor.
Qed.

Lemma halts_external {A} (P : call -> Prop) (c : call)
    (f : OS -> result A * OS) :
  P c -> halts_at_failure P (external c f).
Proof.
  intros Hc w r w' H. unfold external in H.
  destruct (f (os w)) as [r0 o]. injection H as <- <-.
  exists [(c, is_ok r0)]. simpl. repeat split.
  - constructor; [exact Hc|constructor].
  - destruct r0; simpl.
    + constructor; [reflexivity|constructor].
    + exists [], c. split; [reflexivity|constructor].
Qed.

Lemma halts_bind {A B} (P : call -> Prop) (m : M A) (f : A -> M B) :
  halts_at_failure P m -> (forall a, halts_at_failure P (f a)) ->
  halts_at_failure P (bind m f).
Proof.
  intros Hm Hf w r w' H. unfold bind in H.
  destruct (m w) as [[a|e] w1] eqn:E1.
  - destruct (Hm _ _ _ E1) as (cs1 & Hcs1 & HP1 & Hok1).
    destruct (Hf a _ _ _ H) as (cs2 & Hcs2 & HP2 & Hr2).
    exists (cs1 ++ cs2). rewrite Hcs2, Hcs1, app_assoc. repeat split.
    + apply Forall_app. now split.
    + destruct r.
      * apply Forall_app. now split.
      * destruct Hr2 as (cs' & c & -> & Hok2).
        exists (cs1 ++ cs'), c. rewrite app_assoc. split; [reflexivity|].
        apply Forall_app. now split.
  - injection H as <- <-. exact (Hm _ _ _ E1).
Qed.

Lemma halts_for_each {A S} (P : call -> Prop) (body : S -> A -> M S) :
  (forall s a, halts_at_failure P (body s a)) ->
  forall l s, halts_at_failure P (for_each l body s).
Proof.
  intros Hbody. induction l as [|a l IH]; intros s; simpl.
  - apply halts_ret.
  - apply halts_bind; [apply Hbody|]. intros s'. apply IH.
Qed.

Lemma halts_if {A} (P : call -> Prop) (b : bool) (m1 m2 : M A) :
  halts_at_failure P m1 -> halts_at_failure P m2 ->
  halts_at_failure P (if b then m1 else m2).
Proof. destruct b; auto. Qed.

Lemma halts_init (pdf out : str) :
  halts_at_failure setup_call (__init__ pdf out).
Proof.
  unfold __init__, _setup_marker_models.
  repeat first
    [ apply halts_bind; [|intros ?]
    | apply halts_total
    | apply halts_external; exact I
    | apply halts_for_each; intros
    | apply halts_if
    | apply halts_ret ].
Qed.

Lemma cleanup_run (self : LightweightExtractor) (w : World) :
  exists w',
    cleanup_temp_files self w = (Ok tt, w') /\
    (calls w' = calls w \/
     exists b, calls w' = calls w ++ [(CallRmtree (img_dir self), b)]).
Proof.
  unfold cleanup_temp_files.
  destruct (os_path_exists (img_dir self) (os w)).
  - unfold try_except, bind, logger, external. cbn [os calls log].
    destruct (shutil_rmtree (img_dir self) (os w)) as [[[]|e] o1];
      cbn [os calls log is_ok]; eexists; (split; [reflexivity|]);
      right; eexists; reflexivity.
  - exists w. split; [reflexivity|]. now left.
Qed.

Lemma save_content_run (self : LightweightExtractor) (content : dict float)
    (w : World) (r : result str) (w' : World) :
  save_content self content None w = (r, w') ->
  let f := Path.join (output_dir self) [lit "lightweight_content.json"] in
  (r = Ok f /\
   calls w' = calls w ++ [(CallWrite f, true); (CallGetsize f, true)] /\
   write_file f (Json.dumps floatstr (PDict content)) (os w)
   = (Ok tt, os w')) \/
  (exists e cs c,
     r = Raise e /\ calls w' = calls w ++ cs ++ [(c, false)] /\
     Forall succeeded cs /\ save_content_call c /\
     Forall (fun cb => save_content_call (fst cb)) cs).
Proof.
  unfold save_content. intros H. cbv zeta.
  set (f := Path.join (output_dir self) [lit "lightweight_content.json"]) in *.
  unfold bind at 1 in H. unfold external at 1 in H.
  destruct (write_file f (Json.dumps floatstr (PDict content)) (os w))
    as [[[]|e] o1] eqn:Ew.
  - unfold bind at 1 in H. unfold external at 1 in H. cbn [os calls log] in H.
    destruct (os_path_getsize f o1) as [n|e].
    + unfold bind, logger, ret in H. cbn [os calls log is_ok] in H.
      injection H as <- <-. left. cbn [os calls].
      split; [reflexivity|]. split; [|reflexivity].
      now rewrite <- app_assoc.
    + injection H as <- <-. right. cbn [calls is_ok].
      exists e, [(CallWrite f, true)], (CallGetsize f).
      split; [reflexivity|]. split; [now rewrite <- app_assoc|].
      split; [repeat constructor|]. split; [exact I|]. repeat constructor.
  - injection H as <- <-. right. cbn [calls is_ok].
    exists e, [], (CallWrite f).
    split; [reflexivity|]. split; [reflexivity|].
    split; [constructor|]. split; [exact I|constructor].
Qed.

End Halting.

Section Convenience.

Context {E : Externals}.

Lemma convenience_cases (pdf out : str) (cleanup_temp : bool) (w : World)
    (r : result (option (dict float) * option str)) (w' : World) :
  extract_lightweight_content pdf out cleanup_temp w = (r, w') ->
  (exists e, r = Raise e /\ __init__ pdf out w = (Raise e, w')) \/
  (exists self w0,
     __init__ pdf out w = (Ok self, w0) /\
     ((extract_content self w0 = (Ok None, w') /\ r = Ok (None, None)) \/
      (exists content w1,
         extract_content self w0 = (Ok (Some content), w1) /\
         ((exists e, r = Raise e /\
                     save_content self content None w1 = (Raise e, w')) \/
          (exists f w2,
             save_content self content None w1 = (Ok f, w2) /\
             r = Ok (Some content, Some f) /\
             (if cleanup_temp then cleanup_temp_files self w2 else ret tt w2)
             = (Ok tt, w')))))).
Proof.
  unfold extract_lightweight_content. unfold bind at 1.
  destruct (__init__ pdf out w) as [[self|e] w0] eqn:Hinit.
  2:{ intros H. injection H as <- <-. left. eauto. }
  intros H. right. exists self, w0. split; [reflexivity|].
  unfold bind at 1 in H.
  destruct (extract_content self w0) as [r1 w1] eqn:Hext.
  destruct (performs_extract_body _ _ Hext) as (r0 & cs & -> & _).
  destruct r0 as [content|].
  2:{ cbn [content_truthy] in H. injection H as <- <-. left. auto. }
  right. exists content, w1. split; [reflexivity|].
  destruct (extract_content_some _ _ Hext)
    as (text & images & t0 & t1 & now & _ & Hcontent & _).
  rewrite Hcontent in H. cbn [content_truthy] in H. rewrite <- Hcontent in H.
  unfold bind at 1 in H.
  destruct (save_content self content None w1) as [[f|e] w2] eqn:Hsave.
  2:{ injection H as <- <-. left. eauto. }
  right. exists f, w2. split; [reflexivity|].
  unfold bind at 1 in H.
  destruct cleanup_temp.
  - destruct (cleanup_run self w2) as (w3 & Hclean & _).
    rewrite Hclean in H. injection H as <- <-. auto.
  - unfold ret in H. injection H as <- <-. auto.
Qed.

(** X12. The convenience function returns both a record and a path, or
    neither. With both, the path is [lightweight_content.json] in the
    output directory; the record was written there after every other call
    had returned, none of them a write or a removal; and the one call that
    may follow is the removal of the image directory of the session, made
    only when [cleanup_temp] is set. *)
Theorem convenience_returns_both_or_neither (pdf out : str)
    (cleanup_temp : bool) (w : World) (content : option (dict float))
    (path : option str) (w' : World) :
  extract_lightweight_content pdf out cleanup_temp w
  = (Ok (content, path), w') ->
  (content = None /\ path = None) \/
  (exists self w0 record cs tail,
     let f := Path.join out [lit "lightweight_content.json"] in
     __init__ pdf out w = (Ok self, w0) /\
     content = Some record /\ path = Some f /\
     calls w' = calls w ++ cs
                ++ [(CallWrite f, true); (CallGetsize f, true)] ++ tail /\
     Forall succeeded cs /\
     Forall (fun cb => ~ writes_or_removes (fst cb)) cs /\
     (tail = [] \/
      (cleanup_temp = true /\
       exists returned, tail = [(CallRmtree (img_dir self), returned)]))).
Proof.
  intros H.
  apply convenience_cases in H
    as [(e & Hr & _)
       | (self & w0 & Hinit
          & [(_ & Hr)
            | (record & w1 & Hext
               & [(e & Hr & _)
                 | (f & w2 & Hsave & Hr & Hclean)])])];
    try discriminate Hr.
  - injection Hr as -> ->. now left.
  - injection Hr as -> ->. right.
    destruct (init_image_directory _ _ _ Hinit) as (Hout & _).
    destruct (halts_init pdf out _ _ _ Hinit) as (cs0 & Hcs0 & HP0 & Hok0).
    destruct (performs_extract_body _ _ Hext)
      as (r0 & cs1 & Hr0 & Hcs1 & HP1 & Hok1).
    injection Hr0 as <-.
    apply save_content_run in Hsave
      as [(Hf & Hcs2 & _) | (e & ? & ? & Hf & _)]; [|discriminate Hf].
    injection Hf as ->. rewrite Hout in Hcs2.
    assert (Htail : exists tail,
              calls w' = calls w2 ++ tail /\
              (tail = [] \/
               (cleanup_temp = true /\
                exists returned,
                  tail = [(CallRmtree (img_dir self), returned)]))).
    { destruct cleanup_temp.
      - destruct (cleanup_run self w2) as (w3 & Hrun & Hcalls).
        rewrite Hrun in Hclean. injection Hclean as <-.
        destruct Hcalls as [Hsame | (b & Hrm)].
        + exists []. rewrite app_nil_r. auto.
        + exists [(CallRmtree (img_dir self), b)]. split; [exact Hrm|].
          right. eauto.
      - unfold ret in Hclean. injection Hclean as <-.
        exists []. rewrite app_nil_r. auto. }
    destruct Htail as (tail & Hcalls & Htail).
    exists self, w0, record, (cs0 ++ cs1), tail. cbv zeta.
    split; [exact Hinit|]. split; [reflexivity|].
    split; [now rewrite Hout|]. split; [|split; [|split]].
    + rewrite Hcalls, Hcs2, Hcs1, Hcs0, <- !app_assoc. reflexivity.
    + apply Forall_app. now split.
    + apply Forall_app. split.
      * eapply Forall_impl; [|exact HP0].
        intros [c b]. simpl. destruct c; simpl; tauto.
      * eapply Forall_impl; [|exact HP1].
        intros [c b]. simpl. destruct c; simpl; tauto.
    + exact Htail.
Qed.

(** X13. An error of the class [Exception] leaves the convenience
    function only from the construction of the session (a directory that
    cannot be made, a setting) or from the saving of the record (the file,
    its size): the call that raised is the last one made, every call
    before it returned, and none of them is a removal, whatever
    [cleanup_temp] is. An error of that class raised by the converter or
    by [image.save] never leaves the function. Exceptions outside the
    class, which no [except Exception] catches, are not what this is
    about: the model has none. *)
Theorem convenience_raises_from_setup_or_save (pdf out : str)
    (cleanup_temp : bool) (w : World) (e : exn) (w' : World) :
  extract_lightweight_content pdf out cleanup_temp w = (Raise e, w') ->
  exists cs c,
    calls w' = calls w ++ cs ++ [(c, false)] /\
    Forall succeeded cs /\
    (setup_call c \/ save_content_call c) /\
    Forall (fun cb => ~ removal (fst cb)) cs.
Proof.
  intros H.
  apply convenience_cases in H
    as [(e0 & Hr & Hinit)
       | (self & w0 & Hinit
          & [(_ & Hr)
            | (record & w1 & Hext
               & [(e0 & Hr & Hsave)
                 | (f & w2 & _ & Hr & _)])])];
    try discriminate Hr.
  - destruct (halts_init pdf out _ _ _ Hinit)
      as (cs & Hcs & HP & cs' & c & -> & Hok).
    apply Forall_app in HP as (HP' & Hc).
    exists cs', c. split; [exact Hcs|]. split; [exact Hok|]. split.
    + left. inversion Hc; subst. assumption.
    + eapply Forall_impl; [|exact HP'].
      intros [c0 b]. simpl. destruct c0; simpl; tauto.
  - destruct (halts_init pdf out _ _ _ Hinit) as (cs0 & Hcs0 & HP0 & Hok0).
    destruct (performs_extract_body _ _ Hext)
      as (r0 & cs1 & Hr0 & Hcs1 & HP1 & Hok1).
    injection Hr0 as <-.
    apply save_content_run in Hsave
      as [(Hf & _) | (e1 & cs2 & c & _ & Hcs2 & Hok2 & Hc & HP2)];
      [discriminate Hf|].
    exists (cs0 ++ cs1 ++ cs2), c. split; [|split; [|split]].
    + rewrite Hcs2, Hcs1, Hcs0, <- !app_assoc. reflexivity.
    + repeat (apply Forall_app; split); assumption.
    + now right.
    + repeat (apply Forall_app; split).
      * eapply Forall_impl; [|exact HP0].
        intros [c0 b]. simpl. destruct c0; simpl; tauto.
      * eapply Forall_impl; [|exact HP1].
        intros [c0 b]. simpl. destruct c0; simpl; tauto.
      * eapply Forall_impl; [|exact HP2].
        intros [c0 b]. simpl. destruct c0; simpl; tauto.
Qed.

End Convenience.

Section SavedFile.

Context {E : Externals}.

(** What the module needs of the outside world for a saved record to be
    read back. *)
Hypothesis floatstr_head :
  forall f : float,
    exists c s, floatstr f = c :: s /\ JsonDoc.float_head c = true.
Hypothesis scan_floatstr :
  forall (f : float) (rest : str),
    JsonDoc.value_end rest ->
    scan_float (floatstr f ++ rest) = Some (f, rest).
Hypothesis read_after_write :
  forall (p s : str) (o o' : OS),
    write_file p s o = (Ok tt, o') -> read_file p o' = Ok s.

(** X14. Without cleanup, the file at the path the convenience function
    returns holds the record it returns: loaded as JSON, the file is that
    record. *)
Theorem convenience_file_holds_record (pdf out : str) (w : World)
    (record : dict float) (f : str) (w' : World) :
  extract_lightweight_content pdf out false w
  = (Ok (Some record, Some f), w') ->
  exists text,
    read_file f (os w') = Ok text /\
    Json.loads scan_float text = Some (PDict record).
Proof.
  intros H.
  apply convenience_cases in H
    as [(e & Hr & _)
       | (self & w0 & Hinit
          & [(_ & Hr)
            | (record' & w1 & Hext
               & [(e & Hr & _)
                 | (f' & w2 & Hsave & Hr & Hclean)])])];
    try discriminate Hr.
  injection Hr as <- <-.
  unfold ret in Hclean. injection Hclean as <-.
  destruct (extract_content_shape _ _ Hext) as (_ & _ & Hdk).
  destruct (save_content_written _ _ _ _ Hsave) as (_ & Hwrite).
  exists (Json.dumps floatstr (PDict record)). split.
  - exact (read_after_write _ _ _ _ Hwrite).
  - now apply JsonFacts.loads_dumps.
Qed.

End SavedFile.

Section CleanupAfterSave.

Context {E : Externals}.


End CleanupAfterSave.

Module DemoCleanup.

Import Demo.


End DemoCleanup.

Module DemoConvenience.

Import Demo.

(** [ok.pdf] with cleanup: record and path, and the image directory is
    removed last. *)
Lemma convenience_returns_both_or_neither_witness :
  exists content path w',
    extract_lightweight_content (lit "ok.pdf") (lit "out") true w0
    = (Ok (content, path), w') /\
    path = Some (lit "out/lightweight_content.json") /\
    ((content = None /\ path = None) \/
     (exists self w1 record cs tail,
        let f := Path.join (lit "out") [lit "lightweight_content.json"] in
        __init__ (lit "ok.pdf") (lit "out") w0 = (Ok self, w1) /\
        content = Some record /\ path = Some f /\
        calls w' = calls w0 ++ cs
                   ++ [(CallWrite f, true); (CallGetsize f, true)] ++ tail /\
        Forall succeeded cs /\
        Forall (fun cb => ~ writes_or_removes (fst cb)) cs /\
        (tail = [] \/
         (true = true /\
          exists returned, tail = [(CallRmtree (img_dir self), returned)])))).
Proof.
  eexists. eexists. eexists.
  split; [vm_compute; reflexivity|]. split; [reflexivity|].
  apply (@convenience_returns_both_or_neither world (lit "ok.pdf")
           (lit "out") true w0).
  vm_compute. reflexivity.
Defined.

(** [ok.pdf] without cleanup: the file read back is the record. *)
Lemma convenience_file_holds_record_witness :
  exists record w',
    extract_lightweight_content (lit "ok.pdf") (lit "out") false w0
    = (Ok (Some record, Some (lit "out/lightweight_content.json")), w') /\
    exists text,
      read_file (lit "out/lightweight_content.json") (os w') = Ok text /\
      Json.loads scan_float text = Some (PDict record).
Proof.
  eexists. eexists. split; [vm_compute; reflexivity|].
  apply (@convenience_file_holds_record world DemoSave.demo_floatstr_head
           DemoSave.demo_scan_floatstr DemoSave.demo_read_after_write
           (lit "ok.pdf") (lit "out") w0).
  vm_compute. reflexivity.
Defined.

End DemoConvenience.

Module DemoSettingsConvenience.

Import DemoSettings.

(** An empty output directory cannot be made: the exception of
    [os.makedirs] leaves the function, and no other call is made. *)
Lemma convenience_raises_from_setup_or_save_witness :
  exists e w',
    @extract_lightweight_content world (lit "paper.pdf") [] true w0
    = (Raise e, w') /\
    @calls world w' = [(CallMakedirs [], false)] /\
    exists cs c,
      @calls world w' = @calls world w0 ++ cs ++ [(c, false)] /\
      Forall succeeded cs /\
      (setup_call c \/ save_content_call c) /\
      Forall (fun cb => ~ removal (fst cb)) cs.
Proof.
  eexists. eexists. split; [vm_compute; reflexivity|].
  split; [reflexivity|].
  apply (@convenience_raises_from_setup_or_save world (lit "paper.pdf") []
           true w0 (Exception (lit "No such file or directory"))).
  vm_compute. reflexivity.
Defined.

End DemoSettingsConvenience.
